(** * Picobot simulator: a shallow embedding of [picobot/simulator.py]

    The development follows the layout of the Python module: constants,
    [Cell], [Room], [Rule] with its parser, and the [Picobot] simulator with
    the exhaustive tester.

    Conventions.
    - Python [int] is [Z].
    - Python [str] is [pystr], a list of characters; a character is a code
      point in U+0000..U+00FF, carried by [ascii]. The character classes of
      the rule pattern, [str.strip] and [str.upper] are those of Python on
      this range. [int(s)] raises on a string of more than 4300 digits,
      CPython's default limit.
    - A Python exception is a value [Raise e] of the [result] type; every
      function that can raise returns a [result].
    - The [visited] set is a [gset (Z * Z)].
    - The float [100 * len(visited) / total] is kept as the exact rational
      it rounds.
    - The [verbose] printing of [run] and [test_rules_all_positions] is left
      out. *)

From Stdlib Require Import ZArith QArith Ascii String DecimalString.
From stdpp Require Import base tactics option list sorting gmap strings.

#[local] Open Scope Z_scope.
#[local] Open Scope list_scope.

(** ** Python values *)

Definition pystr := list ascii.

(** A string literal. *)
Definition lit (s : string) : pystr := list_ascii_of_string s.

(** Exceptions raised by the module. *)
Inductive PyErr :=
| ValueError (msg : pystr)
| IndexError
| KeyError (key : pystr)
| ZeroDivisionError.

Inductive result (A : Type) :=
| Ok (a : A)
| Raise (e : PyErr).
Arguments Ok {A} a.
Arguments Raise {A} e.

#[global] Instance result_ret : MRet result := fun A a => Ok a.
#[global] Instance result_bind : MBind result := fun A B k m =>
  match m with
  | Ok a => k a
  | Raise e => Raise e
  end.

(** [l[i]]: negative indices count from the end, anything out of range
    raises [IndexError]. *)
Definition getitem {A} (l : list A) (i : Z) : result A :=
  let j := if i <? 0 then i + Z.of_nat (length l) else i in
  if j <? 0 then Raise IndexError
  else match l !! Z.to_nat j with
       | Some x => Ok x
       | None => Raise IndexError
       end.

(** [str(n)] for an [int]. *)
Definition str_of_Z (n : Z) : pystr :=
  list_ascii_of_string (NilZero.string_of_int (Z.to_int n)).

(** ** Constants *)

Definition DIRECTIONS : list pystr := [lit "N"; lit "E"; lit "W"; lit "S"].

Definition MOVE_VECTORS : list (pystr * (Z * Z)) :=
  [ (lit "N", (-1, 0));
    (lit "E", (0, 1));
    (lit "W", (0, -1));
    (lit "S", (1, 0));
    (lit "X", (0, 0)) ].

(** [d[key]] on a dict written as an association list. *)
Fixpoint dict_get {V} (d : list (pystr * V)) (key : pystr) : result V :=
  match d with
  | [] => Raise (KeyError key)
  | (k, v) :: d' => if decide (k = key) then Ok v else dict_get d' key
  end.

(** [range(n)] *)
Definition range (n : Z) : list Z := map Z.of_nat (seq 0 (Z.to_nat n)).

(** ** Text helpers used by the rule parser *)

Definition code (c : ascii) : Z := Z.of_N (N_of_ascii c).

(** Whitespace as [str.strip] and the pattern [\s] see it. *)
Definition is_space (c : ascii) : bool :=
  let n := code c in
  ((9 <=? n) && (n <=? 13)) || ((28 <=? n) && (n <=? 32))
  || (n =? 133) || (n =? 160).

(** Decimal digits as the pattern [\d] sees them. *)
Definition is_digit (c : ascii) : bool :=
  let n := code c in (48 <=? n) && (n <=? 57).

(** The class [[NEWSxX*]] under [re.IGNORECASE]. *)
Definition is_surr_char (c : ascii) : bool :=
  bool_decide (c ∈ lit "NEWSXnewsx*").

(** The class [[NEWSX]] under [re.IGNORECASE]. *)
Definition is_dir_char (c : ascii) : bool :=
  bool_decide (c ∈ lit "NEWSXnewsx").

(** [str.upper] on one character; it is only applied to text matched by the
    two classes above, where it changes the ASCII lowercase letters. *)
Definition ascii_upper (c : ascii) : ascii :=
  let n := code c in
  if (97 <=? n) && (n <=? 122) then ascii_of_N (Z.to_N (n - 32)) else c.

Definition str_upper (s : pystr) : pystr := map ascii_upper s.

(** The number a string of decimal digits stands for. *)
Definition int_of_digits (s : pystr) : Z :=
  fold_left (fun acc c => 10 * acc + (code c - 48)) s 0.

(** The default of [sys.int_max_str_digits]. *)
Definition int_max_str_digits : Z := 4300.

Definition int_limit_error (digits : Z) : PyErr :=
  ValueError
    (lit "Exceeds the limit (4300 digits) for integer string conversion: "
       ++ lit "value has " ++ str_of_Z digits
       ++ lit " digits; use sys.set_int_max_str_digits() to increase the limit").

(** [int(s)] for a string of decimal digits: CPython refuses a string of
    more than [int_max_str_digits] digits with a [ValueError]. *)
Definition py_int (s : pystr) : result Z :=
  if Z.of_nat (length s) >? int_max_str_digits
  then Raise (int_limit_error (Z.of_nat (length s)))
  else Ok (int_of_digits s).

Definition nl : ascii := ascii_of_N 10.

(** [s.split('\n')] *)
Fixpoint split_nl (s : pystr) : list pystr :=
  match s with
  | [] => [[]]
  | c :: s' =>
      if decide (c = nl) then [] :: split_nl s'
      else match split_nl s' with
           | l :: ls => (c :: l) :: ls
           | [] => [[c]]
           end
  end.

(** ['\n'.join(ls)] *)
Fixpoint join_nl (ls : list pystr) : pystr :=
  match ls with
  | [] => []
  | [l] => l
  | l :: ls' => l ++ nl :: join_nl ls'
  end.

(** [s.index(c)] when [c in s]. *)
Fixpoint str_index (c : ascii) (s : pystr) : option nat :=
  match s with
  | [] => None
  | c' :: s' => if decide (c' = c) then Some 0%nat else S <$> str_index c s'
  end.

Fixpoint lstrip (s : pystr) : pystr :=
  match s with
  | [] => []
  | c :: s' => if is_space c then lstrip s' else s
  end.

Definition rstrip (s : pystr) : pystr := rev (lstrip (rev s)).

(** [s.strip()] *)
Definition strip (s : pystr) : pystr := rstrip (lstrip s).

(** The longest prefix of [s] whose characters satisfy [p], and the rest:
    a greedy [p+] or [p*] of a pattern. *)
Fixpoint span (p : ascii -> bool) (s : pystr) : pystr * pystr :=
  match s with
  | [] => ([], [])
  | c :: s' =>
      if p c then let '(a, b) := span p s' in (c :: a, b) else ([], s)
  end.

(** ** Cell types *)

Inductive Cell := EMPTY | WALL.

#[global] Instance Cell_eq_dec : EqDecision Cell.
Proof. solve_decision. Defined.

(** ** Room *)

Module Room.

Record t := mk {
  grid : list (list Cell);
  height : Z;
  width : Z
}.

(** The row-length check of the constructor; [i] is the index of the first
    row of [rows]. *)
Fixpoint check_rows (row_length : nat) (i : Z) (rows : list (list Cell))
  : result unit :=
  match rows with
  | [] => Ok tt
  | row :: rest =>
      if decide (length row ≠ row_length) then
        Raise (ValueError
          (lit "Inconsistent row lengths: row 0 has "
             ++ str_of_Z (Z.of_nat row_length)
             ++ lit " columns, but row " ++ str_of_Z i ++ lit " has "
             ++ str_of_Z (Z.of_nat (length row)) ++ lit " columns."))
      else check_rows row_length (i + 1) rest
  end.

(** [Room.__init__] *)
Definition init (g : list (list Cell)) : result t :=
  match g with
  | [] => Raise (ValueError (lit "Grid cannot be empty."))
  | [] :: _ => Raise (ValueError (lit "Grid cannot be empty."))
  | row0 :: _ =>
      _ ← check_rows (length row0) 0 g;
      Ok {| grid := g;
            height := Z.of_nat (length g);
            width := Z.of_nat (length row0) |}
  end.

(** [Room.is_wall] *)
Definition is_wall (room : t) (row col : Z) : result bool :=
  if (row <? 0) || (row >=? height room) || (col <? 0) || (col >=? width room)
  then Ok true
  else
    r ← getitem (grid room) row;
    c ← getitem r col;
    Ok (bool_decide (c = WALL)).

(** [Room.is_empty] *)
Definition is_empty (room : t) (row col : Z) : result bool :=
  w ← is_wall room row col;
  Ok (negb w).

(** [Room.count_empty_cells] *)
Definition count_empty_cells (room : t) : Z :=
  fold_left
    (fun count row =>
       fold_left
         (fun count cell => if decide (cell = EMPTY) then count + 1 else count)
         row count)
    (grid room) 0.

(** The inner loop of [get_empty_cells] over the columns [cols] of row
    [row_idx], appending to [acc]. *)
Fixpoint scan_cols (room : t) (row_idx : Z) (cols : list Z)
    (acc : list (Z * Z)) : result (list (Z * Z)) :=
  match cols with
  | [] => Ok acc
  | col_idx :: cols' =>
      r ← getitem (grid room) row_idx;
      c ← getitem r col_idx;
      scan_cols room row_idx cols'
        (if decide (c = EMPTY) then acc ++ [(row_idx, col_idx)] else acc)
  end.

(** The outer loop over the rows. *)
Fixpoint scan_rows (room : t) (rows : list Z) (acc : list (Z * Z))
  : result (list (Z * Z)) :=
  match rows with
  | [] => Ok acc
  | row_idx :: rows' =>
      acc' ← scan_cols room row_idx (range (width room)) acc;
      scan_rows room rows' acc'
  end.

(** [Room.get_empty_cells] *)
Definition get_empty_cells (room : t) : result (list (Z * Z)) :=
  scan_rows room (range (height room)) [].

(** The inner loop of [empty_room] over the columns [cols] of row
    [row_idx], appending to [row]. *)
Fixpoint boundary_row (height width row_idx : Z) (cols : list Z)
    (row : list Cell) : list Cell :=
  match cols with
  | [] => row
  | col_idx :: cols' =>
      let is_boundary :=
        (row_idx =? 0) || (row_idx =? height - 1)
        || (col_idx =? 0) || (col_idx =? width - 1) in
      boundary_row height width row_idx cols'
        (if is_boundary then row ++ [WALL] else row ++ [EMPTY])
  end.

(** The outer loop of [empty_room] over the rows, appending to [grid]. *)
Fixpoint boundary_rows (height width : Z) (rows : list Z)
    (grid : list (list Cell)) : list (list Cell) :=
  match rows with
  | [] => grid
  | row_idx :: rows' =>
      boundary_rows height width rows'
        (grid ++ [boundary_row height width row_idx (range width) []])
  end.

(** [Room.empty_room] *)
Definition empty_room (height width : Z) : result t :=
  if (height <? 3) || (width <? 3) then
    Raise (ValueError
      (lit "Room must be at least 3x3 to have an interior. Got "
         ++ str_of_Z height ++ lit "x" ++ str_of_Z width ++ lit "."))
  else init (boundary_rows height width (range height) []).

(** The loop of [from_string] over the characters of a line, from column
    [col_idx], appending to [row]. *)
Fixpoint read_row (row_idx col_idx : Z) (line : pystr) (row : list Cell)
  : result (list Cell) :=
  match line with
  | [] => Ok row
  | char :: line' =>
      if decide (char ∈ lit "#W") then
        read_row row_idx (col_idx + 1) line' (row ++ [WALL])
      else if decide (char ∈ lit ". ") then
        read_row row_idx (col_idx + 1) line' (row ++ [EMPTY])
      else
        Raise (ValueError
          (lit "Invalid character '" ++ [char] ++ lit "' at row "
             ++ str_of_Z row_idx ++ lit ", col " ++ str_of_Z col_idx
             ++ lit ". Use '#' or 'W' for walls, '.' or ' ' for empty cells."))
  end.

(** The loop of [from_string] over the lines, from row [row_idx], appending
    to [grid]. *)
Fixpoint read_rows (expected_width : nat) (row_idx : Z) (lines : list pystr)
    (grid : list (list Cell)) : result (list (list Cell)) :=
  match lines with
  | [] => Ok grid
  | line :: lines' =>
      if decide (length line ≠ expected_width) then
        Raise (ValueError
          (lit "Inconsistent row width: row 0 has "
             ++ str_of_Z (Z.of_nat expected_width)
             ++ lit " chars, but row " ++ str_of_Z row_idx ++ lit " has "
             ++ str_of_Z (Z.of_nat (length line)) ++ lit " chars."))
      else
        row ← read_row row_idx 0 line [];
        read_rows expected_width (row_idx + 1) lines' (grid ++ [row])
  end.

(** [Room.from_string] *)
Definition from_string (room_string : pystr) : result t :=
  let lines :=
    filter (λ line : pystr, line ≠ []) (split_nl (strip room_string)) in
  match lines with
  | [] => Raise (ValueError (lit "Room string cannot be empty."))
  | line0 :: _ =>
      grid ← read_rows (length line0) 0 lines [];
      init grid
  end.

(** The inner loop of [to_string] over the columns [cols] of row
    [row_idx], appending to [line]. *)
Fixpoint draw_row (room : t) (visited : gset (Z * Z))
    (picobot_pos : option (Z * Z)) (row_idx : Z) (cols : list Z)
    (line : pystr) : result pystr :=
  match cols with
  | [] => Ok line
  | col_idx :: cols' =>
      let pos := (row_idx, col_idx) in
      if decide (picobot_pos = Some pos) then
        draw_row room visited picobot_pos row_idx cols' (line ++ lit "P")
      else
        r ← getitem (grid room) row_idx;
        c ← getitem r col_idx;
        if decide (c = WALL) then
          draw_row room visited picobot_pos row_idx cols' (line ++ lit "#")
        else if decide (pos ∈ visited) then
          draw_row room visited picobot_pos row_idx cols' (line ++ lit "o")
        else
          draw_row room visited picobot_pos row_idx cols' (line ++ lit ".")
  end.

(** The outer loop of [to_string] over the rows, appending to [lines]. *)
Fixpoint draw_rows (room : t) (visited : gset (Z * Z))
    (picobot_pos : option (Z * Z)) (rows : list Z) (lines : list pystr)
  : result (list pystr) :=
  match rows with
  | [] => Ok lines
  | row_idx :: rows' =>
      line ← draw_row room visited picobot_pos row_idx (range (width room)) [];
      draw_rows room visited picobot_pos rows' (lines ++ [line])
  end.

(** [Room.to_string] *)
Definition to_string (room : t) (visited : option (gset (Z * Z)))
    (picobot_pos : option (Z * Z)) : result pystr :=
  let visited := match visited with None => ∅ | Some v => v end in
  lines ← draw_rows room visited picobot_pos (range (height room)) [];
  Ok (join_nl lines).

End Room.

(** A literal of a pattern: [s] without the text [pre] it starts with. *)
Fixpoint after_literal (pre s : pystr) : option pystr :=
  match pre, s with
  | [], _ => Some s
  | p :: pre', c :: s' =>
      if decide (p = c) then after_literal pre' s' else None
  | _ :: _, [] => None
  end.

(** ** Rule parsing and matching *)

Module Rule.

Record t := mk {
  state : Z;
  surroundings_pattern : pystr;
  direction : pystr;
  new_state : Z;
  line_number : Z
}.

#[global] Instance eq_dec : EqDecision t.
Proof. solve_decision. Defined.

(** The loop of [Rule.matches] over [zip(pattern, surroundings)]. *)
Fixpoint zip_matches (pattern surroundings : pystr) : bool :=
  match pattern, surroundings with
  | pattern_char :: pattern', surr_char :: surroundings' =>
      if decide (pattern_char = "*"%char) then zip_matches pattern' surroundings'
      else if decide (pattern_char ≠ surr_char) then false
      else zip_matches pattern' surroundings'
  | _, _ => true
  end.

(** [Rule.matches] *)
Definition matches (self : t) (current_state : Z) (surroundings : pystr)
  : bool :=
  if decide (current_state ≠ state self) then false
  else zip_matches (surroundings_pattern self) surroundings.

(** [Rule.__str__] *)
Definition str (self : t) : pystr :=
  str_of_Z (state self) ++ lit " " ++ surroundings_pattern self
    ++ lit " -> " ++ direction self ++ lit " " ++ str_of_Z (new_state self).

End Rule.

(** [rule_pattern.match(line)]: the four groups when the line matches

      ^(\d+)\s+([NEWSxX*]{4})\s*->\s*([NEWSX])\s+(\d+)\s*$

    under [re.IGNORECASE]. Neighbouring pieces of the pattern accept disjoint
    sets of characters, so the greedy reading below is the only way to match
    ([rule_pattern_match_grammar] links it to the pattern read as a
    language). *)
Definition rule_pattern_match (line : pystr)
  : option (pystr * pystr * pystr * pystr) :=
  let '(g1, s1) := span is_digit line in
  if decide (g1 = []) then None else
  let '(w1, s2) := span is_space s1 in
  if decide (w1 = []) then None else
  let g2 := take 4 s2 in
  let s3 := drop 4 s2 in
  if negb (bool_decide (length g2 = 4%nat) && forallb is_surr_char g2)
  then None else
  let '(_, s4) := span is_space s3 in
  match after_literal (lit "->") s4 with
  | Some s5 =>
      let '(_, s6) := span is_space s5 in
      match s6 with
      | d :: s7 =>
          if negb (is_dir_char d) then None else
          let '(w4, s8) := span is_space s7 in
          if decide (w4 = []) then None else
          let '(g4, s9) := span is_digit s8 in
          if decide (g4 = []) then None else
          let '(_, s10) := span is_space s9 in
          match s10 with
          | [] => Some (g1, g2, [d], g4)
          | _ => None
          end
      | [] => None
      end
  | None => None
  end.

Module Parser.

(** The removal of a comment: [if '#' in line: line = line[:line.index('#')]]. *)
Definition remove_comment (line : pystr) : pystr :=
  match str_index "#"%char line with
  | Some i => take i line
  | None => line
  end.

(** The normalisation loop over [enumerate(surroundings)], from index [i]. *)
Fixpoint normalize (i : Z) (surroundings : pystr) (line_num : Z)
    (normalized_surroundings : pystr) : result pystr :=
  match surroundings with
  | [] => Ok normalized_surroundings
  | char :: rest =>
      if bool_decide (char = "X"%char) && (i <? 4) then
        normalize (i + 1) rest line_num (normalized_surroundings ++ lit "x")
      else if decide (char = "*"%char) then
        normalize (i + 1) rest line_num (normalized_surroundings ++ lit "*")
      else if decide (char ∈ lit "NEWS") then
        normalize (i + 1) rest line_num (normalized_surroundings ++ [char])
      else if decide (char = "x"%char) then
        normalize (i + 1) rest line_num (normalized_surroundings ++ lit "x")
      else
        Raise (ValueError
          (lit "Invalid surroundings character '" ++ [char]
             ++ lit "' at line " ++ str_of_Z line_num ++ lit "."))
  end.

Definition syntax_error (line_num : Z) (line : pystr) : PyErr :=
  ValueError
    (lit "Invalid rule syntax at line " ++ str_of_Z line_num ++ lit ": '"
       ++ line ++ lit "'" ++ [nl]
       ++ lit "Expected format: STATE SURROUNDINGS -> DIRECTION NEWSTATE"
       ++ [nl] ++ lit "Example: 0 x*** -> N 0").

Definition state_error (state line_num : Z) : PyErr :=
  ValueError
    (lit "Invalid state " ++ str_of_Z state ++ lit " at line "
       ++ str_of_Z line_num ++ lit ". State must be between 0 and 99.").

Definition new_state_error (new_state line_num : Z) : PyErr :=
  ValueError
    (lit "Invalid new_state " ++ str_of_Z new_state ++ lit " at line "
       ++ str_of_Z line_num ++ lit ". State must be between 0 and 99.").

(** The body of the loop of [parse_rules] for one line: [Ok None] is
    [continue], [Ok (Some rule)] is the rule appended. *)
Definition parse_line (line_num : Z) (line : pystr)
  : result (option Rule.t) :=
  let line := remove_comment line in
  let line := strip line in
  if decide (line = []) then Ok None
  else
    match rule_pattern_match line with
    | None => Raise (syntax_error line_num line)
    | Some (g1, g2, g3, g4) =>
        state ← py_int g1;
        let surroundings := str_upper g2 in
        let direction := str_upper g3 in
        new_state ← py_int g4;
        if negb ((0 <=? state) && (state <=? 99)) then
          Raise (state_error state line_num)
        else if negb ((0 <=? new_state) && (new_state <=? 99)) then
          Raise (new_state_error new_state line_num)
        else
          normalized_surroundings ← normalize 0 surroundings line_num [];
          Ok (Some (Rule.mk state normalized_surroundings direction
                      new_state line_num))
    end.

(** The loop over [enumerate(lines, start=line_num)], appending to [rules]. *)
Fixpoint parse_lines (lines : list pystr) (line_num : Z)
    (rules : list Rule.t) : result (list Rule.t) :=
  match lines with
  | [] => Ok rules
  | line :: rest =>
      r ← parse_line line_num line;
      parse_lines rest (line_num + 1)
        (match r with Some rule => rules ++ [rule] | None => rules end)
  end.

End Parser.

(** [parse_rules] *)
Definition parse_rules (rules_text : pystr) : result (list Rule.t) :=
  Parser.parse_lines (split_nl rules_text) 1 [].

(** The text of a rule list, one rule per line. *)
Definition render_rules (rules : list Rule.t) : pystr :=
  join_nl (map Rule.str rules).

(** ** Picobot simulator *)

Module SimulationStep.

Record t := mk {
  step_number : Z;
  position : Z * Z;
  state : Z;
  surroundings : pystr;
  rule_applied : option Rule.t;
  new_position : Z * Z;
  new_state : Z
}.

End SimulationStep.

(** The [rules] argument: [str | list[Rule]]. *)
Inductive RulesArg :=
| RulesText (text : pystr)
| RulesList (rules : list Rule.t).

(** The dictionary returned by [Picobot.run]. *)
Module RunResult.

Record t := mk {
  success : bool;
  steps : Z;
  coverage : Q;
  visited : Z;
  total : Z;
  halted : bool;
  halt_reason : pystr
}.

End RunResult.

(** [a / b] on integers. *)
Definition truediv (a b : Z) : result Q :=
  if decide (b = 0) then Raise ZeroDivisionError
  else Ok (inject_Z a / inject_Z b)%Q.

(** [len(s)] for a set. *)
Definition len_set (s : gset (Z * Z)) : Z := Z.of_nat (size s).

Module Picobot.

Record t := mk {
  room : Room.t;
  rules : list Rule.t;
  position : Z * Z;
  state : Z;
  visited : gset (Z * Z);
  history : list SimulationStep.t;
  _halted : bool;
  _halt_reason : pystr
}.

(** [Picobot.__init__] *)
Definition init (room : Room.t) (rules : RulesArg)
    (start_position : option (Z * Z)) : result t :=
  rules ← match rules with
          | RulesText text => parse_rules text
          | RulesList rules => Ok rules
          end;
  start_position ←
    match start_position with
    | None =>
        empty_cells ← Room.get_empty_cells room;
        match empty_cells with
        | [] => Raise (ValueError (lit "Room has no empty cells!"))
        | first :: _ => Ok first
        end
    | Some (row, col) =>
        w ← Room.is_wall room row col;
        if (w : bool) then
          Raise (ValueError
            (lit "Starting position (" ++ str_of_Z row ++ lit ", "
               ++ str_of_Z col ++ lit ") is a wall or out of bounds."))
        else Ok (row, col)
    end;
  Ok {| room := room;
        rules := rules;
        position := start_position;
        state := 0;
        visited := {[ start_position ]};
        history := [];
        _halted := false;
        _halt_reason := [] |}.

(** The loop of [get_surroundings] over the directions [dirs]. *)
Fixpoint surroundings_loop (room : Room.t) (row col : Z) (dirs : list pystr)
    (surroundings : pystr) : result pystr :=
  match dirs with
  | [] => Ok surroundings
  | direction :: dirs' =>
      vec ← dict_get MOVE_VECTORS direction;
      let '(d_row, d_col) := vec in
      let neighbor_row := row + d_row in
      let neighbor_col := col + d_col in
      w ← Room.is_wall room neighbor_row neighbor_col;
      surroundings_loop room row col dirs'
        (if (w : bool) then surroundings ++ direction
         else surroundings ++ lit "x")
  end.

(** [Picobot.get_surroundings] *)
Definition get_surroundings (self : t) : result pystr :=
  let '(row, col) := position self in
  surroundings_loop (room self) row col DIRECTIONS [].

(** The loop of [find_matching_rule]. *)
Fixpoint first_match (rules : list Rule.t) (state : Z) (surroundings : pystr)
  : option Rule.t :=
  match rules with
  | [] => None
  | rule :: rules' =>
      if Rule.matches rule state surroundings then Some rule
      else first_match rules' state surroundings
  end.

(** [Picobot.find_matching_rule] *)
Definition find_matching_rule (self : t) (state : Z) (surroundings : pystr)
  : option Rule.t :=
  first_match (rules self) state surroundings.

Definition no_rule_reason (current_state : Z) (surroundings : pystr) : pystr :=
  lit "No rule matches state " ++ str_of_Z current_state
    ++ lit " with surroundings " ++ surroundings.

Definition wall_reason (rule : Rule.t) (new_row new_col : Z) : pystr :=
  lit "Rule '" ++ Rule.str rule ++ lit "' tried to move into wall at ("
    ++ str_of_Z new_row ++ lit ", " ++ str_of_Z new_col ++ lit ")".

(** [Picobot.step]: the agent after the call and the value returned. *)
Definition step (self : t) : result (t * bool) :=
  if _halted self then Ok (self, false)
  else
    let current_position := position self in
    let current_state := state self in
    surroundings ← get_surroundings self;
    match find_matching_rule self current_state surroundings with
    | None =>
        Ok ({| room := room self;
               rules := rules self;
               position := position self;
               state := state self;
               visited := visited self;
               history := history self ++
                 [ SimulationStep.mk (Z.of_nat (length (history self)))
                     current_position current_state surroundings None
                     current_position current_state ];
               _halted := true;
               _halt_reason := no_rule_reason current_state surroundings |},
            false)
    | Some rule =>
        vec ← dict_get MOVE_VECTORS (Rule.direction rule);
        let '(d_row, d_col) := vec in
        let new_row := current_position.1 + d_row in
        let new_col := current_position.2 + d_col in
        let new_position := (new_row, new_col) in
        w ← Room.is_wall (room self) new_row new_col;
        if (w : bool) then
          Ok ({| room := room self;
                 rules := rules self;
                 position := position self;
                 state := state self;
                 visited := visited self;
                 history := history self ++
                   [ SimulationStep.mk (Z.of_nat (length (history self)))
                       current_position current_state surroundings (Some rule)
                       current_position current_state ];
                 _halted := true;
                 _halt_reason := wall_reason rule new_row new_col |},
              false)
        else
          Ok ({| room := room self;
                 rules := rules self;
                 position := new_position;
                 state := Rule.new_state rule;
                 visited := visited self ∪ {[ new_position ]};
                 history := history self ++
                   [ SimulationStep.mk (Z.of_nat (length (history self)))
                       current_position current_state surroundings (Some rule)
                       new_position (Rule.new_state rule) ];
                 _halted := _halted self;
                 _halt_reason := _halt_reason self |},
              true)
    end.

(** The [for step in range(max_steps)] loop of [run] over the remaining
    values [steps] of the loop variable; printing is left out. *)
Fixpoint run_loop (self : t) (total_empty : Z) (stop_on_full_coverage : bool)
    (steps : list Z) (steps_taken : Z) : result (t * Z) :=
  match steps with
  | [] => Ok (self, steps_taken)
  | step_i :: steps' =>
      if stop_on_full_coverage && (len_set (visited self) >=? total_empty)
      then Ok (self, steps_taken)
      else
        r ← step self;
        let '(self', success) := r in
        let steps_taken := step_i + 1 in
        if negb success then Ok (self', steps_taken)
        else run_loop self' total_empty stop_on_full_coverage steps' steps_taken
  end.

(** [Picobot.run]: the agent after the call and the dictionary returned. *)
Definition run (self : t) (max_steps : Z) (stop_on_full_coverage : bool)
  : result (t * RunResult.t) :=
  let total_empty := Room.count_empty_cells (room self) in
  r ← run_loop self total_empty stop_on_full_coverage (range max_steps) 0;
  let '(self', steps_taken) := r in
  coverage_percent ← truediv (100 * len_set (visited self')) total_empty;
  Ok (self',
      {| RunResult.success := len_set (visited self') >=? total_empty;
         RunResult.steps := steps_taken;
         RunResult.coverage := coverage_percent;
         RunResult.visited := len_set (visited self');
         RunResult.total := total_empty;
         RunResult.halted := _halted self';
         RunResult.halt_reason := _halt_reason self' |}).

(** [Picobot.coverage_percent] *)
Definition coverage_percent (self : t) : result Q :=
  let total := Room.count_empty_cells (room self) in
  if decide (total = 0) then Ok (inject_Z 100)
  else truediv (100 * len_set (visited self)) total.

(** [Picobot.is_complete] *)
Definition is_complete (self : t) : bool :=
  len_set (visited self) >=? Room.count_empty_cells (room self).

(** [Picobot.display] *)
Definition display (self : t) : result pystr :=
  Room.to_string (room self) (Some (visited self)) (Some (position self)).

(** [Picobot.reset] *)
Definition reset (self : t) (start_position : option (Z * Z)) : result t :=
  start_position ←
    match start_position with
    | None =>
        empty_cells ← Room.get_empty_cells (room self);
        match empty_cells with
        | first :: _ => Ok first
        | [] => Raise (ValueError (lit "Room has no empty cells!"))
        end
    | Some p => Ok p
    end;
  Ok {| room := room self;
        rules := rules self;
        position := start_position;
        state := 0;
        visited := {[ start_position ]};
        history := [];
        _halted := false;
        _halt_reason := [] |}.

End Picobot.

(** ** Utility functions *)

(** The dictionary returned by [test_rules_all_positions]. *)
Module TestResult.

Record t := mk {
  success : bool;
  positions_tested : Z;
  positions_passed : Z;
  failures : list ((Z * Z) * RunResult.t);
  max_steps_used : Z;
  avg_steps : Q
}.

End TestResult.

Module Tester.

(** The loop of [test_rules_all_positions] over the remaining start
    positions; the state is [(failures, steps_list, passed)]. *)
Fixpoint loop (room : Room.t) (rules : RulesArg) (max_steps : Z)
    (cells : list (Z * Z))
    (failures : list ((Z * Z) * RunResult.t)) (steps_list : list Z)
    (passed : Z)
  : result (list ((Z * Z) * RunResult.t) * list Z * Z) :=
  match cells with
  | [] => Ok (failures, steps_list, passed)
  | start_pos :: cells' =>
      bot ← Picobot.init room rules (Some start_pos);
      r ← Picobot.run bot max_steps true;
      let res := r.2 in
      if RunResult.success res then
        loop room rules max_steps cells' failures
          (steps_list ++ [RunResult.steps res]) (passed + 1)
      else
        loop room rules max_steps cells' (failures ++ [(start_pos, res)])
          steps_list passed
  end.

(** [max(l)] for a non-empty list. *)
Definition list_max (l : list Z) : Z :=
  match l with
  | [] => 0
  | x :: l' => fold_left Z.max l' x
  end.

(** [sum(l)] *)
Definition list_sum (l : list Z) : Z := fold_left Z.add l 0.

End Tester.

(** [test_rules_all_positions] *)
Definition test_rules_all_positions (room : Room.t) (rules : RulesArg)
    (max_steps : Z) : result TestResult.t :=
  empty_cells ← Room.get_empty_cells room;
  r ← Tester.loop room rules max_steps empty_cells [] [] 0;
  let '(failures, steps_list, passed) := r in
  avg ← match steps_list with
        | [] => Ok (inject_Z 0)
        | _ => truediv (Tester.list_sum steps_list)
                 (Z.of_nat (length steps_list))
        end;
  Ok {| TestResult.success := bool_decide (length failures = 0%nat);
        TestResult.positions_tested := Z.of_nat (length empty_cells);
        TestResult.positions_passed := passed;
        TestResult.failures := failures;
        TestResult.max_steps_used :=
          match steps_list with [] => 0 | _ => Tester.list_max steps_list end;
        TestResult.avg_steps := avg |}.

(** [count_rules] *)
Definition count_rules (rules : RulesArg) : result Z :=
  rules ← match rules with
          | RulesText text => parse_rules text
          | RulesList rules => Ok rules
          end;
  Ok (Z.of_nat (length rules)).

(** [count_states] *)
Definition count_states (rules : RulesArg) : result Z :=
  rules ← match rules with
          | RulesText text => parse_rules text
          | RulesList rules => Ok rules
          end;
  let states :=
    fold_left
      (λ (states : gset Z) rule,
         states ∪ {[ Rule.state rule ]} ∪ {[ Rule.new_state rule ]})
      rules ∅ in
  Ok (Z.of_nat (size states)).

(** ** Room builders, from [picobot/rooms.py] *)

(** The dictionary returned by [room_statistics]. *)
Module RoomStats.

Record t := mk {
  height : Z;
  width : Z;
  total_cells : Z;
  empty_cells : Z;
  wall_cells : Z;
  empty_percent : Q
}.

End RoomStats.

Module Rooms.

Definition STANDARD_SIZE : Z := 25.

(** [create_empty_room] *)
Definition create_empty_room (height width : option Z) : result Room.t :=
  let height := match height with None => STANDARD_SIZE | Some h => h end in
  let width := match width with None => STANDARD_SIZE | Some w => w end in
  Room.empty_room height width.

(** [room_statistics] *)
Definition room_statistics (room : Room.t) : RoomStats.t :=
  let total := Room.height room * Room.width room in
  let empty := Room.count_empty_cells room in
  let walls := total - empty in
  {| RoomStats.height := Room.height room;
     RoomStats.width := Room.width room;
     RoomStats.total_cells := total;
     RoomStats.empty_cells := empty;
     RoomStats.wall_cells := walls;
     RoomStats.empty_percent :=
       if total >? 0 then (inject_Z (100 * empty) / inject_Z total)%Q
       else inject_Z 0 |}.

End Rooms.

(** * Properties *)

(** Reduction of the binds of the [result] monad and of projections, leaving
    the program's own functions folded. *)
Ltac rsimpl := cbn [mbind result_bind mret result_ret fst snd].
Ltac rsimpl_hyp H := cbn [mbind result_bind mret result_ret fst snd] in H.

(** ** Rule matching *)

Section Matching.

(** A rule fits a state and a surroundings string when the states agree and
    each of the four slots of its pattern is the wildcard or the character
    observed in that slot. *)
Definition rule_fits (r : Rule.t) (st : Z) (sur : pystr) : Prop :=
  Rule.state r = st ∧
  ∀ i, (i < 4)%nat →
    ∃ p s, Rule.surroundings_pattern r !! i = Some p ∧ sur !! i = Some s ∧
           (p = "*"%char ∨ p = s).

Definition four_slots (r : Rule.t) : Prop :=
  length (Rule.surroundings_pattern r) = 4%nat.

Lemma zip_matches_lookup pat sur :
  Rule.zip_matches pat sur = true ↔
  ∀ i p s, pat !! i = Some p → sur !! i = Some s → p = "*"%char ∨ p = s.
Proof.
  revert sur. induction pat as [|p pat IH]; intros [|s sur]; simpl;
    try (split; [intros _ i ? ? Hp Hs; by destruct i | done]).
  destruct (decide (p = "*"%char)) as [->|Hstar];
    [|destruct (decide (p ≠ s)) as [Hne|Heq%dec_stable]].
  - rewrite IH. split.
    + intros Hi [|i] p' s' Hp Hs; simplify_eq/=; eauto.
    + intros Hi i p' s' Hp Hs. apply (Hi (S i)); done.
  - split; [done|]. intros Hi. destruct (Hi 0%nat p s) as [|]; done.
  - rewrite IH. split.
    + intros Hi [|i] p' s' Hp Hs; simplify_eq/=; eauto.
    + intros Hi i p' s' Hp Hs. apply (Hi (S i)); done.
Qed.

Lemma matches_fits r st sur :
  four_slots r → length sur = 4%nat →
  Rule.matches r st sur = true ↔ rule_fits r st sur.
Proof.
  intros Hr Hs. unfold Rule.matches, rule_fits.
  destruct (decide (st ≠ Rule.state r)) as [Hst|Hst%dec_stable].
  - split; [done|]. intros [? _]. congruence.
  - rewrite zip_matches_lookup. split.
    + intros H. split; [done|]. intros i Hi.
      destruct (lookup_lt_is_Some_2 (Rule.surroundings_pattern r) i) as [p Hp];
        [unfold four_slots in Hr; lia|].
      destruct (lookup_lt_is_Some_2 sur i) as [s Hsi]; [lia|].
      exists p, s. eauto.
    + intros [_ H] i p s Hp Hsi.
      destruct (H i) as (p' & s' & ? & ? & ?).
      { apply lookup_lt_Some in Hsi. lia. }
      congruence.
Qed.

Lemma first_match_Some rules st sur r :
  Picobot.first_match rules st sur = Some r ↔
  ∃ l1 l2, rules = l1 ++ r :: l2 ∧ Rule.matches r st sur = true ∧
           Forall (λ r', Rule.matches r' st sur = false) l1.
Proof.
  induction rules as [|r0 rules IH]; simpl.
  - split; [done|]. intros (l1 & l2 & H & _). by destruct l1.
  - destruct (Rule.matches r0 st sur) eqn:Hm.
    + split.
      * intros [= <-]. exists [], rules. eauto.
      * intros ([|r1 l1] & l2 & H & Hr & Hl); simplify_eq/=; [done|].
        apply Forall_cons in Hl as [Hl _]. congruence.
    + rewrite IH. split.
      * intros (l1 & l2 & -> & Hr & Hl). exists (r0 :: l1), l2. eauto.
      * intros ([|r1 l1] & l2 & H & Hr & Hl); simplify_eq/=; [congruence|].
        apply Forall_cons in Hl as [_ Hl]. eauto.
Qed.

Lemma first_match_None rules st sur :
  Picobot.first_match rules st sur = None ↔
  Forall (λ r, Rule.matches r st sur = false) rules.
Proof.
  induction rules as [|r0 rules IH]; simpl; [by split|].
  destruct (Rule.matches r0 st sur) eqn:Hm.
  - split; [done|]. intros [? _]%Forall_cons. congruence.
  - rewrite IH. split; [by constructor|]. by intros [_ ?]%Forall_cons.
Qed.

Lemma first_match_before l1 R1 rest st sur :
  Rule.matches R1 st sur = true →
  ∃ k r, (k ≤ length l1)%nat ∧ (l1 ++ R1 :: rest) !! k = Some r ∧
         Picobot.first_match (l1 ++ R1 :: rest) st sur = Some r ∧
         (Forall (λ r', Rule.matches r' st sur = false) l1 → r = R1).
Proof.
  intros HR1. induction l1 as [|r0 l1 IH]; simpl.
  - exists 0%nat, R1. rewrite HR1. eauto.
  - destruct (Rule.matches r0 st sur) eqn:Hm.
    + exists 0%nat, r0. repeat split; [lia|].
      intros [? _]%Forall_cons. congruence.
    + destruct IH as (k & r & Hk & Hlk & Hf & Hall).
      exists (S k), r. repeat split; [lia|done|done|].
      intros [_ ?]%Forall_cons. eauto.
Qed.

Lemma Forall_not_fits l st sur :
  length sur = 4%nat → Forall four_slots l →
  Forall (λ r, Rule.matches r st sur = false) l ↔
  Forall (λ r, ¬ rule_fits r st sur) l.
Proof.
  intros Hsur Hl. rewrite !Forall_forall. split; intros H r Hr.
  - rewrite <- matches_fits by (try done; by eapply Forall_forall in Hl).
    rewrite H; done.
  - specialize (H r Hr).
    rewrite <- matches_fits in H by (try done; by eapply Forall_forall in Hl).
    by destruct (Rule.matches r st sur).
Qed.

End Matching.


(** C1. On a rule list whose patterns have four slots and a four-character
    surroundings string, [find_matching_rule] returns a rule exactly when
    that rule fits and no rule listed before it does; it returns [None]
    exactly when no rule of the list fits; and when two listed rules both
    fit, the rule returned stands no later than the earlier one, and is the
    earlier one when nothing before it fits. *)
Theorem find_matching_rule_first (bot : Picobot.t) (st : Z) (sur : pystr) :
  length sur = 4%nat →
  Forall four_slots (Picobot.rules bot) →
  (∀ r, Picobot.find_matching_rule bot st sur = Some r ↔
        ∃ l1 l2, Picobot.rules bot = l1 ++ r :: l2 ∧ rule_fits r st sur ∧
                 Forall (λ r', ¬ rule_fits r' st sur) l1) ∧
  (Picobot.find_matching_rule bot st sur = None ↔
   Forall (λ r, ¬ rule_fits r st sur) (Picobot.rules bot)) ∧
  (∀ l1 R1 l2 R2 l3,
     Picobot.rules bot = l1 ++ R1 :: l2 ++ R2 :: l3 →
     rule_fits R1 st sur → rule_fits R2 st sur →
     ∃ k r, (k ≤ length l1)%nat ∧ Picobot.rules bot !! k = Some r ∧
            Picobot.find_matching_rule bot st sur = Some r ∧
            (Forall (λ r', ¬ rule_fits r' st sur) l1 → r = R1)).
Proof.
  intros Hsur Hall. unfold Picobot.find_matching_rule.
  split; [|split].
  - intros r. rewrite first_match_Some.
    split; intros (l1 & l2 & E & Hr & Hl); exists l1, l2;
      rewrite E in Hall;
      apply Forall_app in Hall as [H1 [H2 _]%Forall_cons];
      (split; [done|]); (split; [by apply matches_fits|]);
      by apply (Forall_not_fits l1 st sur).
  - rewrite first_match_None. by apply Forall_not_fits.
  - intros l1 R1 l2 R2 l3 E H1 H2. rewrite E in Hall |- *.
    apply Forall_app in Hall as [Hl1 [HR1 _]%Forall_cons].
    destruct (first_match_before l1 R1 (l2 ++ R2 :: l3) st sur)
      as (k & r & Hk & Hlk & Hf & Hfirst); [by apply matches_fits|].
    exists k, r. repeat split; try done.
    intros Hno. apply Hfirst. by apply Forall_not_fits.
Qed.

(** ** Rooms *)

Section RoomFacts.

(** What the constructor establishes: the recorded height is the number of
    rows and every row has the recorded width. *)
Definition room_wf (room : Room.t) : Prop :=
  Room.height room = Z.of_nat (length (Room.grid room)) ∧
  Forall (λ row, Z.of_nat (length row) = Room.width room) (Room.grid room).

Definition in_bounds (room : Room.t) (row col : Z) : Prop :=
  0 ≤ row < Room.height room ∧ 0 ≤ col < Room.width room.

(** The cell kind stored at a coordinate with non-negative components. *)
Definition stored (room : Room.t) (row col : Z) : option Cell :=
  r ← Room.grid room !! Z.to_nat row; r !! Z.to_nat col.

Lemma check_rows_Ok n i rows :
  Room.check_rows n i rows = Ok tt ↔ Forall (λ row, length row = n) rows.
Proof.
  revert i. induction rows as [|row rows IH]; intros i; simpl; [by split|].
  destruct (decide (length row ≠ n)) as [Hne|Heq%dec_stable].
  - split; [done|]. by intros [? _]%Forall_cons.
  - rewrite IH. split; [by constructor|]. by intros [_ ?]%Forall_cons.
Qed.

Lemma init_Ok g room :
  Room.init g = Ok room →
  room_wf room ∧ Room.grid room = g ∧
  0 < Room.height room ∧ 0 < Room.width room.
Proof.
  unfold Room.init. destruct g as [|[|c row0] g]; try done.
  destruct (Room.check_rows _ _ _) as [[]|] eqn:Hc; [|done].
  cbn. intros [= <-]. apply check_rows_Ok in Hc. cbn.
  repeat split; try lia.
  eapply Forall_impl; [exact Hc|]. cbn. intros row ->. lia.
Qed.

Lemma getitem_nonneg {A} (l : list A) (i : Z) :
  0 ≤ i →
  getitem l i = match l !! Z.to_nat i with
                | Some x => Ok x
                | None => Raise IndexError
                end.
Proof.
  intros Hi. unfold getitem.
  destruct (Z.ltb_spec i 0); [lia|]. destruct (Z.ltb_spec i 0); [lia|done].
Qed.

Lemma stored_in_bounds room row col :
  room_wf room → in_bounds room row col → is_Some (stored room row col).
Proof.
  intros [Hh Hw] [Hr Hc]. unfold stored.
  destruct (lookup_lt_is_Some_2 (Room.grid room) (Z.to_nat row)) as [r Hrow];
    [lia|].
  rewrite Hrow. cbn. apply lookup_lt_is_Some_2.
  eapply Forall_lookup in Hw; [|exact Hrow]. lia.
Qed.

Lemma is_wall_in_bounds room row col :
  in_bounds room row col →
  Room.is_wall room row col =
    match stored room row col with
    | Some c => Ok (bool_decide (c = WALL))
    | None => Raise IndexError
    end.
Proof.
  intros [Hr Hc]. unfold Room.is_wall, stored.
  destruct (Z.ltb_spec row 0); [lia|].
  destruct (Z.geb_spec row (Room.height room)); [lia|].
  destruct (Z.ltb_spec col 0); [lia|].
  destruct (Z.geb_spec col (Room.width room)); [lia|]. cbn.
  rewrite getitem_nonneg by lia.
  destruct (Room.grid room !! Z.to_nat row) as [r|]; cbn; [|done].
  rewrite getitem_nonneg by lia.
  by destruct (r !! Z.to_nat col).
Qed.

Lemma is_wall_out_of_bounds room row col :
  ¬ in_bounds room row col → Room.is_wall room row col = Ok true.
Proof.
  intros Hn. unfold Room.is_wall, in_bounds in *.
  destruct (Z.ltb_spec row 0); [done|].
  destruct (Z.geb_spec row (Room.height room)); [done|].
  destruct (Z.ltb_spec col 0); [done|].
  destruct (Z.geb_spec col (Room.width room)); [done|]. lia.
Qed.

#[local] Instance in_bounds_dec room row col : Decision (in_bounds room row col).
Proof. unfold in_bounds. apply _. Defined.

(** On a well-formed room [is_wall] never raises. *)
Lemma is_wall_total room row col :
  room_wf room → ∃ b, Room.is_wall room row col = Ok b.
Proof.
  intros Hwf. destruct (decide (in_bounds room row col)) as [Hb|Hb].
  - rewrite is_wall_in_bounds by done.
    destruct (stored_in_bounds room row col Hwf Hb) as [c ->]. eauto.
  - rewrite is_wall_out_of_bounds by done. eauto.
Qed.

Lemma is_wall_false room row col :
  Room.is_wall room row col = Ok false →
  in_bounds room row col ∧ stored room row col = Some EMPTY.
Proof.
  intros H. destruct (decide (in_bounds room row col)) as [Hb|Hb].
  - split; [done|]. rewrite is_wall_in_bounds in H by done.
    destruct (stored room row col) as [[]|]; by simplify_eq/=.
  - by rewrite is_wall_out_of_bounds in H.
Qed.

End RoomFacts.

(** C8. On a room built by the constructor [is_wall] always returns, and it
    returns true exactly when the coordinate lies outside
    [0 <= row < height], [0 <= col < width] or the cell stored there is
    [WALL]. *)
Theorem is_wall_spec (g : list (list Cell)) (room : Room.t) (row col : Z) :
  Room.init g = Ok room →
  ∃ b, Room.is_wall room row col = Ok b ∧
       (b = true ↔
        (row < 0 ∨ row >= Room.height room ∨
         col < 0 ∨ col >= Room.width room) ∨
        (0 ≤ row ∧ 0 ≤ col ∧ stored room row col = Some WALL)).
Proof.
  intros (Hwf & _)%init_Ok.
  destruct (decide (in_bounds room row col)) as [Hb|Hb].
  - rewrite is_wall_in_bounds by done.
    destruct (stored_in_bounds room row col Hwf Hb) as [c Hc]. rewrite Hc.
    eexists. split; [done|]. unfold in_bounds in Hb.
    rewrite bool_decide_eq_true. split.
    + intros ->. right. repeat split; lia.
    + intros [?|(_ & _ & ?)]; [lia|congruence].
  - rewrite is_wall_out_of_bounds by done. eexists. split; [done|].
    split; [|done]. intros _. left. unfold in_bounds in Hb. lia.
Qed.

(** ** The step engine *)

Section StepFacts.

(** The agent [bot'] is [bot] halted where it stands: nothing moved, the
    halt flag and reason are set and one record is appended whose
    [new_position] and [new_state] are the values before the step. *)
Definition halted_in_place (bot bot' : Picobot.t) (sur : pystr)
    (applied : option Rule.t) (reason : pystr) : Prop :=
  Picobot.room bot' = Picobot.room bot ∧
  Picobot.rules bot' = Picobot.rules bot ∧
  Picobot.position bot' = Picobot.position bot ∧
  Picobot.state bot' = Picobot.state bot ∧
  Picobot.visited bot' = Picobot.visited bot ∧
  Picobot._halted bot' = true ∧
  Picobot._halt_reason bot' = reason ∧
  Picobot.history bot' =
    Picobot.history bot ++
      [ {| SimulationStep.step_number :=
             Z.of_nat (length (Picobot.history bot));
           SimulationStep.position := Picobot.position bot;
           SimulationStep.state := Picobot.state bot;
           SimulationStep.surroundings := sur;
           SimulationStep.rule_applied := applied;
           SimulationStep.new_position := Picobot.position bot;
           SimulationStep.new_state := Picobot.state bot |} ].

(** The letter of a direction when there is a wall, ['x'] otherwise. *)
Definition slot (letter : string) (w : bool) : pystr :=
  if w then lit letter else lit "x".

Lemma get_surroundings_Ok bot sur :
  Picobot.get_surroundings bot = Ok sur ↔
  ∃ wn we ww ws,
    Room.is_wall (Picobot.room bot)
      ((Picobot.position bot).1 + -1) ((Picobot.position bot).2 + 0) = Ok wn ∧
    Room.is_wall (Picobot.room bot)
      ((Picobot.position bot).1 + 0) ((Picobot.position bot).2 + 1) = Ok we ∧
    Room.is_wall (Picobot.room bot)
      ((Picobot.position bot).1 + 0) ((Picobot.position bot).2 + -1) = Ok ww ∧
    Room.is_wall (Picobot.room bot)
      ((Picobot.position bot).1 + 1) ((Picobot.position bot).2 + 0) = Ok ws ∧
    sur = slot "N" wn ++ slot "E" we ++ slot "W" ww ++ slot "S" ws.
Proof.
  unfold Picobot.get_surroundings, DIRECTIONS.
  destruct (Picobot.position bot) as [row col].
  cbn [Picobot.surroundings_loop fst snd].
  change (dict_get MOVE_VECTORS (lit "N")) with (Ok (A:=Z * Z) (-1, 0)).
  change (dict_get MOVE_VECTORS (lit "E")) with (Ok (A:=Z * Z) (0, 1)).
  change (dict_get MOVE_VECTORS (lit "W")) with (Ok (A:=Z * Z) (0, -1)).
  change (dict_get MOVE_VECTORS (lit "S")) with (Ok (A:=Z * Z) (1, 0)).
  cbn.
  destruct (Room.is_wall _ (row + -1) (col + 0)) as [wn|]; cbn;
    [|split; [done|by intros (?&?&?&?&?&_)]].
  destruct (Room.is_wall _ (row + 0) (col + 1)) as [we|]; cbn;
    [|split; [done|by intros (?&?&?&?&_&?&_)]].
  destruct (Room.is_wall _ (row + 0) (col + -1)) as [ww|]; cbn;
    [|split; [done|by intros (?&?&?&?&_&_&?&_)]].
  destruct (Room.is_wall _ (row + 1) (col + 0)) as [ws|]; cbn;
    [|split; [done|by intros (?&?&?&?&_&_&_&?&_)]].
  split.
  - intros [= <-]. exists wn, we, ww, ws. by destruct wn, we, ww, ws.
  - intros (an & ae & aw & as' & ? & ? & ? & ? & ->). simplify_eq.
    by destruct an, ae, aw, as'.
Qed.

(** On a well-formed room the surroundings are always defined and have one
    character per direction. *)
Lemma get_surroundings_total bot :
  room_wf (Picobot.room bot) →
  ∃ sur, Picobot.get_surroundings bot = Ok sur ∧ length sur = 4%nat.
Proof.
  intros Hwf.
  destruct (is_wall_total (Picobot.room bot)
    ((Picobot.position bot).1 + -1) ((Picobot.position bot).2 + 0) Hwf) as [wn Hn].
  destruct (is_wall_total (Picobot.room bot)
    ((Picobot.position bot).1 + 0) ((Picobot.position bot).2 + 1) Hwf) as [we He].
  destruct (is_wall_total (Picobot.room bot)
    ((Picobot.position bot).1 + 0) ((Picobot.position bot).2 + -1) Hwf) as [ww Hw].
  destruct (is_wall_total (Picobot.room bot)
    ((Picobot.position bot).1 + 1) ((Picobot.position bot).2 + 0) Hwf) as [ws Hs].
  eexists. split.
  - apply get_surroundings_Ok. exists wn, we, ww, ws. eauto.
  - by destruct wn, we, ww, ws.
Qed.

Definition valid_direction (r : Rule.t) : Prop :=
  Rule.direction r ∈ [lit "N"; lit "E"; lit "W"; lit "S"; lit "X"].

Lemma move_vector_total r :
  valid_direction r → ∃ v, dict_get MOVE_VECTORS (Rule.direction r) = Ok v.
Proof.
  unfold valid_direction. rewrite !elem_of_cons, elem_of_nil.
  intros [->|[->|[->|[->|[->|[]]]]]]; eexists; reflexivity.
Qed.

Lemma first_match_elem rules st sur r :
  Picobot.first_match rules st sur = Some r → r ∈ rules.
Proof.
  intros (l1 & l2 & -> & _)%first_match_Some. set_solver.
Qed.

Lemma step_halted_lemma bot :
  Picobot._halted bot = true → Picobot.step bot = Ok (bot, false).
Proof. intros H. unfold Picobot.step. by rewrite H. Qed.

End StepFacts.

(** C10. A step of a halted agent returns [False] and leaves the agent as it
    was, history included. *)
Theorem step_halted_noop (bot : Picobot.t) :
  Picobot._halted bot = true →
  Picobot.step bot = Ok (bot, false).
Proof. apply step_halted_lemma. Qed.

(** C4. In a room built by the constructor, a step of an agent that is not
    halted observes a surroundings string of four characters; when no rule
    matches the current state and these surroundings the step returns
    [False] without raising, the agent is halted in place with the reason
    "No rule matches state S with surroundings P", and the record appended
    to the history keeps the position and state of before the step. *)
Theorem step_no_rule (g : list (list Cell)) (bot : Picobot.t) :
  Room.init g = Ok (Picobot.room bot) →
  Picobot._halted bot = false →
  ∃ sur, Picobot.get_surroundings bot = Ok sur ∧ length sur = 4%nat ∧
    (Forall (λ r, Rule.matches r (Picobot.state bot) sur = false)
       (Picobot.rules bot) →
     ∃ bot', Picobot.step bot = Ok (bot', false) ∧
       halted_in_place bot bot' sur None
         (lit "No rule matches state " ++ str_of_Z (Picobot.state bot)
            ++ lit " with surroundings " ++ sur)).
Proof.
  intros (Hwf & _)%init_Ok Hh.
  destruct (get_surroundings_total bot Hwf) as (sur & Hsur & Hlen).
  exists sur. split; [done|]. split; [done|].
  intros Hno%first_match_None.
  unfold Picobot.step. rewrite Hh, Hsur. cbn.
  unfold Picobot.find_matching_rule. rewrite Hno.
  eexists. split; [done|]. by repeat split.
Qed.

(** ** The enumeration of the empty cells *)

Section EmptyCellFacts.

(** The empty cells of a row from column [j] on, left to right. *)
Fixpoint row_cells (row_idx : Z) (j : nat) (row : list Cell) : list (Z * Z) :=
  match row with
  | [] => []
  | c :: row' =>
      (if decide (c = EMPTY) then [(row_idx, Z.of_nat j)] else [])
        ++ row_cells row_idx (S j) row'
  end.

(** The empty cells of the rows from row [i] on, top to bottom. *)
Fixpoint grid_cells (i : nat) (g : list (list Cell)) : list (Z * Z) :=
  match g with
  | [] => []
  | row :: g' => row_cells (Z.of_nat i) 0 row ++ grid_cells (S i) g'
  end.

(** Row-major order on coordinates. *)
Definition row_major_lt (p q : Z * Z) : Prop :=
  p.1 < q.1 ∨ (p.1 = q.1 ∧ p.2 < q.2).

Lemma elem_of_row_cells p row_idx j row :
  p ∈ row_cells row_idx j row ↔
  ∃ k, p = (row_idx, Z.of_nat (j + k)) ∧ row !! k = Some EMPTY.
Proof.
  revert j. induction row as [|c row IH]; intros j; simpl.
  - rewrite elem_of_nil. split; [done|]. by intros (k & _ & ?).
  - rewrite elem_of_app, IH. split.
    + intros [Hc|(k & -> & Hk)].
      * destruct (decide (c = EMPTY)) as [->|]; [|by apply elem_of_nil in Hc].
        apply list_elem_of_singleton in Hc as ->. exists 0%nat.
        split; [f_equal; lia|done].
      * exists (S k). split; [f_equal; lia|done].
    + intros ([|k] & -> & Hk); simplify_eq/=.
      * left. apply list_elem_of_singleton. f_equal; lia.
      * right. exists k. split; [f_equal; lia|done].
Qed.

Lemma elem_of_grid_cells p i g :
  p ∈ grid_cells i g ↔
  ∃ k c row, p = (Z.of_nat (i + k), Z.of_nat c) ∧ g !! k = Some row ∧
             row !! c = Some EMPTY.
Proof.
  revert i. induction g as [|row g IH]; intros i; simpl.
  - rewrite elem_of_nil. split; [done|]. by intros (k & ? & ? & _ & ? & _).
  - rewrite elem_of_app, IH, elem_of_row_cells. split.
    + intros [(c & -> & Hc)|(k & c & row' & -> & Hk & Hc)].
      * exists 0%nat, c, row. split; [f_equal; lia|done].
      * exists (S k), c, row'. split; [f_equal; lia|done].
    + intros ([|k] & c & row' & -> & Hk & Hc); simplify_eq/=.
      * left. exists c. split; [f_equal; lia|done].
      * right. exists k, c, row'. split; [f_equal; lia|done].
Qed.

Lemma elem_of_grid_cells_stored room p :
  p ∈ grid_cells 0 (Room.grid room) ↔
  0 ≤ p.1 ∧ 0 ≤ p.2 ∧ stored room p.1 p.2 = Some EMPTY.
Proof.
  rewrite elem_of_grid_cells. unfold stored. split.
  - intros (k & c & row & -> & Hk & Hc). cbn.
    rewrite !Nat2Z.id, Hk. cbn. split; [lia|]. split; [lia|done].
  - destruct p as [r c]. cbn. intros (Hr & Hc & Hs).
    destruct (Room.grid room !! Z.to_nat r) as [row|] eqn:Hrow; [|done].
    exists (Z.to_nat r), (Z.to_nat c), row.
    split; [f_equal; lia|done].
Qed.

Lemma row_cells_sorted row_idx j row :
  StronglySorted row_major_lt (row_cells row_idx j row).
Proof.
  revert j. induction row as [|c row IH]; intros j; simpl; [constructor|].
  apply StronglySorted_app_2; [|destruct (decide _); repeat constructor|done].
  intros p q Hp (k & -> & _)%elem_of_row_cells.
  destruct (decide (c = EMPTY)); [|by apply elem_of_nil in Hp].
  apply list_elem_of_singleton in Hp as ->. right. cbn. lia.
Qed.

Lemma grid_cells_sorted i g :
  StronglySorted row_major_lt (grid_cells i g).
Proof.
  revert i. induction g as [|row g IH]; intros i; simpl; [constructor|].
  apply StronglySorted_app_2; [|apply row_cells_sorted|done].
  intros p q (c & -> & _)%elem_of_row_cells
    (k & c' & row' & -> & _)%elem_of_grid_cells.
  left. cbn. lia.
Qed.

Lemma scan_cols_spec room row_idx r pre suf acc :
  0 ≤ row_idx →
  Room.grid room !! Z.to_nat row_idx = Some r →
  r = pre ++ suf →
  Room.scan_cols room row_idx
    (map Z.of_nat (seq (length pre) (length suf))) acc
  = Ok (acc ++ row_cells row_idx (length pre) suf).
Proof.
  intros Hr Hrow. revert pre acc.
  induction suf as [|c suf IH]; intros pre acc E; simpl.
  - by rewrite app_nil_r.
  - rewrite getitem_nonneg, Hrow by done. cbn.
    rewrite getitem_nonneg, Nat2Z.id by lia.
    assert (r !! length pre = Some c) as ->
      by (rewrite E; by apply list_lookup_middle).
    cbn. specialize (IH (pre ++ [c])). rewrite length_app in IH. cbn in IH.
    rewrite Nat.add_1_r in IH. rewrite IH.
    + destruct (decide (c = EMPTY)); [|done]. by rewrite <- app_assoc.
    + by rewrite <- app_assoc.
Qed.

Lemma scan_rows_spec room pre suf acc :
  Forall (λ row, Z.of_nat (length row) = Room.width room) (Room.grid room) →
  Room.grid room = pre ++ suf →
  Room.scan_rows room (map Z.of_nat (seq (length pre) (length suf))) acc
  = Ok (acc ++ grid_cells (length pre) suf).
Proof.
  intros Hw. revert pre acc.
  induction suf as [|row suf IH]; intros pre acc E; simpl.
  - by rewrite app_nil_r.
  - assert (Hrow : Room.grid room !! Z.to_nat (Z.of_nat (length pre))
                   = Some row).
    { rewrite Nat2Z.id, E. by apply list_lookup_middle. }
    assert (Hlen : Z.to_nat (Room.width room) = length row).
    { eapply Forall_lookup in Hw; [|exact Hrow]. cbn in Hw. lia. }
    unfold range. rewrite Hlen.
    rewrite (scan_cols_spec room _ row [] row) by (try done; lia). cbn.
    specialize (IH (pre ++ [row])). rewrite length_app in IH. cbn in IH.
    rewrite Nat.add_1_r in IH. rewrite IH.
    + by rewrite <- app_assoc.
    + by rewrite <- app_assoc.
Qed.

(** On a well-formed room [get_empty_cells] returns the empty cells in
    row-major order. *)
Lemma get_empty_cells_spec room :
  room_wf room →
  Room.get_empty_cells room = Ok (grid_cells 0 (Room.grid room)).
Proof.
  intros [Hh Hw]. unfold Room.get_empty_cells, range.
  rewrite Hh, Nat2Z.id.
  exact (scan_rows_spec room [] (Room.grid room) [] Hw eq_refl).
Qed.

Lemma count_row count row_idx j row :
  fold_left
    (λ count cell, if decide (cell = EMPTY) then count + 1 else count)
    row count
  = count + Z.of_nat (length (row_cells row_idx j row)).
Proof.
  revert count j. induction row as [|c row IH]; intros count j; simpl; [lia|].
  rewrite (IH _ (S j)). destruct (decide (c = EMPTY)); cbn; lia.
Qed.

Lemma count_grid count i g :
  fold_left
    (λ count row,
       fold_left
         (λ count cell, if decide (cell = EMPTY) then count + 1 else count)
         row count)
    g count
  = count + Z.of_nat (length (grid_cells i g)).
Proof.
  revert count i. induction g as [|row g IH]; intros count i; simpl; [lia|].
  rewrite (IH _ (S i)), (count_row _ (Z.of_nat i) 0%nat), length_app. lia.
Qed.

(** [count_empty_cells] counts the cells that [get_empty_cells] lists. *)
Lemma count_empty_cells_length room :
  Room.count_empty_cells room
  = Z.of_nat (length (grid_cells 0 (Room.grid room))).
Proof. unfold Room.count_empty_cells. by rewrite (count_grid 0 0%nat). Qed.

Lemma grid_cells_open room p :
  room_wf room → p ∈ grid_cells 0 (Room.grid room) →
  Room.is_wall room p.1 p.2 = Ok false.
Proof.
  intros [Hh Hw] Hp. pose proof Hp as (k & c & row & -> & Hk & Hc)%elem_of_grid_cells.
  apply elem_of_grid_cells_stored in Hp as (_ & _ & Hs). cbn in *.
  rewrite is_wall_in_bounds, Hs; [done|].
  unfold in_bounds. apply lookup_lt_Some in Hk as Hk'.
  eapply Forall_lookup in Hw; [|exact Hk]. apply lookup_lt_Some in Hc. cbn in Hw.
  lia.
Qed.

End EmptyCellFacts.

(** ** Agents, steps and runs *)

Section RunFacts.

(** The rule list an argument of the constructor stands for. *)
Definition rules_of (rules : RulesArg) : result (list Rule.t) :=
  match rules with
  | RulesText text => parse_rules text
  | RulesList rules => Ok rules
  end.

(** The agent the constructor builds at [p] with the rules [rl]. *)
Definition fresh (room : Room.t) (rl : list Rule.t) (p : Z * Z) : Picobot.t :=
  {| Picobot.room := room;
     Picobot.rules := rl;
     Picobot.position := p;
     Picobot.state := 0;
     Picobot.visited := {[ p ]};
     Picobot.history := [];
     Picobot._halted := false;
     Picobot._halt_reason := [] |}.

Definition on_open (room : Room.t) (p : Z * Z) : Prop :=
  Room.is_wall room p.1 p.2 = Ok false.

(** The agent stands on an open cell and has only visited open cells. *)
Definition stands_open (bot : Picobot.t) : Prop :=
  on_open (Picobot.room bot) (Picobot.position bot) ∧
  ∀ p, p ∈ Picobot.visited bot → on_open (Picobot.room bot) p.

Definition covered (bot : Picobot.t) : bool :=
  len_set (Picobot.visited bot) >=? Room.count_empty_cells (Picobot.room bot).

(** [n] calls of [step] in a row. *)
Fixpoint steps_from (n : nat) (bot : Picobot.t) : result Picobot.t :=
  match n with
  | O => Ok bot
  | S n' => r ← Picobot.step bot; steps_from n' r.1
  end.

Lemma init_Some room rules p bot :
  Picobot.init room rules (Some p) = Ok bot ↔
  ∃ rl, rules_of rules = Ok rl ∧ on_open room p ∧ bot = fresh room rl p.
Proof.
  unfold Picobot.init, on_open. fold (rules_of rules). destruct p as [row col].
  destruct (rules_of rules) as [rl|]; cbn; [|split; [done|by intros (?&?&_)]].
  destruct (Room.is_wall room row col) as [[]|]; cbn.
  - split; [done|]. by intros (? & _ & ? & _).
  - split.
    + intros [= <-]. eauto.
    + intros (? & [= <-] & _ & ->). done.
  - split; [done|]. by intros (? & _ & ? & _).
Qed.

Lemma init_None room rules bot :
  room_wf room →
  Picobot.init room rules None = Ok bot ↔
  ∃ rl p, rules_of rules = Ok rl ∧
          head (grid_cells 0 (Room.grid room)) = Some p ∧
          bot = fresh room rl p.
Proof.
  intros Hwf. unfold Picobot.init. fold (rules_of rules).
  rewrite get_empty_cells_spec by done.
  destruct (rules_of rules) as [rl|]; cbn; [|split; [done|by intros (?&?&?&_)]].
  destruct (grid_cells 0 (Room.grid room)) as [|p cells]; cbn.
  - split; [done|]. by intros (? & ? & _ & ? & _).
  - split.
    + intros [= <-]. eauto.
    + intros (? & ? & [= <-] & [= <-] & ->). done.
Qed.

Lemma init_stands_open room rules start bot :
  room_wf room → Picobot.init room rules start = Ok bot →
  Picobot.room bot = room ∧ Picobot.state bot = 0 ∧ stands_open bot.
Proof.
  intros Hwf Hinit.
  assert (∃ rl p, on_open room p ∧ bot = fresh room rl p)
    as (rl & p & Hp & ->).
  { destruct start as [p|].
    - apply init_Some in Hinit as (rl & _ & ? & ->). eauto.
    - apply init_None in Hinit as (rl & p & _ & Hhd & ->); [|done].
      exists rl, p. split; [|done]. apply grid_cells_open; [done|].
      destruct (grid_cells 0 _); simplify_eq/=. set_solver. }
  repeat split; try done. cbn. intros q ->%elem_of_singleton. done.
Qed.

(** The result of a step of an agent that is not halted, case by case. *)
Lemma step_running bot :
  Picobot._halted bot = false →
  Picobot.step bot =
    (surroundings ← Picobot.get_surroundings bot;
     match Picobot.first_match (Picobot.rules bot) (Picobot.state bot)
             surroundings with
     | None =>
         Ok ({| Picobot.room := Picobot.room bot;
                Picobot.rules := Picobot.rules bot;
                Picobot.position := Picobot.position bot;
                Picobot.state := Picobot.state bot;
                Picobot.visited := Picobot.visited bot;
                Picobot.history := Picobot.history bot ++
                  [ SimulationStep.mk (Z.of_nat (length (Picobot.history bot)))
                      (Picobot.position bot) (Picobot.state bot) surroundings
                      None (Picobot.position bot) (Picobot.state bot) ];
                Picobot._halted := true;
                Picobot._halt_reason :=
                  Picobot.no_rule_reason (Picobot.state bot) surroundings |},
             false)
     | Some rule =>
         vec ← dict_get MOVE_VECTORS (Rule.direction rule);
         w ← Room.is_wall (Picobot.room bot)
               ((Picobot.position bot).1 + vec.1)
               ((Picobot.position bot).2 + vec.2);
         if (w : bool) then
           Ok ({| Picobot.room := Picobot.room bot;
                  Picobot.rules := Picobot.rules bot;
                  Picobot.position := Picobot.position bot;
                  Picobot.state := Picobot.state bot;
                  Picobot.visited := Picobot.visited bot;
                  Picobot.history := Picobot.history bot ++
                    [ SimulationStep.mk
                        (Z.of_nat (length (Picobot.history bot)))
                        (Picobot.position bot) (Picobot.state bot)
                        surroundings (Some rule)
                        (Picobot.position bot) (Picobot.state bot) ];
                  Picobot._halted := true;
                  Picobot._halt_reason :=
                    Picobot.wall_reason rule
                      ((Picobot.position bot).1 + vec.1)
                      ((Picobot.position bot).2 + vec.2) |},
               false)
         else
           Ok ({| Picobot.room := Picobot.room bot;
                  Picobot.rules := Picobot.rules bot;
                  Picobot.position :=
                    ((Picobot.position bot).1 + vec.1,
                     (Picobot.position bot).2 + vec.2);
                  Picobot.state := Rule.new_state rule;
                  Picobot.visited := Picobot.visited bot ∪
                    {[ ((Picobot.position bot).1 + vec.1,
                        (Picobot.position bot).2 + vec.2) ]};
                  Picobot.history := Picobot.history bot ++
                    [ SimulationStep.mk
                        (Z.of_nat (length (Picobot.history bot)))
                        (Picobot.position bot) (Picobot.state bot)
                        surroundings (Some rule)
                        ((Picobot.position bot).1 + vec.1,
                         (Picobot.position bot).2 + vec.2)
                        (Rule.new_state rule) ];
                  Picobot._halted := false;
                  Picobot._halt_reason := Picobot._halt_reason bot |},
               true)
     end).
Proof.
  intros Hh. unfold Picobot.step, Picobot.find_matching_rule. rewrite Hh.
  destruct (Picobot.get_surroundings bot) as [sur|]; rsimpl; [|done].
  destruct (Picobot.first_match _ _ _) as [rule|]; [|done].
  destruct (dict_get MOVE_VECTORS (Rule.direction rule)) as [[dr dc]|];
    rsimpl; [|done].
  by destruct (Room.is_wall _ _ _) as [[]|].
Qed.

(** Facts that hold after any step. *)
Lemma step_frame bot bot' ok :
  Picobot.step bot = Ok (bot', ok) →
  Picobot.room bot' = Picobot.room bot ∧
  Picobot.rules bot' = Picobot.rules bot ∧
  Picobot.visited bot ⊆ Picobot.visited bot' ∧
  (ok = false → Picobot._halted bot' = true) ∧
  (stands_open bot → stands_open bot').
Proof.
  destruct (Picobot._halted bot) eqn:Hh.
  - rewrite step_halted_lemma by done. intros [= <- <-]. by split_and!.
  - rewrite step_running by done.
    destruct (Picobot.get_surroundings bot) as [sur|]; rsimpl; [|done].
    destruct (Picobot.first_match _ _ _) as [rule|].
    2:{ intros [= <- <-]. by split_and!. }
    destruct (dict_get MOVE_VECTORS (Rule.direction rule)) as [[dr dc]|];
      rsimpl; [|done].
    destruct (Room.is_wall _ _ _) as [[]|] eqn:Hw; rsimpl; [| |done].
    + intros [= <- <-]. by split_and!.
    + intros [= <- <-]. cbn. split_and!; try done; [set_solver|].
      intros [_ Hv]. split; [done|]. cbn.
      intros p [Hp| ->%elem_of_singleton]%elem_of_union; [|done].
      by apply Hv.
Qed.

Lemma step_total bot :
  room_wf (Picobot.room bot) →
  Forall valid_direction (Picobot.rules bot) →
  ∃ bot' ok, Picobot.step bot = Ok (bot', ok).
Proof.
  intros Hwf Hdir. destruct (Picobot._halted bot) eqn:Hh.
  - rewrite step_halted_lemma by done. eauto.
  - rewrite step_running by done.
    destruct (get_surroundings_total bot Hwf) as (sur & -> & _). rsimpl.
    destruct (Picobot.first_match _ _ _) as [rule|] eqn:Hf; [|eauto].
    destruct (move_vector_total rule) as [vec ->].
    { eapply Forall_forall; [exact Hdir|]. by eapply first_match_elem. }
    rsimpl.
    destruct (is_wall_total (Picobot.room bot)
      ((Picobot.position bot).1 + vec.1) ((Picobot.position bot).2 + vec.2) Hwf)
      as [[] ->]; rsimpl; eauto.
Qed.

Lemma steps_from_frame n bot bot' :
  steps_from n bot = Ok bot' →
  Picobot.room bot' = Picobot.room bot ∧
  Picobot.rules bot' = Picobot.rules bot ∧
  Picobot.visited bot ⊆ Picobot.visited bot' ∧
  (stands_open bot → stands_open bot').
Proof.
  revert bot. induction n as [|n IH]; intros bot; simpl.
  - intros [= <-]. by split_and!.
  - destruct (Picobot.step bot) as [[b1 ok]|] eqn:Hs; rsimpl; [|done].
    intros Hn. apply IH in Hn as (Hr & Hl & Hv & Ho).
    apply step_frame in Hs as (Hr1 & Hl1 & Hv1 & _ & Ho1).
    split_and!; [congruence|congruence|by etrans|eauto].
Qed.

Lemma steps_from_S n bot bot' :
  steps_from (S n) bot = Ok bot' ↔
  ∃ b ok, steps_from n bot = Ok b ∧ Picobot.step b = Ok (bot', ok).
Proof.
  revert bot. induction n as [|n IH]; intros bot.
  - simpl. destruct (Picobot.step bot) as [[b1 ok]|] eqn:Hs; rsimpl.
    + split.
      * intros [= <-]. exists bot, ok. done.
      * intros (b & ok' & [= <-] & Hb). congruence.
    + split; [done|]. intros (b & ok' & [= <-] & Hb). congruence.
  - change (steps_from (S (S n)) bot)
      with (r ← Picobot.step bot; steps_from (S n) r.1).
    change (steps_from (S n) bot)
      with (r ← Picobot.step bot; steps_from n r.1).
    destruct (Picobot.step bot) as [[b1 ok]|]; rsimpl.
    + apply IH.
    + split; [done|]. by intros (b & ok' & ? & _).
Qed.

(** What the loop of [run] does over the values [k, k+1, ..., k+n-1] of
    its variable: it makes some number [m] of steps, at most [n]; every one
    of them starts from a state in which the coverage test of the loop
    fails; and it stops short of [n] only on coverage or on a step that
    returned [False]. *)
Lemma run_loop_spec bot total stop k n k0 bot' taken :
  Picobot.run_loop bot total stop (map Z.of_nat (seq k n)) k0
    = Ok (bot', taken) →
  ∃ m, (m ≤ n)%nat ∧
       taken = (if decide (m = 0%nat) then k0 else Z.of_nat (k + m)) ∧
       steps_from m bot = Ok bot' ∧
       (∀ j bj, (j < m)%nat → steps_from j bot = Ok bj →
          stop && (len_set (Picobot.visited bj) >=? total) = false) ∧
       ((m < n)%nat →
          stop && (len_set (Picobot.visited bot') >=? total) = true ∨
          Picobot._halted bot' = true).
Proof.
  revert bot k k0. induction n as [|n IH]; intros bot k k0; simpl.
  - intros [= <- <-]. exists 0%nat.
    split_and!; [lia|done|done|intros j bj Hj; lia|intros Hj; lia].
  - destruct (stop && (len_set (Picobot.visited bot) >=? total)) eqn:Hc.
    + intros [= <- <-]. exists 0%nat.
      split_and!; [lia|done|done|intros j bj Hj; lia|eauto].
    + destruct (Picobot.step bot) as [[b1 ok]|] eqn:Hs; rsimpl; [|done].
      destruct ok; cbn [negb].
      * intros (m & Hm & -> & Hsteps & Hbefore & Hshort)%IH.
        exists (S m). split_and!.
        -- lia.
        -- destruct (decide (S m = 0%nat)); [lia|].
           destruct (decide (m = 0%nat)); lia.
        -- simpl. by rewrite Hs.
        -- intros [|j] bj Hj; simpl.
           ++ by intros [= <-].
           ++ rewrite Hs. rsimpl. apply Hbefore. lia.
        -- intros ?. apply Hshort. lia.
      * intros [= <- <-]. exists 1%nat. split_and!.
        -- lia.
        -- rewrite decide_False by lia. lia.
        -- simpl. by rewrite Hs.
        -- intros [|j] bj Hj; [|lia]. simpl. by intros [= <-].
        -- intros _. right. by eapply step_frame in Hs as (_&_&_&Hh&_); eauto.
Qed.

Lemma run_loop_total bot total stop steps k0 :
  room_wf (Picobot.room bot) →
  Forall valid_direction (Picobot.rules bot) →
  ∃ r, Picobot.run_loop bot total stop steps k0 = Ok r.
Proof.
  revert bot k0. induction steps as [|s steps IH]; intros bot k0 Hwf Hdir;
    simpl; [eauto|].
  destruct (stop && _); [eauto|].
  destruct (step_total bot Hwf Hdir) as (b1 & ok & Hs). rewrite Hs. rsimpl.
  destruct ok; cbn [negb]; [|eauto].
  apply step_frame in Hs as (Hr & Hl & _). apply IH; congruence.
Qed.

(** The number of cells an agent on an open cell of a well-formed room can
    count is positive. *)
Lemma count_pos room p :
  room_wf room → on_open room p → 0 < Room.count_empty_cells room.
Proof.
  intros Hwf [Hb Hs]%is_wall_false. rewrite count_empty_cells_length.
  assert (p ∈ grid_cells 0 (Room.grid room)) as Hin.
  { apply elem_of_grid_cells_stored. unfold in_bounds in Hb.
    split_and!; [lia|lia|done]. }
  destruct (grid_cells 0 (Room.grid room)); [by apply elem_of_nil in Hin|].
  cbn. lia.
Qed.

End RunFacts.

Section RunResults.

Lemma truediv_Ok a b q :
  truediv a b = Ok q ↔ b ≠ 0 ∧ q = (inject_Z a / inject_Z b)%Q.
Proof.
  unfold truediv. destruct (decide (b = 0)) as [->|Hb].
  - split; [done|]. by intros [? _].
  - split; [by intros [= <-]|]. by intros [_ ->].
Qed.

(** What a returned [run] says, in terms of the steps made. *)
Lemma run_Ok bot max_steps stop bot' res :
  Picobot.run bot max_steps stop = Ok (bot', res) →
  let total := Room.count_empty_cells (Picobot.room bot) in
  ∃ m : nat,
    (m ≤ Z.to_nat max_steps)%nat ∧
    steps_from m bot = Ok bot' ∧
    (∀ j bj, (j < m)%nat → steps_from j bot = Ok bj →
       stop && (len_set (Picobot.visited bj) >=? total) = false) ∧
    ((m < Z.to_nat max_steps)%nat →
       stop && (len_set (Picobot.visited bot') >=? total) = true ∨
       Picobot._halted bot' = true) ∧
    total ≠ 0 ∧
    res = {| RunResult.success := len_set (Picobot.visited bot') >=? total;
             RunResult.steps := Z.of_nat m;
             RunResult.coverage :=
               (inject_Z (100 * len_set (Picobot.visited bot'))
                  / inject_Z total)%Q;
             RunResult.visited := len_set (Picobot.visited bot');
             RunResult.total := total;
             RunResult.halted := Picobot._halted bot';
             RunResult.halt_reason := Picobot._halt_reason bot' |}.
Proof.
  unfold Picobot.run, range.
  destruct (Picobot.run_loop _ _ _ _ _) as [[b1 taken]|] eqn:Hloop; rsimpl;
    [|done].
  destruct (truediv _ _) as [q|] eqn:Hq; rsimpl; [|done].
  intros [= <- <-]. apply truediv_Ok in Hq as [Hne ->].
  apply run_loop_spec in Hloop as (m & Hm & -> & Hsteps & Hbefore & Hshort).
  exists m. split_and!; try done.
  f_equal. destruct (decide (m = 0%nat)) as [->|]; [done|]. by rewrite Nat.add_0_l.
Qed.

Lemma run_total bot max_steps stop :
  room_wf (Picobot.room bot) →
  Forall valid_direction (Picobot.rules bot) →
  0 < Room.count_empty_cells (Picobot.room bot) →
  ∃ bot' res, Picobot.run bot max_steps stop = Ok (bot', res).
Proof.
  intros Hwf Hdir Hpos. unfold Picobot.run.
  destruct (run_loop_total bot (Room.count_empty_cells (Picobot.room bot))
              stop (range max_steps) 0 Hwf Hdir) as [[b1 taken] ->].
  rsimpl. unfold truediv. rewrite decide_False by lia. rsimpl. eauto.
Qed.

(** An agent built by the constructor in a constructed room, with valid
    rule directions, has a room with an empty cell: its runs return. *)
Lemma constructed_run_returns g room rules start bot max_steps stop :
  Room.init g = Ok room →
  Picobot.init room rules start = Ok bot →
  Forall valid_direction (Picobot.rules bot) →
  0 < Room.count_empty_cells (Picobot.room bot) ∧
  ∃ bot' res, Picobot.run bot max_steps stop = Ok (bot', res).
Proof.
  intros (Hwf & _)%init_Ok Hinit Hdir.
  apply init_stands_open in Hinit as (Hroom & _ & Hopen & _); [|done].
  assert (0 < Room.count_empty_cells (Picobot.room bot)) as Hpos.
  { eapply count_pos; [by rewrite Hroom|done]. }
  split; [done|]. apply run_total; [by rewrite Hroom|done|done].
Qed.

End RunResults.

(** C3. In a room built by the constructor: when the rule matched by an
    agent that is not halted points at a wall cell or out of the grid, the
    step returns [False], the agent is halted in place with a reason that
    quotes the rule and the target cell, and the record appended keeps the
    position and state of before the step. Every cell visited after any
    number of steps, or at the end of any run, of an agent built by the
    constructor is an open cell of the grid. *)
Theorem step_into_wall (g : list (list Cell)) (room : Room.t) :
  Room.init g = Ok room →
  (∀ bot sur rule vec,
     Picobot.room bot = room →
     Picobot._halted bot = false →
     Picobot.get_surroundings bot = Ok sur →
     Picobot.find_matching_rule bot (Picobot.state bot) sur = Some rule →
     dict_get MOVE_VECTORS (Rule.direction rule) = Ok vec →
     Room.is_wall room ((Picobot.position bot).1 + vec.1)
       ((Picobot.position bot).2 + vec.2) = Ok true →
     ∃ bot', Picobot.step bot = Ok (bot', false) ∧
       halted_in_place bot bot' sur (Some rule)
         (lit "Rule '" ++ Rule.str rule
            ++ lit "' tried to move into wall at ("
            ++ str_of_Z ((Picobot.position bot).1 + vec.1) ++ lit ", "
            ++ str_of_Z ((Picobot.position bot).2 + vec.2) ++ lit ")")) ∧
  (∀ rules start bot0 n bot p,
     Picobot.init room rules start = Ok bot0 →
     steps_from n bot0 = Ok bot →
     p ∈ Picobot.visited bot →
     Room.is_wall room p.1 p.2 = Ok false) ∧
  (∀ rules start bot0 max_steps stop bot' res p,
     Picobot.init room rules start = Ok bot0 →
     Picobot.run bot0 max_steps stop = Ok (bot', res) →
     p ∈ Picobot.visited bot' →
     Room.is_wall room p.1 p.2 = Ok false).
Proof.
  intros (Hwf & _)%init_Ok.
  assert (Hinv : ∀ rules start bot0 n bot p,
     Picobot.init room rules start = Ok bot0 →
     steps_from n bot0 = Ok bot →
     p ∈ Picobot.visited bot →
     Room.is_wall room p.1 p.2 = Ok false).
  { intros rules start bot0 n bot p Hinit Hsteps Hp.
    apply init_stands_open in Hinit as (Hroom & _ & Hopen); [|done].
    apply steps_from_frame in Hsteps as (Hr & _ & _ & Hkeep).
    destruct (Hkeep Hopen) as [_ Hv]. specialize (Hv p Hp).
    unfold on_open in Hv. by rewrite Hr, Hroom in Hv. }
  split_and!; [|exact Hinv|].
  - intros bot sur rule vec <- Hh Hsur Hrule Hvec Hw.
    rewrite step_running, Hsur by done. rsimpl.
    unfold Picobot.find_matching_rule in Hrule. rewrite Hrule, Hvec. rsimpl.
    rewrite Hw. rsimpl. eexists. split; [done|]. by split_and!.
  - intros rules start bot0 max_steps stop bot' res p Hinit Hrun Hp.
    apply run_Ok in Hrun as (m & _ & Hsteps & _). eauto.
Qed.

(** C2. In a room built by the constructor, whenever [run] returns:
    ['success'] is true exactly when the visited cells are at least as many
    as the empty cells, whatever the halt flag, which is reported as it
    stands; the steps made are at most [max_steps] and the agent returned is
    the agent after that many steps; with [stop_on_full_coverage] every step
    made started from fewer visited cells than empty cells, so that an agent
    that already covers the room is returned unchanged with no step made;
    and the loop stops short of [max_steps] only on coverage or on a halt.
    With valid rule directions and a room with an empty cell, [run] does
    return. *)
Theorem run_success_coverage (g : list (list Cell)) (bot : Picobot.t)
    (max_steps : Z) (stop : bool) :
  Room.init g = Ok (Picobot.room bot) →
  let total := Room.count_empty_cells (Picobot.room bot) in
  (∀ bot' res,
     Picobot.run bot max_steps stop = Ok (bot', res) →
     (RunResult.success res = true ↔
      len_set (Picobot.visited bot') >= total) ∧
     RunResult.visited res = len_set (Picobot.visited bot') ∧
     RunResult.total res = total ∧
     RunResult.halted res = Picobot._halted bot' ∧
     0 ≤ RunResult.steps res ≤ Z.max 0 max_steps ∧
     steps_from (Z.to_nat (RunResult.steps res)) bot = Ok bot' ∧
     (stop = true →
      ∀ j bj, (j < Z.to_nat (RunResult.steps res))%nat →
        steps_from j bot = Ok bj →
        len_set (Picobot.visited bj) < total) ∧
     (stop = true → len_set (Picobot.visited bot) >= total →
      RunResult.steps res = 0 ∧ bot' = bot) ∧
     (RunResult.steps res < max_steps →
      (stop = true ∧ len_set (Picobot.visited bot') >= total) ∨
      Picobot._halted bot' = true)) ∧
  (Forall valid_direction (Picobot.rules bot) → 0 < total →
   ∃ bot' res, Picobot.run bot max_steps stop = Ok (bot', res)).
Proof.
  intros (Hwf & _)%init_Ok total. split; [|by apply run_total].
  intros bot' res
    (m & Hm & Hsteps & Hbefore & Hshort & Hne & ->)%run_Ok.
  fold total in Hbefore, Hshort, Hne |- *.
  cbn [RunResult.success RunResult.steps RunResult.visited RunResult.total
       RunResult.halted].
  rewrite Nat2Z.id. split_and!; try done; try lia.
  - intros -> j bj Hj Hbj. specialize (Hbefore j bj Hj Hbj).
    cbn [andb] in Hbefore. rewrite Z.geb_leb, Z.leb_gt in Hbefore. lia.
  - intros -> Hcov. destruct m as [|m]; [by simplify_eq/=|].
    specialize (Hbefore 0%nat bot ltac:(lia) eq_refl). cbn [andb] in Hbefore.
    rewrite Z.geb_leb, Z.leb_gt in Hbefore. lia.
  - intros Hlt. destruct Hshort as [Hc|Hh]; [lia| |by right].
    apply andb_true_iff in Hc as [-> Hc]. left. split; [done|].
    rewrite Z.geb_leb, Z.leb_le in Hc. lia.
Qed.

(** ** Coverage *)

Section Coverage.

(** With at least one empty cell, the coverage reported by [run] is the
    visited count over the empty count, as a percentage. *)
Lemma run_coverage bot max_steps stop bot' res :
  Picobot.run bot max_steps stop = Ok (bot', res) →
  RunResult.total res ≠ 0 ∧
  RunResult.coverage res
  = (inject_Z (100 * RunResult.visited res) / inject_Z (RunResult.total res))%Q.
Proof. by intros (m & _ & _ & _ & _ & Hne & ->)%run_Ok. Qed.

(** Without empty cells [run] never returns. *)
Lemma run_no_empty_cells bot max_steps stop :
  Room.count_empty_cells (Picobot.room bot) = 0 →
  ∀ r, Picobot.run bot max_steps stop ≠ Ok r.
Proof. intros H0 [bot' res] (m & _ & _ & _ & _ & Hne & _)%run_Ok. done. Qed.

(** [coverage_percent] returns for every agent, and with no empty cell it
    returns 100. *)
Lemma coverage_percent_no_empty_cells bot :
  Room.count_empty_cells (Picobot.room bot) = 0 →
  Picobot.coverage_percent bot = Ok (inject_Z 100).
Proof. intros H0. unfold Picobot.coverage_percent. by rewrite H0. Qed.

(** A room of a single wall cell. *)
Definition walled_room : Room.t :=
  {| Room.grid := [[WALL]]; Room.height := 1; Room.width := 1 |}.

(** The agents the code can hold: built by the constructor on a room
    accepted by [Room], then changed by [step], [run] and [reset]. *)
Inductive reachable : Picobot.t → Prop :=
| reach_init g room rules start bot :
    Room.init g = Ok room →
    Picobot.init room rules start = Ok bot →
    reachable bot
| reach_step bot bot' ok :
    reachable bot → Picobot.step bot = Ok (bot', ok) → reachable bot'
| reach_run bot max_steps stop bot' res :
    reachable bot →
    Picobot.run bot max_steps stop = Ok (bot', res) →
    reachable bot'
| reach_reset bot start bot' :
    reachable bot → Picobot.reset bot start = Ok bot' → reachable bot'.

Lemma reset_room bot start bot' :
  Picobot.reset bot start = Ok bot' → Picobot.room bot' = Picobot.room bot.
Proof.
  unfold Picobot.reset. destruct start as [p|]; rsimpl.
  - by intros [= <-].
  - destruct (Room.get_empty_cells _) as [[|p cells]|]; rsimpl; try done.
    by intros [= <-].
Qed.

(** The room of a reachable agent is well formed and has an empty cell. *)
Lemma reachable_room bot :
  reachable bot →
  room_wf (Picobot.room bot) ∧ 0 < Room.count_empty_cells (Picobot.room bot).
Proof.
  induction 1 as [g room rules start bot Hroom Hinit
                 |bot bot' ok _ IH Hstep
                 |bot max_steps stop bot' res _ IH Hrun
                 |bot start bot' _ IH Hreset].
  - apply init_Ok in Hroom as (Hwf & _).
    apply init_stands_open in Hinit as (Hr & _ & Hopen & _); [|done].
    rewrite Hr in *. split; [done|]. by eapply count_pos.
  - apply step_frame in Hstep as (-> & _). done.
  - apply run_Ok in Hrun as (m & _ & (-> & _)%steps_from_frame & _). done.
  - apply reset_room in Hreset as ->. done.
Qed.

Lemma dict_get_Raise {V} (d : list (pystr * V)) key e :
  dict_get d key = Raise e → e = KeyError key.
Proof.
  induction d as [|[k v] d IH]; simpl; [by intros [= <-]|].
  by destruct (decide (k = key)).
Qed.

(** On a well-formed room a step raises only for a rule whose direction
    is not in the table of moves. *)
Lemma step_Raise bot e :
  room_wf (Picobot.room bot) →
  Picobot.step bot = Raise e → ∃ key, e = KeyError key.
Proof.
  intros Hwf. destruct (Picobot._halted bot) eqn:Hh.
  { by rewrite step_halted_lemma. }
  rewrite step_running by done.
  destruct (get_surroundings_total bot Hwf) as (sur & -> & _). rsimpl.
  destruct (Picobot.first_match _ _ _) as [rule|]; [|done].
  destruct (dict_get MOVE_VECTORS (Rule.direction rule)) as [vec|e'] eqn:Hv;
    rsimpl.
  - destruct (is_wall_total (Picobot.room bot)
      ((Picobot.position bot).1 + vec.1) ((Picobot.position bot).2 + vec.2) Hwf)
      as [[] ->]; by rsimpl.
  - intros [= <-]. apply dict_get_Raise in Hv. eauto.
Qed.

Lemma run_loop_Raise bot total stop steps k0 e :
  room_wf (Picobot.room bot) →
  Picobot.run_loop bot total stop steps k0 = Raise e →
  ∃ key, e = KeyError key.
Proof.
  revert bot k0. induction steps as [|s steps IH]; intros bot k0 Hwf; simpl;
    [done|].
  destruct (stop && _); [done|].
  destruct (Picobot.step bot) as [[b1 ok]|e'] eqn:Hs; rsimpl.
  - destruct ok; cbn [negb]; [|done].
    apply step_frame in Hs as (Hr & _). apply IH. by rewrite Hr.
  - intros [= <-]. by eapply step_Raise.
Qed.

End Coverage.

(** C6. For every agent the code can hold, built by the constructor on a
    room accepted by [Room] and then changed by [step], [run] and [reset],
    the room has an empty cell, and a [run] returns as ['coverage'] the
    visited cells over the empty cells of the room, as a percentage:
    [100 * visited / total], which is 100 times the fraction and the value
    [coverage_percent] reports afterwards. The division of [run] never
    fails: the only error of a run is the [KeyError] of a step whose rule
    has a direction outside the table of moves, and with rules of valid
    directions every run returns. A room without an empty cell never
    reaches [run], the constructor refuses it; there the coverage is
    defined by [coverage_percent], which returns 100 and no error. *)
Theorem run_coverage_ratio (bot : Picobot.t) (max_steps : Z) (stop : bool) :
  reachable bot →
  0 < Room.count_empty_cells (Picobot.room bot) ∧
  (∀ bot' res,
     Picobot.run bot max_steps stop = Ok (bot', res) →
     RunResult.visited res = len_set (Picobot.visited bot') ∧
     RunResult.total res = Room.count_empty_cells (Picobot.room bot) ∧
     RunResult.coverage res
     = (inject_Z (100 * RunResult.visited res)
        / inject_Z (RunResult.total res))%Q ∧
     (RunResult.coverage res
      == inject_Z 100 * (inject_Z (RunResult.visited res)
                         / inject_Z (RunResult.total res)))%Q ∧
     Picobot.coverage_percent bot' = Ok (RunResult.coverage res)) ∧
  (∀ e, Picobot.run bot max_steps stop = Raise e → ∃ key, e = KeyError key) ∧
  (Forall valid_direction (Picobot.rules bot) →
   ∃ bot' res, Picobot.run bot max_steps stop = Ok (bot', res)) ∧
  (∀ g room rules start,
     Room.init g = Ok room → Room.count_empty_cells room = 0 →
     ∃ e, Picobot.init room rules start = Raise e) ∧
  (∀ other,
     Room.count_empty_cells (Picobot.room other) = 0 →
     Picobot.coverage_percent other = Ok (inject_Z 100)).
Proof.
  intros [Hwf Hpos]%reachable_room. split_and!.
  - done.
  - intros bot' res Hrun.
    apply run_Ok in Hrun as (m & _ & Hsteps & _ & _ & Hne & ->).
    apply steps_from_frame in Hsteps as (Hroom & _).
    cbn [RunResult.visited RunResult.total RunResult.coverage].
    split_and!; try done.
    + rewrite inject_Z_mult. unfold Qdiv. ring.
    + unfold Picobot.coverage_percent. rewrite Hroom.
      destruct (decide (Room.count_empty_cells (Picobot.room bot) = 0));
        [done|].
      unfold truediv.
      by destruct (decide (Room.count_empty_cells (Picobot.room bot) = 0)).
  - intros e. unfold Picobot.run.
    destruct (Picobot.run_loop _ _ _ _ _) as [[b1 taken]|e'] eqn:Hloop;
      rsimpl.
    + unfold truediv.
      destruct (decide (Room.count_empty_cells (Picobot.room bot) = 0));
        [lia|done].
    + intros [= <-]. by eapply run_loop_Raise.
  - intros Hdir. by apply run_total.
  - intros g room rules start (Hwfr & _)%init_Ok H0.
    destruct (Picobot.init room rules start) as [b|e] eqn:Hinit; [|eauto].
    apply init_stands_open in Hinit as (Hr & _ & Hopen & _); [|done].
    rewrite Hr in Hopen. pose proof (count_pos _ _ Hwfr Hopen). lia.
  - apply coverage_percent_no_empty_cells.
Qed.

(** ** The exhaustive tester *)

Section TesterFacts.

Definition passed (r : RunResult.t) : Prop := RunResult.success r = true.

#[local] Instance passed_dec r : Decision (passed r).
Proof. unfold passed. apply _. Defined.

(** The run the tester makes from the cell [pos]. *)
Definition run_from (room : Room.t) (rules : RulesArg) (max_steps : Z)
    (pos : Z * Z) (res : RunResult.t) : Prop :=
  ∃ rl bot',
    rules_of rules = Ok rl ∧
    Picobot.init room rules (Some pos) = Ok (fresh room rl pos) ∧
    Picobot.run (fresh room rl pos) max_steps true = Ok (bot', res).

Lemma tester_loop_spec room rules max_steps cells failures steps_list n out :
  Tester.loop room rules max_steps cells failures steps_list n = Ok out →
  ∃ runs,
    Forall2 (run_from room rules max_steps) cells runs ∧
    out = (failures ++ filter (λ pr, ¬ passed pr.2) (zip cells runs),
           steps_list ++ map RunResult.steps (filter passed runs),
           n + Z.of_nat (length (filter passed runs))).
Proof.
  revert failures steps_list n.
  induction cells as [|pos cells IH]; intros failures steps_list n; simpl.
  - intros [= <-]. exists []. split; [constructor|].
    cbn. by rewrite !app_nil_r, Z.add_0_r.
  - destruct (Picobot.init room rules (Some pos)) as [bot|] eqn:Hinit;
      rsimpl; [|done].
    destruct (Picobot.run bot max_steps true) as [[bot' res]|] eqn:Hrun;
      rsimpl; [|done].
    pose proof Hinit as (rl & Hrl & _ & ->)%init_Some.
    assert (Hfrom : run_from room rules max_steps pos res)
      by (exists rl, bot'; done).
    destruct (RunResult.success res) eqn:Hs.
    + intros (runs & Hruns & ->)%IH. exists (res :: runs).
      split; [by constructor|]. cbn [zip zip_with].
      rewrite filter_cons_False by (cbn; unfold passed; by rewrite Hs; auto).
      rewrite (filter_cons_True passed) by done. cbn [map length].
      rewrite <- !app_assoc. cbn [app]. f_equal. lia.
    + intros (runs & Hruns & ->)%IH. exists (res :: runs).
      split; [by constructor|]. cbn [zip zip_with].
      rewrite filter_cons_True by (cbn; unfold passed; by rewrite Hs).
      rewrite (filter_cons_False passed) by (unfold passed; by rewrite Hs).
      by rewrite <- !app_assoc.
Qed.

Lemma tester_loop_total room rules rl max_steps cells failures steps_list n :
  room_wf room → rules_of rules = Ok rl → Forall valid_direction rl →
  Forall (on_open room) cells →
  ∃ out, Tester.loop room rules max_steps cells failures steps_list n = Ok out.
Proof.
  intros Hwf Hrl Hdir Hcells. revert failures steps_list n.
  induction Hcells as [|pos cells Hpos Hcells IH];
    intros failures steps_list n; simpl; [eauto|].
  assert (Picobot.init room rules (Some pos) = Ok (fresh room rl pos)) as ->
    by (apply init_Some; eauto).
  rsimpl.
  destruct (run_total (fresh room rl pos) max_steps true) as (b & res & ->);
    [done|done|by eapply count_pos|].
  rsimpl. destruct (RunResult.success res); apply IH.
Qed.

Lemma filter_not_passed_nil (cells : list (Z * Z)) runs :
  length cells = length runs →
  filter (λ pr : (Z * Z) * RunResult.t, ¬ passed pr.2) (zip cells runs) = [] ↔
  Forall passed runs.
Proof.
  revert runs. induction cells as [|c cells IH]; intros [|r runs] Hlen;
    simplify_eq/=; [by split|].
  destruct (decide (passed r)) as [Hp|Hp].
  - rewrite filter_cons_False by (cbn; auto). rewrite IH by done.
    split; [by constructor|]. by intros [_ ?]%Forall_cons.
  - rewrite filter_cons_True by done. split; [done|].
    by intros [? _]%Forall_cons.
Qed.

(** A fresh agent in a room whose only empty cell it stands on: [run]
    makes no step and reports success. *)
Lemma run_single_cell room rl p max_steps :
  Room.count_empty_cells room = 1 →
  ∃ res, Picobot.run (fresh room rl p) max_steps true
         = Ok (fresh room rl p, res) ∧
         RunResult.success res = true ∧ RunResult.steps res = 0.
Proof.
  intros Hone. unfold Picobot.run. cbn [fresh Picobot.room]. rewrite Hone.
  assert (Hlen : len_set (Picobot.visited (fresh room rl p)) = 1).
  { unfold len_set. cbn. by rewrite size_singleton. }
  assert (Picobot.run_loop (fresh room rl p) 1 true (range max_steps) 0
          = Ok (fresh room rl p, 0)) as ->.
  { destruct (range max_steps); [done|]. cbn [Picobot.run_loop].
    by rewrite Hlen. }
  rsimpl. rewrite Hlen. eexists. split; [reflexivity|]. done.
Qed.

End TesterFacts.

(** C7. In a room built by the constructor, whenever
    [test_rules_all_positions] returns: the start cells are the empty cells
    of the grid in row-major order; from each of them, in that order, a
    fresh agent in state 0 is run with [stop_on_full_coverage]; the overall
    ['success'] is true exactly when every one of these runs succeeds; and
    the counts and the failure list are those of these runs. With valid
    rule directions the tester does return. On a room with exactly one empty
    cell it returns success with 1 position tested and 1 passed, for any
    rule list. *)
Theorem test_rules_all_positions_spec (g : list (list Cell)) (room : Room.t)
    (rules : RulesArg) (max_steps : Z) :
  Room.init g = Ok room →
  (∀ res,
     test_rules_all_positions room rules max_steps = Ok res →
     ∃ cells runs,
       Room.get_empty_cells room = Ok cells ∧
       StronglySorted row_major_lt cells ∧
       (∀ p, p ∈ cells ↔
             0 ≤ p.1 ∧ 0 ≤ p.2 ∧ stored room p.1 p.2 = Some EMPTY) ∧
       Forall2 (run_from room rules max_steps) cells runs ∧
       (TestResult.success res = true ↔ Forall passed runs) ∧
       TestResult.positions_tested res = Z.of_nat (length cells) ∧
       TestResult.positions_passed res
       = Z.of_nat (length (filter passed runs)) ∧
       TestResult.failures res
       = filter (λ pr, ¬ passed pr.2) (zip cells runs)) ∧
  (∀ rl, rules_of rules = Ok rl → Forall valid_direction rl →
     ∃ res, test_rules_all_positions room rules max_steps = Ok res) ∧
  (∀ rl p, rules_of rules = Ok rl →
     Room.get_empty_cells room = Ok [p] →
     ∃ res, test_rules_all_positions room rules max_steps = Ok res ∧
            TestResult.success res = true ∧
            TestResult.positions_tested res = 1 ∧
            TestResult.positions_passed res = 1 ∧
            TestResult.failures res = []).
Proof.
  intros (Hwf & _)%init_Ok. unfold test_rules_all_positions.
  rewrite get_empty_cells_spec by done. rsimpl. split_and!.
  - intros res.
    destruct (Tester.loop _ _ _ _ _ _ _) as [out|] eqn:Hloop; rsimpl; [|done].
    apply tester_loop_spec in Hloop as (runs & Hruns & ->).
    cbn [app]. rewrite Z.add_0_l.
    destruct (map RunResult.steps (filter passed runs)) as [|x sl];
      [|unfold truediv; rewrite decide_False by (cbn [length]; lia)];
      rsimpl.
    all: intros [= <-]; exists (grid_cells 0 (Room.grid room)), runs;
      cbn [TestResult.success TestResult.positions_tested
           TestResult.positions_passed TestResult.failures];
      split_and!; try done;
      [ apply grid_cells_sorted
      | apply elem_of_grid_cells_stored
      | rewrite bool_decide_eq_true, length_zero_iff_nil;
        apply filter_not_passed_nil; by eapply Forall2_length ].
  - intros rl Hrl Hdir.
    destruct (tester_loop_total room rules rl max_steps
                (grid_cells 0 (Room.grid room)) [] [] 0) as [[[f s] n] ->];
      try done.
    { apply Forall_forall. intros p Hp. by apply grid_cells_open. }
    rsimpl. destruct s as [|x s]; rsimpl; [eauto|].
    unfold truediv. rewrite decide_False by (cbn [length]; lia). rsimpl. eauto.
  - intros rl p Hrl [= Hcells].
    assert (Hone : Room.count_empty_cells room = 1)
      by (by rewrite count_empty_cells_length, Hcells).
    assert (Hopen : on_open room p).
    { apply grid_cells_open; [done|]. rewrite Hcells. set_solver. }
    rewrite Hcells. cbn [Tester.loop].
    assert (Picobot.init room rules (Some p) = Ok (fresh room rl p)) as ->
      by (apply init_Some; eauto).
    rsimpl.
    destruct (run_single_cell room rl p max_steps Hone)
      as (res & -> & Hsucc & Hsteps).
    rsimpl. rewrite Hsucc. cbn [app]. rewrite Hsteps.
    eexists. split; [reflexivity|]. done.
Qed.

(** ** The rule grammar *)

Section Grammar.

(** The characters of a string all satisfy a test. *)
Definition all (p : ascii → bool) (s : pystr) : Prop := Forall (λ c, p c = true) s.

(** The pattern of [parse_rules] read as a language: a line matches, with
    the groups [g1], [g2], [g3] and [g4], when it splits into digits,
    white space, four surroundings characters, optional white space, the
    arrow, optional white space, a direction character, white space, digits
    and optional white space. *)
Definition in_grammar (line g1 g2 g3 g4 : pystr) : Prop :=
  ∃ w1 w2 w3 d w4 w5,
    line = g1 ++ w1 ++ g2 ++ w2 ++ lit "->" ++ w3 ++ [d] ++ w4 ++ g4 ++ w5 ∧
    g3 = [d] ∧
    g1 ≠ [] ∧ all is_digit g1 ∧
    w1 ≠ [] ∧ all is_space w1 ∧
    length g2 = 4%nat ∧ all is_surr_char g2 ∧
    all is_space w2 ∧ all is_space w3 ∧
    is_dir_char d = true ∧
    w4 ≠ [] ∧ all is_space w4 ∧
    g4 ≠ [] ∧ all is_digit g4 ∧
    all is_space w5.

Ltac by_cases c := destruct c as [[] [] [] [] [] [] [] []]; vm_compute; congruence.

Lemma digit_not_space c : is_digit c = true → is_space c = false.
Proof. by_cases c. Qed.

Lemma space_not_digit c : is_space c = true → is_digit c = false.
Proof. by_cases c. Qed.

Lemma surr_not_space c : is_surr_char c = true → is_space c = false.
Proof. by_cases c. Qed.

Lemma dir_not_space c : is_dir_char c = true → is_space c = false.
Proof. by_cases c. Qed.

(** Where a greedy repetition stops: at the end, or at a character outside
    the class. *)
Definition stops (p : ascii → bool) (s : pystr) : Prop :=
  match s with
  | [] => True
  | c :: _ => p c = false
  end.

Lemma span_spec p s a b :
  span p s = (a, b) ↔ s = a ++ b ∧ all p a ∧ stops p b.
Proof.
  revert a b. induction s as [|c s IH]; intros a b; simpl.
  - split.
    + intros [= <- <-]. by split_and!; [|constructor|].
    + intros (E & _ & _). symmetry in E. apply app_eq_nil in E as [-> ->]. done.
  - destruct (p c) eqn:Hc.
    + destruct (span p s) as [a' b'] eqn:Hs.
      specialize (IH a' b') as [IH _]. destruct (IH eq_refl) as (-> & Ha & Hb).
      split.
      * intros [= <- <-]. split_and!; [done|by constructor|done].
      * intros (E & Ha2 & Hb2). destruct a as [|c2 a].
        { cbn in E. subst b. cbn in Hb2. congruence. }
        cbn in E. injection E as <- E. apply Forall_cons in Ha2 as [_ Ha2].
        assert (a' = a ∧ b' = b) as [-> ->]; [|done].
        clear -E Ha Hb Ha2 Hb2. revert a E Ha2.
        induction a' as [|x a' IHa]; intros a E Ha2.
        -- destruct a as [|y a]; [done|]. cbn in E. subst b'.
           apply Forall_cons in Ha2 as [Hy _]. cbn in Hb. congruence.
        -- apply Forall_cons in Ha as [Hx Ha]. destruct a as [|y a].
           { cbn in E. subst b. cbn in Hb2. congruence. }
           cbn in E. injection E as <- E. apply Forall_cons in Ha2 as [_ Ha2].
           destruct (IHa Ha a E Ha2) as [-> ->]. done.
    + split.
      * intros [= <- <-]. by split_and!; [|constructor|].
      * intros (E & Ha & Hb). destruct a as [|c2 a].
        { cbn in E. by subst b. }
        cbn in E. injection E as <- E. apply Forall_cons in Ha as [? _].
        congruence.
Qed.

Lemma span_app p a b : all p a → stops p b → span p (a ++ b) = (a, b).
Proof. intros. by apply span_spec. Qed.

End Grammar.

Section GrammarMatch.

Lemma after_literal_spec pre s r :
  after_literal pre s = Some r ↔ s = pre ++ r.
Proof.
  revert s. induction pre as [|p pre IH]; intros s; simpl.
  - split; congruence.
  - destruct s as [|c s]; [by split|].
    destruct (decide (p = c)) as [->|Hne].
    + rewrite IH. split; congruence.
    + split; [done|]. congruence.
Qed.

Lemma all_forallb p s : forallb p s = true ↔ all p s.
Proof.
  unfold all. induction s as [|c s IH]; simpl; [by split|].
  rewrite andb_true_iff, IH, Forall_cons. done.
Qed.

Lemma stops_head p (a b : pystr) (q : ascii → bool) :
  a ≠ [] → all q a → (∀ c, q c = true → p c = false) → stops p (a ++ b).
Proof.
  destruct a as [|c a]; [done|]. intros _ [Hc _]%Forall_cons Hq. cbn. auto.
Qed.

(** The greedy reading of the pattern matches exactly the lines of the
    grammar, with the same groups. *)
Lemma rule_pattern_match_grammar line g1 g2 g3 g4 :
  rule_pattern_match line = Some (g1, g2, g3, g4) ↔
  in_grammar line g1 g2 g3 g4.
Proof.
  split.
  - unfold rule_pattern_match.
    destruct (span is_digit line) as [a1 s1] eqn:H1.
    destruct (decide (a1 = [])); [done|].
    destruct (span is_space s1) as [w1 s2] eqn:H2.
    destruct (decide (w1 = [])); [done|].
    destruct (negb _) eqn:H3; [done|].
    apply negb_false_iff, andb_true_iff in H3 as [Hlen Hsurr].
    apply bool_decide_eq_true in Hlen. apply all_forallb in Hsurr.
    destruct (span is_space (drop 4 s2)) as [w2 s4] eqn:H4.
    destruct (after_literal (lit "->") s4) as [s5|] eqn:H5; [|done].
    destruct (span is_space s5) as [w3 s6] eqn:H6.
    destruct s6 as [|d s7]; [done|].
    destruct (negb (is_dir_char d)) eqn:H7; [done|].
    apply negb_false_iff in H7.
    destruct (span is_space s7) as [w4 s8] eqn:H8.
    destruct (decide (w4 = [])); [done|].
    destruct (span is_digit s8) as [a4 s9] eqn:H9.
    destruct (decide (a4 = [])); [done|].
    destruct (span is_space s9) as [w5 s10] eqn:H10.
    destruct s10; [|done].
    intros [= <- <- <- <-].
    apply span_spec in H1 as (-> & ? & _), H2 as (-> & ? & _),
      H4 as (E4 & ? & _), H6 as (-> & ? & _), H8 as (-> & ? & _),
      H9 as (-> & ? & _), H10 as (-> & ? & _).
    apply after_literal_spec in H5 as ->.
    exists w1, w2, w3, d, w4, w5. split_and!; try done.
    rewrite app_nil_r in E4. do 2 f_equal.
    rewrite <- (take_drop 4 s2) at 1. by rewrite E4.
  - intros (w1 & w2 & w3 & d & w4 & w5 & -> & -> & Hg1 & Hd1 & Hw1 & Hs1 &
            Hlen & Hsurr & Hs2 & Hs3 & Hd & Hw4 & Hs4 & Hg4 & Hd4 & Hs5).
    unfold rule_pattern_match.
    rewrite (span_app is_digit g1)
      by (try done; eapply stops_head; eauto using space_not_digit).
    rewrite decide_False by done.
    rewrite (span_app is_space w1)
      by (try done; eapply (stops_head _ g2); eauto using surr_not_space;
          by destruct g2).
    rewrite decide_False by done.
    rewrite take_app_length', drop_app_length' by done.
    rewrite bool_decide_true by done.
    assert (forallb is_surr_char g2 = true) as -> by by apply all_forallb.
    cbn [andb negb].
    rewrite (span_app is_space w2) by done.
    assert (after_literal (lit "->") (lit "->" ++ w3 ++ [d] ++ w4 ++ g4 ++ w5)
            = Some (w3 ++ [d] ++ w4 ++ g4 ++ w5)) as ->
      by by apply after_literal_spec.
    rewrite (span_app is_space w3) by (try done; cbn; by apply dir_not_space).
    cbn [app]. rewrite Hd. cbn [negb].
    rewrite (span_app is_space w4)
      by (try done; eapply stops_head; eauto using digit_not_space).
    rewrite decide_False by done.
    rewrite (span_app is_digit g4).
    + rewrite decide_False by done.
      rewrite <- (app_nil_r w5) at 1. by rewrite (span_app is_space w5).
    + done.
    + destruct w5 as [|c w5]; [done|]. apply Forall_cons in Hs5 as [? _].
      cbn. by apply space_not_digit.
Qed.

End GrammarMatch.

(** ** Stripping white space *)

Section Stripping.

Lemma lstrip_stops s : stops is_space s → lstrip s = s.
Proof. destruct s as [|c s]; [done|]. simpl. by intros ->. Qed.

Lemma strip_id s :
  stops is_space s → stops is_space (rev s) → strip s = s.
Proof.
  intros Hl Hr. unfold strip, rstrip.
  by rewrite (lstrip_stops s), (lstrip_stops (rev s)), rev_involutive.
Qed.

Lemma lstrip_spec s :
  ∃ ws, s = ws ++ lstrip s ∧ all is_space ws ∧ stops is_space (lstrip s).
Proof.
  induction s as [|c s (ws & E & Hws & Hstop)];
    [exists []; split_and!; [done|constructor|done]|].
  simpl. destruct (is_space c) eqn:Hc.
  - exists (c :: ws). split_and!; [cbn; by f_equal|by constructor|done].
  - exists []. split_and!; [done|constructor|done].
Qed.

Lemma rstrip_spec s :
  ∃ ws, s = rstrip s ++ ws ∧ all is_space ws ∧
        stops is_space (rev (rstrip s)).
Proof.
  destruct (lstrip_spec (rev s)) as (ws & E & Hws & Hstop).
  exists (rev ws). unfold rstrip. split_and!.
  - rewrite <- rev_app_distr, <- E. by rewrite rev_involutive.
  - by apply Forall_rev.
  - by rewrite rev_involutive.
Qed.

(** [strip] removes white space at both ends and leaves a text that
    neither starts nor ends with white space. *)
Lemma strip_spec s :
  ∃ a b, s = a ++ strip s ++ b ∧ all is_space a ∧ all is_space b ∧
         stops is_space (strip s) ∧ stops is_space (rev (strip s)).
Proof.
  destruct (lstrip_spec s) as (a & Ea & Ha & Hstop).
  destruct (rstrip_spec (lstrip s)) as (b & Eb & Hb & Hrstop).
  exists a, b. unfold strip. split_and!; try done.
  - by rewrite <- Eb.
  - destruct (rstrip (lstrip s)) as [|c t] eqn:Er; [done|].
    rewrite Eb in Hstop. done.
Qed.

Lemma strip_nil s : strip s = [] ↔ all is_space s.
Proof.
  split.
  - intros E. destruct (strip_spec s) as (a & b & Es & Ha & Hb & _).
    rewrite E in Es. rewrite Es. by apply Forall_app.
  - intros Hs. unfold strip.
    assert (lstrip s = []) as ->; [|done].
    induction Hs as [|c s Hc Hs IH]; [done|]. simpl. by rewrite Hc.
Qed.

Lemma lstrip_spaces a s : all is_space a → lstrip (a ++ s) = lstrip s.
Proof. induction 1 as [|c a Hc _ IH]; [done|]. simpl. by rewrite Hc. Qed.

(** [strip] returns the text that stands between the white space at both
    ends. *)
Lemma strip_between a c b :
  all is_space a → all is_space b →
  c ≠ [] → stops is_space c → stops is_space (rev c) →
  strip (a ++ c ++ b) = c.
Proof.
  intros Ha Hb Hne Hc Hr. unfold strip. rewrite lstrip_spaces by done.
  rewrite lstrip_stops by (by destruct c).
  unfold rstrip. rewrite rev_app_distr, lstrip_spaces by (by apply Forall_rev).
  rewrite lstrip_stops by done. apply rev_involutive.
Qed.

End Stripping.

(** ** The parser, line by line *)

Section ParserFacts.

(** A line without its comment and surrounding white space, as the loop of
    [parse_rules] computes it. *)
Definition clean (line : pystr) : pystr := strip (Parser.remove_comment line).

(** The text of a line before its comment: the characters that precede
    the first ['#']. *)
Fixpoint before_comment (line : pystr) : pystr :=
  match line with
  | [] => []
  | c :: rest =>
      if decide (c = "#"%char) then [] else c :: before_comment rest
  end.

(** A blank line: nothing but white space precedes its comment. *)
Definition blank (line : pystr) : Prop := all is_space (before_comment line).

(** A line that reads as a rule with the groups [g1] to [g4]: after leading
    white space, what precedes its comment is a text of the grammar (which
    ends with optional white space). *)
Definition reads_as (line g1 g2 g3 g4 : pystr) : Prop :=
  ∃ lead body,
    before_comment line = lead ++ body ∧ all is_space lead ∧
    in_grammar body g1 g2 g3 g4.

(** A surroundings character as the parser stores it: ['x'] for the open
    marker in either case, the upper-case letter for a wall letter, the
    wildcard as it is. *)
Definition norm_char (c : ascii) : ascii :=
  if decide (c ∈ lit "xX") then "x"%char else ascii_upper c.

Definition in_range (n : Z) : Prop := 0 ≤ n ≤ 99.

(** A number that [int] converts: at most 4300 digits. *)
Definition short (g : pystr) : Prop :=
  Z.of_nat (length g) ≤ int_max_str_digits.

(** The rule a line of the grammar stands for. *)
Definition rule_of_groups (g1 g2 g3 g4 : pystr) (line_num : Z) : Rule.t :=
  {| Rule.state := int_of_digits g1;
     Rule.surroundings_pattern := map norm_char g2;
     Rule.direction := str_upper g3;
     Rule.new_state := int_of_digits g4;
     Rule.line_number := line_num |}.

(** A line that reads as a rule with a STATE or NEWSTATE of more than 4300
    digits. *)
Definition over_long (line : pystr) : Prop :=
  ∃ g1 g2 g3 g4, reads_as line g1 g2 g3 g4 ∧ ¬ (short g1 ∧ short g4).

(** A line that is not blank and either does not read as a rule or has a
    STATE or NEWSTATE outside 0..99. *)
Definition out_of_range (line : pystr) : Prop :=
  ¬ blank line ∧
  ((∀ g1 g2 g3 g4, ¬ reads_as line g1 g2 g3 g4) ∨
   (∃ g1 g2 g3 g4, reads_as line g1 g2 g3 g4 ∧
      ¬ (in_range (int_of_digits g1) ∧ in_range (int_of_digits g4)))).

(** A line the parser rejects: not blank, and either it does not read as a
    rule, or its STATE or NEWSTATE has more than 4300 digits or lies
    outside 0..99. *)
Definition offending (line : pystr) : Prop :=
  ¬ blank line ∧
  ((∀ g1 g2 g3 g4, ¬ reads_as line g1 g2 g3 g4) ∨
   (∃ g1 g2 g3 g4, reads_as line g1 g2 g3 g4 ∧
      ¬ (short g1 ∧ short g4 ∧
         in_range (int_of_digits g1) ∧ in_range (int_of_digits g4)))).

(** The digits that follow the first ["at line "] of a message. *)
Fixpoint line_cited (msg : pystr) : option pystr :=
  match after_literal (lit "at line ") msg with
  | Some rest => Some (span is_digit rest).1
  | None =>
      match msg with
      | [] => None
      | _ :: msg' => line_cited msg'
      end
  end.

(** The error is a [ValueError] whose message names the line [n]: the
    number that follows its first ["at line "] is [n]. *)
Definition cites (n : Z) (e : PyErr) : Prop :=
  ∃ msg, e = ValueError msg ∧ line_cited msg = Some (str_of_Z n).

(** The rules of a list of lines numbered from [n]: blank lines give
    nothing, every other line reads as a rule with numbers that [int]
    converts, within 0..99, and gives its rule. *)
Inductive parses : Z → list pystr → list Rule.t → Prop :=
| parses_nil n : parses n [] []
| parses_blank n line lines rules :
    blank line →
    parses (n + 1) lines rules →
    parses n (line :: lines) rules
| parses_rule n line lines rules g1 g2 g3 g4 :
    reads_as line g1 g2 g3 g4 →
    short g1 → short g4 →
    in_range (int_of_digits g1) → in_range (int_of_digits g4) →
    parses (n + 1) lines rules →
    parses n (line :: lines) (rule_of_groups g1 g2 g3 g4 n :: rules).

(** The comment removal of the loop gives the text before the comment. *)
Lemma remove_comment_before line :
  Parser.remove_comment line = before_comment line.
Proof.
  unfold Parser.remove_comment.
  induction line as [|c l IH]; [done|]. cbn [str_index before_comment].
  destruct (decide (c = "#"%char)) as [->|Hc]; [done|].
  destruct (str_index "#"%char l) as [i|];
    cbn [fmap option_fmap option_map firstn]; by f_equal.
Qed.

Lemma blank_clean line : blank line ↔ clean line = [].
Proof.
  unfold blank, clean. rewrite remove_comment_before. symmetry.
  apply strip_nil.
Qed.

Lemma in_grammar_ends body g1 g2 g3 g4 :
  in_grammar body g1 g2 g3 g4 →
  ∃ core w5,
    body = core ++ w5 ∧ all is_space w5 ∧ core ≠ [] ∧
    stops is_space core ∧ stops is_space (rev core) ∧
    in_grammar core g1 g2 g3 g4.
Proof.
  intros (w1 & w2 & w3 & d & w4 & w5 & E & E3 & Hg1 & Hd1 & Hw1 & Hs1 & Hlen
          & Hsurr & Hs2 & Hs3 & Hd & Hw4 & Hs4 & Hg4 & Hd4 & Hs5).
  set (front := g1 ++ w1 ++ g2 ++ w2 ++ lit "->" ++ w3 ++ [d] ++ w4).
  exists (front ++ g4), w5. split_and!.
  - rewrite E. unfold front. by rewrite <- !app_assoc.
  - done.
  - unfold front. by destruct g1.
  - unfold front. destruct g1 as [|c g1]; [done|].
    apply Forall_cons in Hd1 as [Hc _]. cbn. by apply digit_not_space.
  - rewrite rev_app_distr.
    assert (all is_digit (rev g4)) as Hr by (by apply Forall_rev).
    destruct (rev g4) as [|c r] eqn:Er.
    + apply (f_equal (@rev ascii)) in Er. rewrite rev_involutive in Er.
      by subst g4.
    + apply Forall_cons in Hr as [Hc _]. cbn. by apply digit_not_space.
  - exists w1, w2, w3, d, w4, []. split_and!; try done.
    + unfold front. by rewrite <- !app_assoc, app_nil_r.
    + constructor.
Qed.

(** Reading a line as a rule is matching the cleaned line against the
    grammar. *)
Lemma reads_as_clean line g1 g2 g3 g4 :
  reads_as line g1 g2 g3 g4 ↔ in_grammar (clean line) g1 g2 g3 g4.
Proof.
  unfold clean. rewrite remove_comment_before. split.
  - intros (lead & body & E & Hl & Hg).
    apply in_grammar_ends in Hg
      as (core & w5 & -> & Hw5 & Hne & Hstop & Hrstop & Hg).
    rewrite E. by rewrite strip_between.
  - intros Hg.
    destruct (strip_spec (before_comment line)) as (a & b & E & Ha & Hb & _).
    exists a, (strip (before_comment line) ++ b). split_and!; [done|done|].
    destruct Hg as (w1 & w2 & w3 & d & w4 & w5 & E' & E3 & Hg1 & Hd1 & Hw1
                    & Hs1 & Hlen & Hsurr & Hs2 & Hs3 & Hd & Hw4 & Hs4 & Hg4
                    & Hd4 & Hs5).
    exists w1, w2, w3, d, w4, (w5 ++ b). split_and!; try done.
    + rewrite E'. by rewrite <- !app_assoc.
    + by apply Forall_app.
Qed.

Lemma reads_as_not_blank line g1 g2 g3 g4 :
  reads_as line g1 g2 g3 g4 → ¬ blank line.
Proof.
  intros Hg%reads_as_clean Hb%blank_clean. rewrite Hb in Hg.
  destruct Hg as (w1 & w2 & w3 & d & w4 & w5 & E & _ & Hg1 & _).
  by destruct g1.
Qed.

Lemma normalize_cons c i rest n acc :
  is_surr_char c = true → i < 4 →
  Parser.normalize i (ascii_upper c :: rest) n acc
  = Parser.normalize (i + 1) rest n (acc ++ [norm_char c]).
Proof.
  intros Hc Hi%Z.ltb_lt. cbn [Parser.normalize]. rewrite Hi.
  destruct c as [[] [] [] [] [] [] [] []];
    try (by vm_compute in Hc); reflexivity.
Qed.

Lemma normalize_spec s i n acc :
  all is_surr_char s → 0 ≤ i → i + Z.of_nat (length s) ≤ 4 →
  Parser.normalize i (str_upper s) n acc = Ok (acc ++ map norm_char s).
Proof.
  revert i acc. induction s as [|c s IH]; intros i acc Hs Hi Hlen.
  - cbn. by rewrite app_nil_r.
  - apply Forall_cons in Hs as [Hc Hs]. cbn [length] in Hlen.
    change (str_upper (c :: s)) with (ascii_upper c :: str_upper s).
    rewrite normalize_cons by (try done; lia).
    rewrite IH by (try done; lia). cbn [map]. by rewrite <- app_assoc.
Qed.

Lemma in_grammar_unique line g1 g2 g3 g4 h1 h2 h3 h4 :
  in_grammar line g1 g2 g3 g4 → in_grammar line h1 h2 h3 h4 →
  (g1, g2, g3, g4) = (h1, h2, h3, h4).
Proof.
  intros Hg%rule_pattern_match_grammar Hh%rule_pattern_match_grammar.
  congruence.
Qed.

Lemma reads_as_unique line g1 g2 g3 g4 h1 h2 h3 h4 :
  reads_as line g1 g2 g3 g4 → reads_as line h1 h2 h3 h4 →
  (g1, g2, g3, g4) = (h1, h2, h3, h4).
Proof.
  intros Hg%reads_as_clean Hh%reads_as_clean. by eapply in_grammar_unique.
Qed.

Lemma in_grammar_groups line g1 g2 g3 g4 :
  in_grammar line g1 g2 g3 g4 →
  all is_surr_char g2 ∧ length g2 = 4%nat ∧
  ∃ d, g3 = [d] ∧ is_dir_char d = true.
Proof.
  intros (w1 & w2 & w3 & d & w4 & w5 & _ & -> & _ & _ & _ & _ & ? & ? & _ &
          _ & ? & _). eauto.
Qed.

Lemma py_int_short g : short g → py_int g = Ok (int_of_digits g).
Proof.
  unfold short, py_int. intros H.
  by destruct (Z.gtb_spec (Z.of_nat (length g)) int_max_str_digits); [lia|].
Qed.

Lemma py_int_long g :
  ¬ short g → py_int g = Raise (int_limit_error (Z.of_nat (length g))).
Proof.
  unfold short, py_int. intros H.
  by destruct (Z.gtb_spec (Z.of_nat (length g)) int_max_str_digits); [|lia].
Qed.

(** What the loop body does with a line. *)
Lemma parse_line_blank n line :
  blank line → Parser.parse_line n line = Ok None.
Proof.
  intros H%blank_clean. unfold Parser.parse_line. fold (clean line).
  by rewrite decide_True.
Qed.

Lemma parse_line_no_match n line :
  ¬ blank line → (∀ g1 g2 g3 g4, ¬ reads_as line g1 g2 g3 g4) →
  Parser.parse_line n line = Raise (Parser.syntax_error n (clean line)).
Proof.
  rewrite blank_clean. intros H Hno. unfold Parser.parse_line.
  fold (clean line). rewrite decide_False by done.
  destruct (rule_pattern_match (clean line)) as [[[[g1 g2] g3] g4]|] eqn:Hm;
    [|done].
  apply rule_pattern_match_grammar, reads_as_clean in Hm.
  by destruct (Hno g1 g2 g3 g4).
Qed.

Lemma parse_line_match n line g1 g2 g3 g4 :
  reads_as line g1 g2 g3 g4 →
  Parser.parse_line n line =
    if decide (short g1) then
      if decide (short g4) then
        if decide (in_range (int_of_digits g1)) then
          if decide (in_range (int_of_digits g4)) then
            Ok (Some (rule_of_groups g1 g2 g3 g4 n))
          else Raise (Parser.new_state_error (int_of_digits g4) n)
        else Raise (Parser.state_error (int_of_digits g1) n)
      else Raise (int_limit_error (Z.of_nat (length g4)))
    else Raise (int_limit_error (Z.of_nat (length g1))).
Proof.
  intros Hr. pose proof (reads_as_not_blank _ _ _ _ _ Hr) as H.
  rewrite blank_clean in H. apply reads_as_clean in Hr as Hg.
  unfold Parser.parse_line. fold (clean line).
  rewrite decide_False by done.
  pose proof Hg as (Hsurr & Hlen & _)%in_grammar_groups.
  apply rule_pattern_match_grammar in Hg as ->.
  destruct (decide (short g1)) as [S1|S1];
    [rewrite (py_int_short g1) by done|by rewrite (py_int_long g1)].
  rsimpl.
  destruct (decide (short g4)) as [S4|S4];
    [rewrite (py_int_short g4) by done|by rewrite (py_int_long g4)].
  rsimpl. unfold in_range.
  destruct (decide (0 ≤ int_of_digits g1 ≤ 99)) as [H1|H1].
  - assert ((0 <=? int_of_digits g1) && (int_of_digits g1 <=? 99) = true)
      as -> by (apply andb_true_iff; split; apply Z.leb_le; lia).
    cbn [negb].
    destruct (decide (0 ≤ int_of_digits g4 ≤ 99)) as [H4|H4].
    + assert ((0 <=? int_of_digits g4) && (int_of_digits g4 <=? 99) = true)
        as -> by (apply andb_true_iff; split; apply Z.leb_le; lia).
      cbn [negb]. rewrite normalize_spec by (try done; lia). done.
    + assert ((0 <=? int_of_digits g4) && (int_of_digits g4 <=? 99) = false)
        as ->; [|done].
      apply andb_false_iff.
      destruct (Z.leb_spec 0 (int_of_digits g4)); [right|by left].
      apply Z.leb_gt. lia.
  - assert ((0 <=? int_of_digits g1) && (int_of_digits g1 <=? 99) = false)
      as ->; [|done].
    apply andb_false_iff.
    destruct (Z.leb_spec 0 (int_of_digits g1)); [right|by left].
    apply Z.leb_gt. lia.
Qed.

(** The characters of [str(n)]. *)
Lemma uint_digits d :
  all is_digit (list_ascii_of_string (NilEmpty.string_of_uint d)).
Proof. induction d; by constructor. Qed.

Lemma str_of_Z_digits n : 0 ≤ n → all is_digit (str_of_Z n).
Proof.
  intros Hn. unfold str_of_Z. destruct n as [|p|p]; [by repeat constructor| |lia].
  cbn [Z.to_int NilZero.string_of_int].
  unfold NilZero.string_of_uint.
  destruct (Pos.to_uint p) eqn:E; try apply uint_digits.
  by repeat constructor.
Qed.

Lemma str_of_Z_no_a n : Forall (λ c, c ≠ "a"%char) (str_of_Z n).
Proof.
  assert (Hd : ∀ s, all is_digit s → Forall (λ c, c ≠ "a"%char) s).
  { intros s Hs. eapply Forall_impl; [exact Hs|]. by intros c Hc ->. }
  unfold str_of_Z. destruct n as [|p|p]; [by repeat constructor| |].
  - apply Hd. exact (str_of_Z_digits (Z.pos p) ltac:(lia)).
  - cbn [Z.to_int NilZero.string_of_int list_ascii_of_string].
    constructor; [done|]. apply Hd.
    exact (str_of_Z_digits (Z.pos p) ltac:(lia)).
Qed.

(** The scan for the line number of a message. *)
Lemma line_cited_unfold msg :
  line_cited msg =
  match after_literal (lit "at line ") msg with
  | Some rest => Some (span is_digit rest).1
  | None => match msg with [] => None | _ :: msg' => line_cited msg' end
  end.
Proof. by destruct msg. Qed.

Lemma line_cited_skip pre rest :
  Forall (λ c, c ≠ "a"%char) pre →
  line_cited (pre ++ rest) = line_cited rest.
Proof.
  induction 1 as [|c pre Hc _ IH]; [done|].
  rewrite line_cited_unfold. cbn [app].
  change (lit "at line ") with ("a"%char :: lit "t line ").
  cbn [after_literal]. by rewrite decide_False by done.
Qed.

Lemma cited_digits n post :
  0 ≤ n → stops is_digit post →
  (span is_digit (str_of_Z n ++ post)).1 = str_of_Z n.
Proof.
  intros Hn Hpost. by rewrite span_app by (by try apply str_of_Z_digits).
Qed.

Lemma syntax_error_scan rest :
  line_cited (lit "Invalid rule syntax at line " ++ rest)
  = Some (span is_digit rest).1.
Proof. reflexivity. Qed.

Lemma state_error_scan rest :
  line_cited (lit "Invalid state " ++ rest) = line_cited rest.
Proof. reflexivity. Qed.

Lemma new_state_error_scan rest :
  line_cited (lit "Invalid new_state " ++ rest) = line_cited rest.
Proof. reflexivity. Qed.

Lemma at_line_scan rest :
  line_cited (lit " at line " ++ rest) = Some (span is_digit rest).1.
Proof. reflexivity. Qed.

Lemma int_limit_scan rest :
  line_cited
    (lit "Exceeds the limit (4300 digits) for integer string conversion: "
       ++ lit "value has " ++ rest)
  = line_cited rest.
Proof. reflexivity. Qed.

Lemma syntax_error_cites n line :
  0 ≤ n → cites n (Parser.syntax_error n line).
Proof.
  intros Hn. eexists. split; [reflexivity|].
  rewrite syntax_error_scan. f_equal. by apply cited_digits.
Qed.

Lemma state_error_cites st n : 0 ≤ n → cites n (Parser.state_error st n).
Proof.
  intros Hn. eexists. split; [reflexivity|].
  rewrite state_error_scan, line_cited_skip by apply str_of_Z_no_a.
  rewrite at_line_scan. f_equal. by apply cited_digits.
Qed.

Lemma new_state_error_cites st n :
  0 ≤ n → cites n (Parser.new_state_error st n).
Proof.
  intros Hn. eexists. split; [reflexivity|].
  rewrite new_state_error_scan, line_cited_skip by apply str_of_Z_no_a.
  rewrite at_line_scan. f_equal. by apply cited_digits.
Qed.

Lemma int_limit_scan_none digits :
  line_cited
    (lit "Exceeds the limit (4300 digits) for integer string conversion: "
       ++ lit "value has " ++ str_of_Z digits
       ++ lit " digits; use sys.set_int_max_str_digits() to increase the limit")
  = None.
Proof.
  rewrite int_limit_scan, line_cited_skip by apply str_of_Z_no_a.
  by vm_compute.
Qed.

(** The error of [int] names no line. *)
Lemma int_limit_error_cites digits n : ¬ cites n (int_limit_error digits).
Proof.
  intros (msg & Hmsg & Hc). pose proof (int_limit_scan_none digits) as Hn.
  unfold int_limit_error in Hmsg. congruence.
Qed.

(** The loop body raises exactly on the offending lines; its error names
    the line, unless it is the error of [int] for a number of more than
    4300 digits. *)
Lemma parse_line_Raise n line e :
  0 ≤ n →
  Parser.parse_line n line = Raise e →
  offending line ∧
  (¬ over_long line → cites n e) ∧
  (over_long line →
   ∃ digits, int_max_str_digits < digits ∧ e = int_limit_error digits).
Proof.
  intros Hn.
  destruct (decide (clean line = [])) as [Hb|Hb].
  { apply blank_clean in Hb. by rewrite parse_line_blank. }
  rewrite <- blank_clean in Hb.
  destruct (rule_pattern_match (clean line)) as [[[[g1 g2] g3] g4]|] eqn:Hm.
  - apply rule_pattern_match_grammar, reads_as_clean in Hm.
    assert (Hlong : over_long line → ¬ (short g1 ∧ short g4)).
    { intros (h1 & h2 & h3 & h4 & Hh & Hs).
      by pose proof (reads_as_unique _ _ _ _ _ _ _ _ _ Hm Hh)
        as [= -> -> -> ->]. }
    assert (Hoff : ¬ (short g1 ∧ short g4 ∧ in_range (int_of_digits g1)
                      ∧ in_range (int_of_digits g4)) → offending line).
    { intros Hbad. split; [done|]. right. by exists g1, g2, g3, g4. }
    rewrite (parse_line_match n line g1 g2 g3 g4) by done.
    destruct (decide (short g1)) as [S1|S1];
      [destruct (decide (short g4)) as [S4|S4];
       [destruct (decide (in_range (int_of_digits g1))) as [H1|H1];
        [destruct (decide (in_range (int_of_digits g4))) as [H4|H4]|]|]|];
      [done|..]; intros [= <-]; (split; [apply Hoff; tauto|]).
    + split; [intros _; by apply new_state_error_cites|].
      intros []%Hlong. done.
    + split; [intros _; by apply state_error_cites|].
      intros []%Hlong. done.
    + split; [intros []; by exists g1, g2, g3, g4; split; [|tauto]|].
      intros _. exists (Z.of_nat (length g4)). unfold short in S4.
      split; [lia|done].
    + split; [intros []; by exists g1, g2, g3, g4; split; [|tauto]|].
      intros _. exists (Z.of_nat (length g1)). unfold short in S1.
      split; [lia|done].
  - assert (Hno : ∀ g1 g2 g3 g4, ¬ reads_as line g1 g2 g3 g4).
    { intros g1 g2 g3 g4 Hg%reads_as_clean%rule_pattern_match_grammar.
      congruence. }
    rewrite parse_line_no_match by done.
    intros [= <-]. split_and!.
    + split; [done|by left].
    + intros _. by apply syntax_error_cites.
    + intros (h1 & h2 & h3 & h4 & Hh & _). by destruct (Hno h1 h2 h3 h4).
Qed.

Lemma parse_line_offending n line :
  offending line → ∃ e, Parser.parse_line n line = Raise e.
Proof.
  intros [Hb [Hno|(g1 & g2 & g3 & g4 & Hg & Hr)]].
  - rewrite parse_line_no_match by done. eauto.
  - rewrite (parse_line_match n line g1 g2 g3 g4) by done.
    destruct (decide (short g1)) as [S1|S1]; [|eauto].
    destruct (decide (short g4)) as [S4|S4]; [|eauto].
    destruct (decide (in_range (int_of_digits g1))) as [H1|H1]; [|eauto].
    destruct (decide (in_range (int_of_digits g4))) as [H4|H4]; [|eauto].
    tauto.
Qed.

Lemma parse_line_Ok n line o :
  Parser.parse_line n line = Ok o →
  (o = None ∧ blank line) ∨
  (∃ g1 g2 g3 g4,
     o = Some (rule_of_groups g1 g2 g3 g4 n) ∧
     reads_as line g1 g2 g3 g4 ∧ short g1 ∧ short g4 ∧
     in_range (int_of_digits g1) ∧ in_range (int_of_digits g4)).
Proof.
  destruct (decide (clean line = [])) as [Hb|Hb].
  { apply blank_clean in Hb. rewrite parse_line_blank by done.
    intros [= <-]. by left. }
  rewrite <- blank_clean in Hb.
  destruct (rule_pattern_match (clean line)) as [[[[g1 g2] g3] g4]|] eqn:Hm.
  - apply rule_pattern_match_grammar, reads_as_clean in Hm.
    rewrite (parse_line_match n line g1 g2 g3 g4) by done.
    destruct (decide (short g1)) as [S1|S1]; [|done].
    destruct (decide (short g4)) as [S4|S4]; [|done].
    destruct (decide (in_range (int_of_digits g1))) as [H1|H1]; [|done].
    destruct (decide (in_range (int_of_digits g4))) as [H4|H4]; [|done].
    intros [= <-]. right. exists g1, g2, g3, g4. done.
  - rewrite parse_line_no_match; [done|done|].
    intros g1 g2 g3 g4 Hg%reads_as_clean%rule_pattern_match_grammar.
    congruence.
Qed.

End ParserFacts.

Section ParserLoop.

Lemma parse_line_Ok_not_offending n line o :
  Parser.parse_line n line = Ok o → ¬ offending line.
Proof.
  intros Hok Hoff. destruct (parse_line_offending n line Hoff) as [e He].
  congruence.
Qed.

Lemma parse_lines_Ok lines n acc rules :
  Parser.parse_lines lines n acc = Ok rules ↔
  ∃ rs, parses n lines rs ∧ rules = acc ++ rs.
Proof.
  revert n acc. induction lines as [|line lines IH]; intros n acc; simpl.
  - split.
    + intros [= <-]. exists []. split; [constructor|by rewrite app_nil_r].
    + intros (rs & Hp & ->). inversion Hp. by rewrite app_nil_r.
  - split.
    + destruct (Parser.parse_line n line) as [o|] eqn:Hl; rsimpl; [|done].
      intros (rs & Hp & ->)%IH.
      apply parse_line_Ok in Hl
        as [[-> Hb]|(g1 & g2 & g3 & g4 & -> & Hg & S1 & S4 & H1 & H4)].
      * exists rs. split; [by constructor|done].
      * exists (rule_of_groups g1 g2 g3 g4 n :: rs).
        split; [by econstructor|]. by rewrite <- app_assoc.
    + intros (rs & Hp & ->). inversion Hp; subst.
      * rewrite parse_line_blank by done. rsimpl. apply IH. eauto.
      * rewrite (parse_line_match n line g1 g2 g3 g4) by done.
        rewrite !decide_True by done. rsimpl. apply IH.
        eexists. split; [done|]. by rewrite <- app_assoc.
Qed.

Lemma parse_lines_Raise lines n acc e :
  0 ≤ n →
  Parser.parse_lines lines n acc = Raise e →
  ∃ k line,
    lines !! k = Some line ∧ offending line ∧
    (∀ j l, (j < k)%nat → lines !! j = Some l → ¬ offending l) ∧
    (¬ over_long line → cites (n + Z.of_nat k) e) ∧
    (over_long line →
     ∃ digits, int_max_str_digits < digits ∧ e = int_limit_error digits).
Proof.
  revert n acc. induction lines as [|line lines IH]; intros n acc Hn; simpl;
    [done|].
  destruct (Parser.parse_line n line) as [o|] eqn:Hl; rsimpl.
  - intros (k & l & Hk & Hoff & Hbefore & Hc & Hlong)%IH; [|lia].
    exists (S k), l. split_and!; try done.
    + intros [|j] l' Hj Hl'; simplify_eq/=.
      * by eapply parse_line_Ok_not_offending.
      * eapply Hbefore; [|done]. lia.
    + by replace (n + Z.of_nat (S k)) with (n + 1 + Z.of_nat k) by lia.
  - intros [= <-]. apply parse_line_Raise in Hl as (Hoff & Hc & Hlong); [|done].
    exists 0%nat, line. split_and!; try done.
    + intros j l Hj. lia.
    + by rewrite Z.add_0_r.
Qed.

Lemma parse_lines_offending lines n acc :
  Exists offending lines → ∃ e, Parser.parse_lines lines n acc = Raise e.
Proof.
  intros Hex. revert n acc.
  induction lines as [|line lines IH]; intros n acc; [by inversion Hex|].
  simpl. destruct (Parser.parse_line n line) as [o|] eqn:Hl; rsimpl; [|eauto].
  apply IH. apply Exists_cons in Hex as [Hoff|]; [|done].
  by apply parse_line_Ok_not_offending in Hl.
Qed.

(** The shape of a rule that comes out of the parser. *)
Definition parsed_shape (r : Rule.t) : Prop :=
  in_range (Rule.state r) ∧
  length (Rule.surroundings_pattern r) = 4%nat ∧
  Forall (λ c, c ∈ lit "NEWSx*") (Rule.surroundings_pattern r) ∧
  valid_direction r ∧
  in_range (Rule.new_state r).

Lemma norm_char_alphabet c :
  is_surr_char c = true → norm_char c ∈ lit "NEWSx*".
Proof.
  intros Hc.
  destruct c as [[] [] [] [] [] [] [] []];
    try (by vm_compute in Hc); apply (bool_decide_unpack _); by vm_compute.
Qed.

Lemma upper_dir_valid d :
  is_dir_char d = true →
  [ascii_upper d] ∈ [lit "N"; lit "E"; lit "W"; lit "S"; lit "X"].
Proof.
  intros Hd.
  destruct d as [[] [] [] [] [] [] [] []];
    try (by vm_compute in Hd); apply (bool_decide_unpack _); by vm_compute.
Qed.

Lemma parses_shape n lines rules :
  parses n lines rules → Forall parsed_shape rules.
Proof.
  induction 1 as [| |n line lines rules g1 g2 g3 g4 Hg S1 S4 H1 H4 Hp IH];
    [constructor|done|].
  constructor; [|done].
  apply reads_as_clean, in_grammar_groups in Hg
    as (Hsurr & Hlen & d & -> & Hd).
  unfold parsed_shape, rule_of_groups, valid_direction. cbn.
  split_and!; try done.
  - by rewrite length_map.
  - apply Forall_fmap. eapply Forall_impl; [exact Hsurr|].
    intros c Hc. by apply norm_char_alphabet.
  - by apply upper_dir_valid.
Qed.

(** A text whose first line carries a STATE of 4301 zeros. *)
Definition long_state_text : pystr :=
  replicate 4301 "0"%char ++ lit " xxxx -> N 0".

End ParserLoop.

(** C9. [parse_rules] raises exactly when some line of the text is
    offending: not blank before its comment, and either not a text of the
    rule grammar (between white space, before the comment), or with a
    STATE or NEWSTATE of more than 4300 digits, or with a STATE or NEWSTATE
    outside 0..99. The error belongs to the first offending line: a
    [ValueError] whose message names the number of that line, except for a
    number of more than 4300 digits, where it is the [ValueError] of [int],
    which names no line. [parse_rules] returns a list only when every line
    that is not blank yields its rule, in order; the patterns of the rules
    returned have four characters among N, E, W, S, x and the wildcard,
    each character of the text being mapped to ['x'] when it is the open
    marker in either case and to its upper-case form otherwise. *)
Theorem parse_rules_all_or_error (text : pystr) :
  ((∃ e, parse_rules text = Raise e) ↔ Exists offending (split_nl text)) ∧
  (∀ e, parse_rules text = Raise e →
     ∃ k line,
       split_nl text !! k = Some line ∧ offending line ∧
       (∀ j l, (j < k)%nat → split_nl text !! j = Some l → ¬ offending l) ∧
       (¬ over_long line → cites (Z.of_nat k + 1) e) ∧
       (over_long line →
        ∃ digits, int_max_str_digits < digits ∧
                  e = int_limit_error digits ∧ ∀ n, ¬ cites n e)) ∧
  (∀ rules, parse_rules text = Ok rules ↔ parses 1 (split_nl text) rules) ∧
  (∀ rules, parse_rules text = Ok rules →
     Forall (λ r, length (Rule.surroundings_pattern r) = 4%nat ∧
                  Forall (λ c, c ∈ lit "NEWSx*") (Rule.surroundings_pattern r))
       rules).
Proof.
  unfold parse_rules.
  assert (Hok : ∀ rules, Parser.parse_lines (split_nl text) 1 [] = Ok rules ↔
                         parses 1 (split_nl text) rules).
  { intros rules. rewrite parse_lines_Ok. split.
    - by intros (rs & Hp & ->).
    - intros Hp. by exists rules. }
  split_and!.
  - split.
    + intros [e (k & line & Hk & Hoff & _)%parse_lines_Raise]; [|lia].
      apply Exists_exists. exists line. split; [|done].
      by eapply list_elem_of_lookup_2.
    + apply parse_lines_offending.
  - intros e (k & line & Hk & Hoff & Hbefore & Hc & Hlong)%parse_lines_Raise;
      [|lia].
    exists k, line. split_and!; try done.
    + by rewrite Z.add_comm.
    + intros (digits & Hd & ->)%Hlong. exists digits. split_and!; try done.
      intros n. apply int_limit_error_cites.
  - exact Hok.
  - intros rules Hp%Hok. apply parses_shape in Hp.
    eapply Forall_impl; [exact Hp|]. by intros r (_ & ? & ? & _).
Qed.

(** C9, counterexample. The one line of [long_state_text] reads as a rule
    whose STATE, 4301 zeros, and NEWSTATE are both 0: no line is outside
    the grammar or outside 0..99. Yet [parse_rules] raises, and its error
    names no line. *)
Lemma long_state_raises :
  ¬ Exists out_of_range (split_nl long_state_text) ∧
  ∃ e, parse_rules long_state_text = Raise e ∧ ∀ n, ¬ cites n e.
Proof.
  assert (Hread : reads_as long_state_text (replicate 4301 "0"%char)
                    (lit "xxxx") (lit "N") (lit "0")).
  { exists [], long_state_text. split_and!; [by vm_compute|constructor|].
    apply rule_pattern_match_grammar. by vm_compute. }
  split.
  - assert (split_nl long_state_text = [long_state_text]) as ->
      by (by vm_compute).
    intros [[_ [Hno|(g1 & g2 & g3 & g4 & Hg & Hr)]]|[]%Exists_nil]%Exists_cons.
    + by eapply Hno.
    + pose proof (reads_as_unique _ _ _ _ _ _ _ _ _ Hread Hg)
        as [= <- <- <- <-].
      apply Hr. split; by vm_compute.
  - exists (int_limit_error 4301). split; [by vm_compute|].
    intros n. apply int_limit_error_cites.
Qed.


(** ** Rendering rules and parsing them back *)

Section RoundTrip.

(** A rule with its line number replaced. *)
Definition at_line (r : Rule.t) (n : Z) : Rule.t :=
  {| Rule.state := Rule.state r;
     Rule.surroundings_pattern := Rule.surroundings_pattern r;
     Rule.direction := Rule.direction r;
     Rule.new_state := Rule.new_state r;
     Rule.line_number := n |}.

(** The rules numbered by their position, starting at [n]. *)
Fixpoint renumber (n : Z) (rules : list Rule.t) : list Rule.t :=
  match rules with
  | [] => []
  | r :: rules' => at_line r n :: renumber (n + 1) rules'
  end.

(** Two rules that differ at most in their line number. *)
Definition same_rule (r1 r2 : Rule.t) : Prop :=
  Rule.state r1 = Rule.state r2 ∧
  Rule.surroundings_pattern r1 = Rule.surroundings_pattern r2 ∧
  Rule.direction r1 = Rule.direction r2 ∧
  Rule.new_state r1 = Rule.new_state r2.

(** A rule below a comment line, and the rule it parses to at either line. *)
Definition commented_text : pystr :=
  lit "# go north" ++ [nl] ++ lit "0 x*** -> N 0".

Definition north_rule (line_num : Z) : Rule.t :=
  Rule.mk 0 (lit "x***") (lit "N") 0 line_num.

(** The decimal text of the numbers 0..99, checked one by one. *)
Definition decimal_ok (n : Z) : bool :=
  negb (bool_decide (str_of_Z n = [])) && forallb is_digit (str_of_Z n)
  && (int_of_digits (str_of_Z n) =? n).

Lemma str_of_Z_small n :
  in_range n →
  str_of_Z n ≠ [] ∧ all is_digit (str_of_Z n) ∧
  int_of_digits (str_of_Z n) = n.
Proof.
  intros Hn.
  assert (Hall : forallb decimal_ok (range 100) = true) by by vm_compute.
  rewrite forallb_forall in Hall. specialize (Hall n).
  assert (Hin : In n (range 100)).
  { unfold range. apply in_map_iff. exists (Z.to_nat n).
    split; [unfold in_range in Hn; lia|]. apply in_seq.
    unfold in_range in Hn. lia. }
  apply Hall in Hin. unfold decimal_ok in Hin.
  apply andb_true_iff in Hin as [[H1 H2]%andb_true_iff H3].
  split_and!.
  - apply negb_true_iff, bool_decide_eq_false in H1. done.
  - by apply all_forallb.
  - by apply Z.eqb_eq.
Qed.

Lemma str_of_Z_short n : in_range n → short (str_of_Z n).
Proof.
  intros Hn.
  assert (Hall : forallb (λ k, Z.of_nat (length (str_of_Z k)) <=? 2)
                   (range 100) = true) by by vm_compute.
  rewrite forallb_forall in Hall. specialize (Hall n).
  assert (Hin : In n (range 100)).
  { unfold range. apply in_map_iff. exists (Z.to_nat n).
    split; [unfold in_range in Hn; lia|]. apply in_seq.
    unfold in_range in Hn. lia. }
  apply Hall, Z.leb_le in Hin. unfold short, int_max_str_digits. lia.
Qed.

(** Characters that end neither a line nor its code part. *)
Definition plain (c : ascii) : Prop := c ≠ nl ∧ c ≠ "#"%char.

Lemma digit_plain c : is_digit c = true → plain c.
Proof. intros Hc. split; intros ->; by vm_compute in Hc. Qed.

Lemma alphabet_facts c :
  c ∈ lit "NEWSx*" → plain c ∧ is_surr_char c = true ∧ norm_char c = c.
Proof.
  intros Hc. apply list_elem_of_In in Hc. cbn in Hc.
  destruct Hc as [<-|[<-|[<-|[<-|[<-|[<-|[]]]]]]];
    (split; [split; by intros [=]|split; by vm_compute]).
Qed.

Lemma direction_facts (dir : pystr) :
  dir ∈ [lit "N"; lit "E"; lit "W"; lit "S"; lit "X"] →
  ∃ d, dir = [d] ∧ plain d ∧ is_dir_char d = true ∧ str_upper dir = dir.
Proof.
  rewrite !elem_of_cons, elem_of_nil.
  intros [->|[->|[->|[->|[->|[]]]]]]; eexists; (split; [reflexivity|]);
    (split; [split; by intros [=]|split; by vm_compute]).
Qed.

Lemma remove_comment_plain s :
  Forall plain s → Parser.remove_comment s = s.
Proof.
  intros Hs. unfold Parser.remove_comment.
  assert (str_index "#"%char s = None) as ->; [|done].
  induction Hs as [|c s [_ Hc] Hs IH]; [done|]. simpl.
  rewrite decide_False by done. by rewrite IH.
Qed.

(** The text of a parsed rule is a rule line of the grammar. *)
Lemma rule_str_grammar r :
  parsed_shape r →
  clean (Rule.str r) = Rule.str r ∧ Rule.str r ≠ [] ∧
  Forall plain (Rule.str r) ∧
  in_grammar (Rule.str r) (str_of_Z (Rule.state r))
    (Rule.surroundings_pattern r) (Rule.direction r)
    (str_of_Z (Rule.new_state r)).
Proof.
  intros (Hst & Hlen & Hpat & Hdir & Hns).
  destruct (str_of_Z_small _ Hst) as (Hs1 & Hs2 & _).
  destruct (str_of_Z_small _ Hns) as (Hn1 & Hn2 & _).
  destruct (direction_facts _ Hdir) as (d & Ed & Hdp & Hd & _).
  assert (Hplain : Forall plain (Rule.str r)).
  { unfold Rule.str. rewrite Ed. rewrite !Forall_app. split_and!.
    - eapply Forall_impl; [exact Hs2|]. apply digit_plain.
    - repeat constructor; by intros [=].
    - eapply Forall_impl; [exact Hpat|]. intros c Hc.
      by apply alphabet_facts in Hc as [? _].
    - repeat constructor; by intros [=].
    - by constructor.
    - repeat constructor; by intros [=].
    - eapply Forall_impl; [exact Hn2|]. apply digit_plain. }
  assert (Hne : Rule.str r ≠ []).
  { unfold Rule.str. destruct (str_of_Z (Rule.state r)); done. }
  split_and!; try done.
  - unfold clean. rewrite remove_comment_plain by done. apply strip_id.
    + unfold Rule.str. destruct (str_of_Z (Rule.state r)) as [|c s]; [done|].
      apply Forall_cons in Hs2 as [Hc _]. cbn. by apply digit_not_space.
    + unfold Rule.str. rewrite !rev_app_distr, <- !app_assoc.
      eapply stops_head; [|apply Forall_rev; exact Hn2|apply digit_not_space].
      intros E. apply (f_equal (@rev ascii)) in E.
      rewrite rev_involutive in E. done.
  - exists (lit " "), (lit " "), (lit " "), d, (lit " "), [].
    unfold Rule.str. rewrite Ed, app_nil_r.
    split_and!; try done; try (by repeat constructor).
    eapply Forall_impl; [exact Hpat|]. intros c Hc.
    by apply alphabet_facts in Hc as (_ & ? & _).
Qed.

Lemma rule_of_groups_str r n :
  parsed_shape r →
  rule_of_groups (str_of_Z (Rule.state r)) (Rule.surroundings_pattern r)
    (Rule.direction r) (str_of_Z (Rule.new_state r)) n
  = at_line r n.
Proof.
  intros (Hst & Hlen & Hpat & Hdir & Hns).
  destruct (str_of_Z_small _ Hst) as (_ & _ & E1).
  destruct (str_of_Z_small _ Hns) as (_ & _ & E4).
  destruct (direction_facts _ Hdir) as (d & _ & _ & _ & E3).
  unfold rule_of_groups, at_line. rewrite E1, E3, E4. f_equal.
  clear -Hpat. induction Hpat as [|c s Hc Hs IH]; [done|].
  cbn [map]. rewrite IH. by apply alphabet_facts in Hc as (_ & _ & ->).
Qed.

Lemma parses_render n rules :
  Forall parsed_shape rules →
  parses n (map Rule.str rules) (renumber n rules).
Proof.
  intros Hall. revert n.
  induction Hall as [|r rules Hr Hall IH]; intros n; [constructor|].
  cbn [map renumber]. rewrite <- (rule_of_groups_str r n) by done.
  destruct (rule_str_grammar r Hr) as (Hclean & Hne & _ & Hg).
  pose proof Hr as (Hst & _ & _ & _ & Hns).
  destruct (str_of_Z_small _ Hst) as (_ & _ & E1).
  destruct (str_of_Z_small _ Hns) as (_ & _ & E4).
  apply parses_rule; rewrite ?E1, ?E4; try done.
  - apply reads_as_clean. by rewrite Hclean.
  - by apply str_of_Z_short.
  - by apply str_of_Z_short.
Qed.

Lemma split_nl_plain s : Forall plain s → split_nl s = [s].
Proof.
  induction 1 as [|c s [Hc _] Hs IH]; [done|]. simpl.
  rewrite decide_False by done. by rewrite IH.
Qed.

Lemma split_nl_app s t :
  Forall plain s → split_nl (s ++ nl :: t) = s :: split_nl t.
Proof.
  induction 1 as [|c s [Hc _] Hs IH]; [done|]. simpl.
  rewrite decide_False by done. by rewrite IH.
Qed.

Lemma split_join ls :
  ls ≠ [] → Forall (Forall plain) ls → split_nl (join_nl ls) = ls.
Proof.
  intros Hne Hall. induction Hall as [|l ls Hl Hall IH]; [done|].
  destruct ls as [|l' ls].
  - cbn. by apply split_nl_plain.
  - change (join_nl (l :: l' :: ls)) with (l ++ nl :: join_nl (l' :: ls)).
    rewrite split_nl_app by done. by rewrite IH.
Qed.

Lemma renumber_same n rules : Forall2 same_rule (renumber n rules) rules.
Proof.
  revert n. induction rules as [|r rules IH]; intros n; constructor; [|done].
  by split_and!.
Qed.

Lemma renumber_lookup n rules k r :
  renumber n rules !! k = Some r → Rule.line_number r = n + Z.of_nat k.
Proof.
  revert n k. induction rules as [|r0 rules IH]; intros n [|k]; simpl; try done.
  - intros [= <-]. cbn. lia.
  - intros Hk%IH. lia.
Qed.

Lemma renumber_id n rules :
  renumber n rules = rules ↔
  ∀ k r, rules !! k = Some r → Rule.line_number r = n + Z.of_nat k.
Proof.
  revert n. induction rules as [|r0 rules IH]; intros n; simpl; [by split|].
  split.
  - intros [= E0 E]. intros [|k] r; simpl.
    + intros [= <-]. rewrite <- E0 at 1. cbn. lia.
    + intros Hk. eapply IH in E; [|done]. lia.
  - intros Hk. f_equal.
    + specialize (Hk 0%nat r0 eq_refl). destruct r0. unfold at_line. cbn in *.
      f_equal. lia.
    + apply IH. intros k r Hr. specialize (Hk (S k) r Hr). lia.
Qed.

End RoundTrip.

(** C5, as the code has it. For every text that parses, the rendered rules
    parse again, to the same rules except that each carries the number of
    its line in the rendered text: the lists agree on state, pattern,
    direction and new state, and they are equal exactly when every rule of
    the first parse already sat on the line of its position. *)
Theorem parse_render_parse (text : pystr) (rules : list Rule.t) :
  parse_rules text = Ok rules →
  ∃ rules',
    parse_rules (render_rules rules) = Ok rules' ∧
    Forall2 same_rule rules' rules ∧
    (∀ k r, rules' !! k = Some r → Rule.line_number r = Z.of_nat k + 1) ∧
    (rules' = rules ↔
     ∀ k r, rules !! k = Some r → Rule.line_number r = Z.of_nat k + 1).
Proof.
  intros Hparse. exists (renumber 1 rules).
  assert (Hshape : Forall parsed_shape rules).
  { unfold parse_rules in Hparse.
    apply parse_lines_Ok in Hparse as (rs & Hp & ->). cbn.
    by eapply parses_shape. }
  split_and!.
  - unfold parse_rules, render_rules. apply parse_lines_Ok.
    exists (renumber 1 rules). split; [|done].
    destruct rules as [|r rules].
    + cbn. apply parses_blank; constructor.
    + rewrite split_join; [by apply parses_render|done|].
      apply Forall_fmap. eapply Forall_impl; [exact Hshape|].
      intros r' Hr'. by apply rule_str_grammar in Hr' as (_ & _ & ? & _).
  - apply renumber_same.
  - intros k r Hk%renumber_lookup. lia.
  - rewrite renumber_id. split; intros H k r Hk; specialize (H k r Hk); lia.
Qed.

(** C5, as stated, fails: a rule that follows a comment line carries line
    number 2, and line number 1 once rendered and parsed again. *)
Lemma render_changes_line_numbers :
  parse_rules commented_text = Ok [north_rule 2] ∧
  parse_rules (render_rules [north_rule 2]) = Ok [north_rule 1] ∧
  parse_rules (render_rules [north_rule 2]) ≠ parse_rules commented_text.
Proof. split_and!; [by vm_compute|by vm_compute|by vm_compute]. Qed.

(** * Worked examples *)

Section Examples.

(** The empty 5x5 room of the module's documentation. *)
Definition demo_grid : list (list Cell) :=
  [ [WALL; WALL; WALL; WALL; WALL];
    [WALL; EMPTY; EMPTY; EMPTY; WALL];
    [WALL; EMPTY; EMPTY; EMPTY; WALL];
    [WALL; EMPTY; EMPTY; EMPTY; WALL];
    [WALL; WALL; WALL; WALL; WALL] ].

Definition demo_room : Room.t :=
  {| Room.grid := demo_grid; Room.height := 5; Room.width := 5 |}.

(** A room with a single empty cell. *)
Definition cell_grid : list (list Cell) :=
  [ [WALL; WALL; WALL];
    [WALL; EMPTY; WALL];
    [WALL; WALL; WALL] ].

Definition cell_room : Room.t :=
  {| Room.grid := cell_grid; Room.height := 3; Room.width := 3 |}.

(** [0 x*** -> N 0] and [0 N*** -> X 1], the rules of the documentation. *)
Definition demo_rules : list Rule.t :=
  [ Rule.mk 0 (lit "x***") (lit "N") 0 1;
    Rule.mk 0 (lit "N***") (lit "X") 1 2 ].

(** An exact rule listed before a wildcard rule that also fits. *)
Definition exact_rule : Rule.t := Rule.mk 0 (lit "xxxx") (lit "N") 0 1.
Definition wide_rule : Rule.t := Rule.mk 0 (lit "****") (lit "E") 0 2.

(** A rule that walks north whatever is there. *)
Definition blind_rule : Rule.t := Rule.mk 0 (lit "****") (lit "N") 0 1.

Example demo_room_built : Room.init demo_grid = Ok demo_room.
Proof. reflexivity. Qed.

Example demo_surroundings :
  Picobot.get_surroundings (fresh demo_room demo_rules (1, 1))
  = Ok (lit "NxWx").
Proof. by vm_compute. Qed.

Example demo_parse :
  parse_rules (lit "0 x*** -> N 0" ++ [nl] ++ lit "0 n*** -> x 1")
  = Ok demo_rules.
Proof. by vm_compute. Qed.

Example demo_parse_error :
  parse_rules (lit "0 x*** -> N 0" ++ [nl] ++ lit "100 xxxx -> N 0")
  = Raise (ValueError
      (lit "Invalid state 100 at line 2. State must be between 0 and 99.")).
Proof. by vm_compute. Qed.

(** A run that halts and still succeeds: in the one-cell room, without
    rules and without the coverage stop, the first step halts, and the
    result reports both the halt and the success. *)
Example run_halted_yet_successful :
  ∃ bot' res,
    Picobot.run (fresh cell_room [] (1, 1)) 5 false = Ok (bot', res) ∧
    RunResult.halted res = true ∧ RunResult.success res = true ∧
    RunResult.steps res = 1.
Proof. eexists _, _. split; [by vm_compute|]. by vm_compute. Qed.

End Examples.

Lemma find_matching_rule_first_witness :
  length (lit "xxxx") = 4%nat ∧
  Forall four_slots [exact_rule; wide_rule] ∧
  Picobot.find_matching_rule
    (fresh demo_room [exact_rule; wide_rule] (2, 2)) 0 (lit "xxxx")
  = Some exact_rule.
Proof.
  split; [reflexivity|]. split; [by repeat constructor|].
  destruct (find_matching_rule_first
              (fresh demo_room [exact_rule; wide_rule] (2, 2)) 0 (lit "xxxx")
              eq_refl ltac:(by repeat constructor))
    as (_ & _ & Hfirst).
  destruct (Hfirst [] exact_rule [] wide_rule [] eq_refl)
    as (k & r & _ & _ & Hfind & Hr).
  - by apply matches_fits.
  - by apply matches_fits.
  - rewrite Hfind. f_equal. apply Hr. constructor.
Defined.

Lemma is_wall_spec_witness :
  Room.init demo_grid = Ok demo_room ∧
  ∃ b, Room.is_wall demo_room 100 100 = Ok b ∧
       (b = true ↔
        (100 < 0 ∨ 100 >= Room.height demo_room ∨
         100 < 0 ∨ 100 >= Room.width demo_room) ∨
        (0 ≤ 100 ∧ 0 ≤ 100 ∧ stored demo_room 100 100 = Some WALL)).
Proof.
  split; [reflexivity|]. apply (is_wall_spec demo_grid). reflexivity.
Defined.

Lemma step_halted_noop_witness :
  let bot := Picobot.mk demo_room demo_rules (1, 1) 1 {[ (1, 1) ]} [] true
               (lit "stopped") in
  Picobot._halted bot = true ∧ Picobot.step bot = Ok (bot, false).
Proof.
  intros bot. split; [reflexivity|]. apply step_halted_noop. reflexivity.
Defined.

Lemma step_no_rule_witness :
  let bot := fresh demo_room [] (1, 1) in
  Room.init demo_grid = Ok (Picobot.room bot) ∧
  Picobot._halted bot = false ∧
  ∃ bot', Picobot.step bot = Ok (bot', false) ∧
          Picobot._halt_reason bot'
          = lit "No rule matches state 0 with surroundings NxWx".
Proof.
  intros bot. split; [reflexivity|]. split; [reflexivity|].
  destruct (step_no_rule demo_grid bot eq_refl eq_refl)
    as (sur & Hsur & _ & Hstep).
  destruct (Hstep ltac:(constructor)) as (bot' & Hs & Hhalt).
  exists bot'. split; [exact Hs|].
  destruct Hhalt as (_ & _ & _ & _ & _ & _ & -> & _).
  vm_compute in Hsur. injection Hsur as <-. reflexivity.
Defined.

Lemma step_into_wall_witness :
  let bot := fresh demo_room [blind_rule] (1, 1) in
  Room.init demo_grid = Ok demo_room ∧
  ∃ bot', Picobot.step bot = Ok (bot', false) ∧
          Picobot.position bot' = (1, 1) ∧
          Picobot.visited bot' = {[ (1, 1) ]} ∧
          Picobot._halt_reason bot'
          = lit "Rule '0 **** -> N 0' tried to move into wall at (0, 1)".
Proof.
  intros bot. split; [reflexivity|].
  destruct (step_into_wall demo_grid demo_room eq_refl) as (Hstep & _ & _).
  destruct (Hstep bot (lit "NxWx") blind_rule (-1, 0))
    as (bot' & Hs & Hhalt); try by vm_compute.
  exists bot'. split; [exact Hs|].
  destruct Hhalt as (_ & _ & -> & _ & -> & _ & -> & _).
  split_and!; by vm_compute.
Defined.

Lemma run_success_coverage_witness :
  let bot := fresh demo_room demo_rules (1, 1) in
  Room.init demo_grid = Ok (Picobot.room bot) ∧
  ∃ bot' res,
    Picobot.run bot 100 true = Ok (bot', res) ∧
    (RunResult.success res = true ↔
     len_set (Picobot.visited bot') >= 9) ∧
    0 ≤ RunResult.steps res ≤ 100.
Proof.
  intros bot. split; [reflexivity|].
  destruct (run_success_coverage demo_grid bot 100 true eq_refl)
    as [Hprops Htotal].
  destruct Htotal as (bot' & res & Hrun).
  - unfold valid_direction. repeat constructor; apply (bool_decide_unpack _);
      by vm_compute.
  - by vm_compute.
  - exists bot', res. split; [exact Hrun|].
    destruct (Hprops bot' res Hrun) as (Hs & _ & _ & _ & Hsteps & _).
    split; [exact Hs|exact Hsteps].
Defined.

Lemma run_coverage_ratio_witness :
  reachable (fresh demo_room demo_rules (2, 2)) ∧
  ∃ bot' res,
    Picobot.run (fresh demo_room demo_rules (2, 2)) 100 true
    = Ok (bot', res) ∧
    RunResult.coverage res
    = (inject_Z (100 * RunResult.visited res)
       / inject_Z (RunResult.total res))%Q.
Proof.
  assert (Hreach : reachable (fresh demo_room demo_rules (2, 2))).
  { apply (reach_init demo_grid demo_room (RulesList demo_rules)
             (Some (2, 2))); [reflexivity|by vm_compute]. }
  split; [exact Hreach|].
  destruct (run_coverage_ratio _ 100 true Hreach) as (_ & Hcov & _).
  destruct (Picobot.run (fresh demo_room demo_rules (2, 2)) 100 true)
    as [[bot' res]|] eqn:Hrun; [|by vm_compute in Hrun].
  exists bot', res. split; [done|].
  by destruct (Hcov bot' res eq_refl) as (_ & _ & ? & _).
Defined.

Lemma parse_render_parse_witness :
  parse_rules commented_text = Ok [north_rule 2] ∧
  ∃ rules',
    parse_rules (render_rules [north_rule 2]) = Ok rules' ∧
    Forall2 same_rule rules' [north_rule 2].
Proof.
  split; [by vm_compute|].
  destruct (parse_render_parse commented_text [north_rule 2])
    as (rules' & Hparse & Hsame & _); [by vm_compute|].
  exists rules'. split; [exact Hparse|exact Hsame].
Defined.

Lemma test_rules_all_positions_spec_witness :
  Room.init cell_grid = Ok cell_room ∧
  ∃ res,
    test_rules_all_positions cell_room (RulesList [blind_rule]) 10 = Ok res ∧
    TestResult.success res = true ∧
    TestResult.positions_tested res = 1 ∧
    TestResult.positions_passed res = 1.
Proof.
  split; [reflexivity|].
  destruct (test_rules_all_positions_spec cell_grid cell_room
              (RulesList [blind_rule]) 10 eq_refl) as (_ & _ & Hone).
  destruct (Hone [blind_rule] (1, 1))
    as (res & Hres & Hs & Ht & Hp & _); [reflexivity|by vm_compute|].
  exists res. split_and!; assumption.
Defined.

(** * Further properties of the code *)

(** ** Room construction and the enumeration of cells *)

Section RoomMore.

Definition row_length_error (row_length : nat) (i : Z) (len : nat) : PyErr :=
  ValueError
    (lit "Inconsistent row lengths: row 0 has "
       ++ str_of_Z (Z.of_nat row_length)
       ++ lit " columns, but row " ++ str_of_Z i ++ lit " has "
       ++ str_of_Z (Z.of_nat len) ++ lit " columns.").

Lemma check_rows_Raise n i rows e :
  Room.check_rows n i rows = Raise e →
  ∃ k row,
    rows !! k = Some row ∧ length row ≠ n ∧
    (∀ j r, (j < k)%nat → rows !! j = Some r → length r = n) ∧
    e = row_length_error n (i + Z.of_nat k) (length row).
Proof.
  revert i. induction rows as [|row rows IH]; intros i; simpl; [done|].
  destruct (decide (length row ≠ n)) as [Hne|Heq%dec_stable].
  - intros [= <-]. exists 0%nat, row. split_and!; try done.
    + intros j r Hj. lia.
    + by rewrite Z.add_0_r.
  - intros (k & r & Hk & Hlen & Hbefore & ->)%IH. exists (S k), r.
    split_and!; try done.
    + intros [|j] r' Hj Hr'; simplify_eq/=; [done|].
      eapply Hbefore; [|done]. lia.
    + f_equal. lia.
Qed.

Lemma init_grid room g : Room.init g = Ok room → Room.init (Room.grid room) = Ok room.
Proof. intros H. by pose proof H as (_ & -> & _)%init_Ok. Qed.

Lemma init_uniform g w :
  g ≠ [] → (0 < w)%nat → Forall (λ row, length row = w) g →
  Room.init g
  = Ok {| Room.grid := g;
          Room.height := Z.of_nat (length g);
          Room.width := Z.of_nat w |}.
Proof.
  intros Hg Hw Hall. unfold Room.init.
  destruct g as [|row0 g]; [done|].
  pose proof Hall as [Hrow0 _]%Forall_cons.
  destruct row0 as [|c row0]; [cbn in Hrow0; lia|].
  assert (Room.check_rows (length (c :: row0)) 0 ((c :: row0) :: g) = Ok tt)
    as ->.
  { apply check_rows_Ok. by rewrite Hrow0. }
  rsimpl. by rewrite Hrow0.
Qed.

Lemma sorted_NoDup (l : list (Z * Z)) :
  StronglySorted row_major_lt l → NoDup l.
Proof.
  induction 1 as [|p l Hs IH Hall]; constructor; [|done].
  intros Hin. eapply Forall_forall in Hall; [|done].
  unfold row_major_lt in Hall. lia.
Qed.

Lemma is_empty_true room row col :
  room_wf room →
  Room.is_empty room row col = Ok true ↔
  (row, col) ∈ grid_cells 0 (Room.grid room).
Proof.
  intros Hwf. unfold Room.is_empty.
  destruct (is_wall_total room row col Hwf) as [w Hw]. rewrite Hw. rsimpl.
  split.
  - intros [= Hn]. apply negb_true_iff in Hn. subst w.
    apply is_wall_false in Hw as [[Hr Hc] Hs].
    apply elem_of_grid_cells_stored. cbn. split_and!; [lia|lia|done].
  - intros Hin%(grid_cells_open room _ Hwf). cbn in Hin.
    rewrite Hw in Hin. by injection Hin as ->.
Qed.

End RoomMore.

(** X1. The constructor accepts a grid exactly when it has a row, the first
    row has a cell and every row is as long as the first; the room then
    records the grid, its number of rows and the length of its rows.
    Otherwise it raises "Grid cannot be empty." for a grid without a row
    or with an empty first row, and else the row-length error that names
    the first row whose length differs, with both lengths. *)
Theorem room_init_cases (g : list (list Cell)) :
  match Room.init g with
  | Ok room =>
      (∃ row0, head g = Some row0 ∧ row0 ≠ [] ∧
               Forall (λ row, length row = length row0) g ∧
               Room.width room = Z.of_nat (length row0)) ∧
      Room.grid room = g ∧
      Room.height room = Z.of_nat (length g)
  | Raise e =>
      (e = ValueError (lit "Grid cannot be empty.") ∧
       (g = [] ∨ head g = Some [])) ∨
      (∃ row0 k row,
         head g = Some row0 ∧ row0 ≠ [] ∧
         g !! k = Some row ∧ length row ≠ length row0 ∧
         (∀ j r, (j < k)%nat → g !! j = Some r → length r = length row0) ∧
         e = row_length_error (length row0) (Z.of_nat k) (length row))
  end.
Proof.
  unfold Room.init. destruct g as [|[|c row0] g]; [left; eauto..|].
  destruct (Room.check_rows _ _ _) as [[]|e] eqn:Hc; rsimpl.
  - apply check_rows_Ok in Hc. cbn. split_and!; try done.
    exists (c :: row0). by split_and!.
  - apply check_rows_Raise in Hc as (k & row & Hk & Hlen & Hbefore & ->).
    right. exists (c :: row0), k, row. by split_and!.
Qed.

(** X2. On a room built by the constructor, [get_empty_cells] lists, without
    repetition and in row-major order, exactly the coordinates at which
    [is_empty] returns true, and [count_empty_cells] is the length of that
    list. *)
Theorem empty_cells_agree (g : list (list Cell)) (room : Room.t) :
  Room.init g = Ok room →
  ∃ cells,
    Room.get_empty_cells room = Ok cells ∧
    NoDup cells ∧
    StronglySorted row_major_lt cells ∧
    (∀ row col, (row, col) ∈ cells ↔ Room.is_empty room row col = Ok true) ∧
    Room.count_empty_cells room = Z.of_nat (length cells).
Proof.
  intros (Hwf & _)%init_Ok. exists (grid_cells 0 (Room.grid room)).
  split_and!.
  - by apply get_empty_cells_spec.
  - apply sorted_NoDup, grid_cells_sorted.
  - apply grid_cells_sorted.
  - intros row col. symmetry. by apply is_empty_true.
  - apply count_empty_cells_length.
Qed.

Lemma empty_cells_agree_witness :
  Room.init demo_grid = Ok demo_room ∧
  ∃ cells,
    Room.get_empty_cells demo_room = Ok cells ∧
    Room.count_empty_cells demo_room = Z.of_nat (length cells).
Proof.
  split; [reflexivity|].
  destruct (empty_cells_agree demo_grid demo_room eq_refl)
    as (cells & Hcells & _ & _ & _ & Hcount).
  exists cells. split; assumption.
Defined.

(** ** The empty room *)

Section EmptyRoom.

(** The cell [empty_room] puts at a coordinate. *)
Definition boundary_cell (height width row col : Z) : Cell :=
  if (row =? 0) || (row =? height - 1) || (col =? 0) || (col =? width - 1)
  then WALL else EMPTY.

(** The interior of a [height] by [width] room. *)
Definition interior (height width row col : Z) : bool :=
  (0 <? row) && (row <? height - 1) && (0 <? col) && (col <? width - 1).

Definition boundary_grid (height width : Z) : list (list Cell) :=
  map (λ i, map (λ j, boundary_cell height width (Z.of_nat i) (Z.of_nat j))
              (seq 0 (Z.to_nat width)))
      (seq 0 (Z.to_nat height)).

Lemma boundary_row_spec h w r a n row :
  Room.boundary_row h w r (map Z.of_nat (seq a n)) row
  = row ++ map (λ j, boundary_cell h w r (Z.of_nat j)) (seq a n).
Proof.
  revert a row. induction n as [|n IH]; intros a row; simpl.
  - by rewrite app_nil_r.
  - rewrite IH. unfold boundary_cell.
    destruct ((r =? 0) || (r =? h - 1) || (Z.of_nat a =? 0)
              || (Z.of_nat a =? w - 1)); by rewrite <- app_assoc.
Qed.

Lemma boundary_rows_spec h w a n grid :
  Room.boundary_rows h w (map Z.of_nat (seq a n)) grid
  = grid ++ map (λ i, map (λ j, boundary_cell h w (Z.of_nat i) (Z.of_nat j))
                        (seq 0 (Z.to_nat w)))
                (seq a n).
Proof.
  revert a grid. induction n as [|n IH]; intros a grid; simpl.
  - by rewrite app_nil_r.
  - rewrite IH. unfold range. rewrite boundary_row_spec.
    by rewrite <- app_assoc.
Qed.

(** How many of the columns [a], ..., [a+n-1] lie strictly between the
    first and the last of [w] columns. *)
Definition between (w : Z) (a n : nat) : Z :=
  Z.max 0 (Z.min (Z.of_nat a + Z.of_nat n) (w - 1) - Z.max (Z.of_nat a) 1).

Lemma between_S w a n :
  between w a (S n)
  = (if (0 <? Z.of_nat a) && (Z.of_nat a <? w - 1) then 1 else 0)
    + between w (S a) n.
Proof.
  unfold between.
  destruct (Z.ltb_spec 0 (Z.of_nat a)), (Z.ltb_spec (Z.of_nat a) (w - 1));
    cbn [andb]; lia.
Qed.

Lemma boundary_cell_EMPTY h w r c :
  boundary_cell h w r c = EMPTY ↔
  r ≠ 0 ∧ r ≠ h - 1 ∧ c ≠ 0 ∧ c ≠ w - 1.
Proof.
  unfold boundary_cell.
  destruct (Z.eqb_spec r 0), (Z.eqb_spec r (h - 1)), (Z.eqb_spec c 0),
    (Z.eqb_spec c (w - 1)); cbn; split; intros; try done; lia.
Qed.

Lemma count_boundary_row h w r a n count :
  0 ≤ r < h → Z.of_nat a + Z.of_nat n ≤ w →
  fold_left
    (λ count cell, if decide (cell = EMPTY) then count + 1 else count)
    (map (λ j, boundary_cell h w r (Z.of_nat j)) (seq a n)) count
  = count + (if (0 <? r) && (r <? h - 1) then between w a n else 0).
Proof.
  intros Hr. revert a count. induction n as [|n IH]; intros a count Hn.
  - cbn [seq map fold_left]. unfold between.
    destruct ((0 <? r) && (r <? h - 1)); lia.
  - cbn [seq map fold_left]. rewrite IH by lia. rewrite between_S.
    destruct (decide (boundary_cell h w r (Z.of_nat a) = EMPTY)) as [He|He];
      rewrite boundary_cell_EMPTY in He;
      destruct (Z.ltb_spec 0 r), (Z.ltb_spec r (h - 1)),
        (Z.ltb_spec 0 (Z.of_nat a)), (Z.ltb_spec (Z.of_nat a) (w - 1));
      cbn [andb]; lia.
Qed.

Lemma count_boundary_rows h w a n count :
  2 ≤ w → Z.of_nat a + Z.of_nat n ≤ h →
  fold_left
    (λ count row,
       fold_left
         (λ count cell, if decide (cell = EMPTY) then count + 1 else count)
         row count)
    (map (λ i, map (λ j, boundary_cell h w (Z.of_nat i) (Z.of_nat j))
                 (seq 0 (Z.to_nat w)))
         (seq a n)) count
  = count + (w - 2) * between h a n.
Proof.
  intros Hw. revert a count. induction n as [|n IH]; intros a count Hn.
  - cbn [seq map fold_left]. unfold between. lia.
  - cbn [seq map fold_left].
    rewrite (count_boundary_row h w (Z.of_nat a) 0 (Z.to_nat w)) by lia.
    rewrite IH by lia. rewrite between_S.
    assert (between w 0 (Z.to_nat w) = w - 2) as -> by (unfold between; lia).
    destruct ((0 <? Z.of_nat a) && (Z.of_nat a <? h - 1)); lia.
Qed.

Lemma boundary_grid_lookup h w r c :
  0 ≤ r < h → 0 ≤ c < w →
  (row ← boundary_grid h w !! Z.to_nat r; row !! Z.to_nat c)
  = Some (boundary_cell h w r c).
Proof.
  intros Hr Hc. unfold boundary_grid.
  rewrite list_lookup_fmap, lookup_seq_lt by lia. cbn.
  rewrite list_lookup_fmap, lookup_seq_lt by lia. cbn.
  by rewrite !Z2Nat.id by lia.
Qed.

Lemma empty_room_Ok h w :
  3 ≤ h → 3 ≤ w →
  Room.empty_room h w
  = Ok {| Room.grid := boundary_grid h w; Room.height := h; Room.width := w |}.
Proof.
  intros Hh Hw. unfold Room.empty_room.
  destruct (Z.ltb_spec h 3); [lia|]. destruct (Z.ltb_spec w 3); [lia|].
  cbn [orb]. unfold range.
  rewrite (boundary_rows_spec h w 0 (Z.to_nat h) []). cbn [app].
  fold (boundary_grid h w).
  rewrite (init_uniform (boundary_grid h w) (Z.to_nat w)).
  - unfold boundary_grid at 2. rewrite length_map, length_seq.
    by rewrite !Z2Nat.id by lia.
  - unfold boundary_grid. intros E%(f_equal length).
    rewrite length_map, length_seq in E. cbn in E. lia.
  - lia.
  - unfold boundary_grid. apply Forall_fmap, Forall_forall. intros i _. cbn.
    by rewrite length_map, length_seq.
Qed.

End EmptyRoom.

(** X3. [empty_room] raises its [ValueError] exactly when the height or the
    width is below 3. Otherwise it returns a room of that height and width
    in which [is_wall] is false exactly on the interior
    [0 < row < height - 1], [0 < col < width - 1], so that it has
    [(height - 2) * (width - 2)] empty cells; [create_empty_room] returns
    the same room, and the 25 by 25 room with 529 empty cells by default. *)
Theorem empty_room_spec (height width : Z) :
  (height < 3 ∨ width < 3 →
   Room.empty_room height width
   = Raise (ValueError
       (lit "Room must be at least 3x3 to have an interior. Got "
          ++ str_of_Z height ++ lit "x" ++ str_of_Z width ++ lit "."))) ∧
  (3 ≤ height → 3 ≤ width →
   ∃ room,
     Room.empty_room height width = Ok room ∧
     Rooms.create_empty_room (Some height) (Some width) = Ok room ∧
     Room.height room = height ∧ Room.width room = width ∧
     (∀ row col,
        Room.is_wall room row col
        = Ok (negb (interior height width row col))) ∧
     Room.count_empty_cells room = (height - 2) * (width - 2)) ∧
  (∃ room,
     Rooms.create_empty_room None None = Ok room ∧
     Room.height room = 25 ∧ Room.width room = 25 ∧
     Room.count_empty_cells room = 529).
Proof.
  assert (Hgood : ∀ h w, 3 ≤ h → 3 ≤ w →
    ∃ room,
      Room.empty_room h w = Ok room ∧
      Room.height room = h ∧ Room.width room = w ∧
      (∀ row col,
         Room.is_wall room row col = Ok (negb (interior h w row col))) ∧
      Room.count_empty_cells room = (h - 2) * (w - 2)).
  { intros h w Hh Hw. eexists. split; [by apply empty_room_Ok|].
    split_and!; try done.
    - intros row col.
      destruct (decide (in_bounds
        {| Room.grid := boundary_grid h w; Room.height := h; Room.width := w |}
        row col)) as [Hb|Hb].
      + rewrite is_wall_in_bounds by done. unfold in_bounds in Hb. cbn in Hb.
        unfold stored. cbn [Room.grid].
        rewrite boundary_grid_lookup by lia. f_equal.
        unfold boundary_cell, interior.
        destruct (Z.eqb_spec row 0), (Z.eqb_spec row (h - 1)),
          (Z.eqb_spec col 0), (Z.eqb_spec col (w - 1)),
          (Z.ltb_spec 0 row), (Z.ltb_spec row (h - 1)),
          (Z.ltb_spec 0 col), (Z.ltb_spec col (w - 1)); cbn; try done; lia.
      + rewrite is_wall_out_of_bounds by done. f_equal.
        unfold in_bounds in Hb. cbn in Hb. unfold interior.
        destruct (Z.ltb_spec 0 row), (Z.ltb_spec row (h - 1)),
          (Z.ltb_spec 0 col), (Z.ltb_spec col (w - 1)); cbn; try done; lia.
    - unfold Room.count_empty_cells. cbn [Room.grid]. unfold boundary_grid.
      rewrite (count_boundary_rows h w 0 (Z.to_nat h) 0) by lia.
      unfold between. lia. }
  split_and!.
  - intros Hsmall. unfold Room.empty_room.
    destruct (Z.ltb_spec height 3), (Z.ltb_spec width 3); cbn [orb];
      try done; lia.
  - intros Hh Hw. destruct (Hgood height width Hh Hw)
      as (room & Hroom & ? & ? & ? & ?).
    exists room. by split_and!.
  - destruct (Hgood 25 25 ltac:(lia) ltac:(lia))
      as (room & Hroom & ? & ? & ? & ?).
    exists room. by split_and!.
Qed.

(** ** Splitting, joining and stripping text *)

Section TextFacts.

Definition no_nl (s : pystr) : Prop := Forall (λ c, c ≠ nl) s.

Lemma split_nl_line s : no_nl s → split_nl s = [s].
Proof.
  induction 1 as [|c s Hc Hs IH]; [done|]. simpl.
  rewrite decide_False by done. by rewrite IH.
Qed.

Lemma split_nl_cons_line s t :
  no_nl s → split_nl (s ++ nl :: t) = s :: split_nl t.
Proof.
  induction 1 as [|c s Hc Hs IH]; [done|]. simpl.
  rewrite decide_False by done. by rewrite IH.
Qed.

Lemma split_join_lines ls :
  ls ≠ [] → Forall no_nl ls → split_nl (join_nl ls) = ls.
Proof.
  intros Hne Hall. induction Hall as [|l ls Hl Hall IH]; [done|].
  destruct ls as [|l' ls].
  - cbn. by apply split_nl_line.
  - change (join_nl (l :: l' :: ls)) with (l ++ nl :: join_nl (l' :: ls)).
    rewrite split_nl_cons_line by done. by rewrite IH.
Qed.

Lemma split_nl_cons c s :
  split_nl (c :: s) =
  if decide (c = nl) then [] :: split_nl s
  else match split_nl s with
       | l :: ls => (c :: l) :: ls
       | [] => [[c]]
       end.
Proof. done. Qed.

(** [split('\n')] returns at least one line, no line holds a newline, and
    joining the lines gives the text back. *)
Lemma split_nl_facts s :
  split_nl s ≠ [] ∧ Forall no_nl (split_nl s) ∧ join_nl (split_nl s) = s.
Proof.
  induction s as [|c s (Hne & Hall & Hjoin)]; [by repeat constructor|].
  rewrite split_nl_cons. destruct (decide (c = nl)) as [->|Hc].
  - split_and!; [done|by repeat constructor|].
    destruct (split_nl s) as [|l ls]; [done|].
    change (join_nl ([] :: l :: ls)) with (nl :: join_nl (l :: ls)).
    by rewrite Hjoin.
  - destruct (split_nl s) as [|l ls]; [done|].
    apply Forall_cons in Hall as [Hl Hls].
    split_and!; [done|by repeat constructor|].
    destruct ls as [|l' ls]; cbn in *; by rewrite <- Hjoin.
Qed.

Lemma strip_idem s : strip (strip s) = strip s.
Proof.
  destruct (strip_spec s) as (_ & _ & _ & _ & _ & H1 & H2).
  by apply strip_id.
Qed.

Lemma join_nl_snoc ls l :
  ls ≠ [] → join_nl (ls ++ [l]) = join_nl ls ++ nl :: l.
Proof.
  induction ls as [|x ls IH]; [done|]. intros _.
  destruct ls as [|y ls]; [done|].
  change (join_nl ((x :: y :: ls) ++ [l]))
    with (x ++ nl :: join_nl ((y :: ls) ++ [l])).
  rewrite IH by done.
  change (join_nl (x :: y :: ls)) with (x ++ nl :: join_nl (y :: ls)).
  by rewrite <- app_assoc.
Qed.

Lemma rev_join_nl ls : rev (join_nl ls) = join_nl (rev (map (@rev ascii) ls)).
Proof.
  induction ls as [|l ls IH]; [done|].
  destruct ls as [|l' ls]; [done|].
  change (join_nl (l :: l' :: ls)) with (l ++ nl :: join_nl (l' :: ls)).
  rewrite rev_app_distr. cbn [rev]. rewrite IH. cbn [map rev].
  assert (Hk : rev (map (@rev ascii) ls) ++ [rev l'] ≠ []).
  { intros E%(f_equal length). rewrite length_app in E. cbn in E. lia. }
  revert Hk. generalize (rev (map (@rev ascii) ls) ++ [rev l']). intros k Hk.
  symmetry. etrans; [exact (join_nl_snoc k (rev l) Hk)|].
  by rewrite <- app_assoc.
Qed.

(** A text whose lines are non-empty and free of white space is left as it
    is by [strip]. *)
Definition solid (l : pystr) : Prop :=
  l ≠ [] ∧ Forall (λ c, is_space c = false) l.

Lemma stops_join_nl ls :
  ls ≠ [] → Forall solid ls → stops is_space (join_nl ls).
Proof.
  destruct ls as [|l ls]; [done|]. intros _ [[Hne Hl] _]%Forall_cons.
  destruct l as [|c l]; [done|]. apply Forall_cons in Hl as [Hc _].
  by destruct ls.
Qed.

Lemma strip_solid ls :
  ls ≠ [] → Forall solid ls → strip (join_nl ls) = join_nl ls.
Proof.
  intros Hne Hall. apply strip_id; [by apply stops_join_nl|].
  rewrite rev_join_nl. apply stops_join_nl.
  - intros E%(f_equal length). rewrite length_rev, length_map in E.
    by destruct ls.
  - apply Forall_rev, Forall_fmap. eapply Forall_impl; [exact Hall|].
    intros l [Hl Hs]. split; [|by apply Forall_rev].
    intros E%(f_equal length). rewrite length_rev in E. by destruct l.
Qed.

End TextFacts.

(** ** Rooms as text *)

Section RoomText.

(** A character [from_string] accepts, and the cell it stands for. *)
Definition room_char (c : ascii) : Prop := c ∈ lit "#W. ".

Definition cell_of_char (c : ascii) : Cell :=
  if decide (c ∈ lit "#W") then WALL else EMPTY.

(** The character [to_string] draws for a cell. *)
Definition glyph (visited : gset (Z * Z)) (pos : option (Z * Z)) (r c : Z)
    (cell : Cell) : ascii :=
  if decide (pos = Some (r, c)) then "P"%char
  else if decide (cell = WALL) then "#"%char
  else if decide ((r, c) ∈ visited) then "o"%char
  else "."%char.

Fixpoint row_glyphs (visited : gset (Z * Z)) (pos : option (Z * Z)) (r : Z)
    (j : nat) (row : list Cell) : pystr :=
  match row with
  | [] => []
  | cell :: row' =>
      glyph visited pos r (Z.of_nat j) cell
        :: row_glyphs visited pos r (S j) row'
  end.

Fixpoint grid_glyphs (visited : gset (Z * Z)) (pos : option (Z * Z))
    (i : nat) (g : list (list Cell)) : list pystr :=
  match g with
  | [] => []
  | row :: g' =>
      row_glyphs visited pos (Z.of_nat i) 0 row
        :: grid_glyphs visited pos (S i) g'
  end.

Lemma read_row_Ok ri ci line row row' :
  Room.read_row ri ci line row = Ok row' ↔
  Forall room_char line ∧ row' = row ++ map cell_of_char line.
Proof.
  revert ci row. induction line as [|c line IH]; intros ci row;
    cbn [Room.read_row map].
  - rewrite app_nil_r. split; [intros [= <-]; by split|by intros [_ ->]].
  - unfold cell_of_char at 1. unfold room_char.
    destruct (decide (c ∈ lit "#W")) as [Hw|Hw].
    + rewrite IH, Forall_cons, <- app_assoc. cbn [app].
      assert (c ∈ lit "#W. ").
      { change (lit "#W. ") with (lit "#W" ++ lit ". ").
        apply elem_of_app. by left. }
      tauto.
    + destruct (decide (c ∈ lit ". ")) as [He|He].
      * rewrite IH, Forall_cons, <- app_assoc. cbn [app].
        assert (c ∈ lit "#W. ").
        { change (lit "#W. ") with (lit "#W" ++ lit ". ").
          apply elem_of_app. by right. }
        tauto.
      * split; [done|]. intros [[Hc _]%Forall_cons _]. exfalso.
        change (lit "#W. ") with (lit "#W" ++ lit ". ") in Hc.
        apply elem_of_app in Hc. tauto.
Qed.

Lemma read_rows_Ok w ri lines grid grid' :
  Room.read_rows w ri lines grid = Ok grid' ↔
  Forall (λ line, length line = w ∧ Forall room_char line) lines ∧
  grid' = grid ++ map (map cell_of_char) lines.
Proof.
  revert ri grid. induction lines as [|line lines IH]; intros ri grid; simpl.
  - rewrite app_nil_r. split; [intros [= <-]; by split|by intros [_ ->]].
  - destruct (decide (length line ≠ w)) as [Hne|Heq%dec_stable].
    + split; [done|]. by intros [[[? _] _]%Forall_cons _].
    + destruct (Room.read_row ri 0 line []) as [row|] eqn:Hrow; rsimpl.
      * apply read_row_Ok in Hrow as [Hline ->]. cbn [app].
        rewrite IH, Forall_cons, <- app_assoc. cbn [app]. tauto.
      * split; [done|]. intros [[[_ Hline] _]%Forall_cons _].
        assert (Room.read_row ri 0 line [] = Ok (map cell_of_char line))
          by (by apply read_row_Ok).
        congruence.
Qed.

Lemma read_rows_Raise w ri lines grid e :
  Room.read_rows w ri lines grid = Raise e →
  ∃ msg, e = ValueError ("I"%char :: msg).
Proof.
  revert ri grid. induction lines as [|line lines IH]; intros ri grid; simpl;
    [done|].
  destruct (decide (length line ≠ w)); [intros [= <-]; by eexists|].
  destruct (Room.read_row ri 0 line []) as [row|e'] eqn:Hrow; rsimpl;
    [by apply IH|].
  intros [= <-]. clear -Hrow. revert Hrow. generalize 0 at 1.
  generalize (@nil Cell).
  induction line as [|c line IHl]; intros row ci; simpl; [done|].
  repeat case_decide; eauto. intros [= <-]. by eexists.
Qed.

(** The lines [from_string] reads. *)
Definition room_lines (s : pystr) : list pystr :=
  filter (λ line : pystr, line ≠ []) (split_nl (strip s)).

Lemma from_string_Ok s room :
  Room.from_string s = Ok room ↔
  ∃ line0,
    head (room_lines s) = Some line0 ∧
    Forall (λ line, length line = length line0 ∧ Forall room_char line)
      (room_lines s) ∧
    room = {| Room.grid := map (map cell_of_char) (room_lines s);
              Room.height := Z.of_nat (length (room_lines s));
              Room.width := Z.of_nat (length line0) |}.
Proof.
  unfold Room.from_string. fold (room_lines s).
  assert (Hne : Forall (λ line : pystr, line ≠ []) (room_lines s)).
  { apply Forall_forall. intros l Hl. unfold room_lines in Hl.
    by apply list_elem_of_filter in Hl as [? _]. }
  destruct (room_lines s) as [|line0 lines] eqn:El.
  { split; [done|]. by intros (? & ? & _). }
  apply Forall_cons in Hne as [Hne0 _].
  assert (Hinit : ∀ g,
    Forall (λ line, length line = length line0 ∧ Forall room_char line)
      (line0 :: lines) →
    g = map (map cell_of_char) (line0 :: lines) →
    Room.init g
    = Ok {| Room.grid := g;
            Room.height := Z.of_nat (length (line0 :: lines));
            Room.width := Z.of_nat (length line0) |}).
  { intros g Hall ->. rewrite (init_uniform _ (length line0)).
    - by rewrite length_map.
    - done.
    - destruct line0; [done|cbn; lia].
    - apply Forall_fmap. eapply Forall_impl; [exact Hall|]. cbn.
      intros l [Hl _]. by rewrite length_map. }
  destruct (Room.read_rows _ _ _ _) as [grid|] eqn:Hrows; rsimpl.
  - apply read_rows_Ok in Hrows as [Hall Hgrid]. cbn [app] in Hgrid.
    rewrite (Hinit grid Hall Hgrid). subst grid. split.
    + intros [= <-]. exists line0. by split_and!.
    + intros (l0 & [= <-] & _ & ->). done.
  - split; [done|]. intros (l0 & [= <-] & Hall & _).
    assert (Room.read_rows (length line0) 0 (line0 :: lines) []
            = Ok (map (map cell_of_char) (line0 :: lines)))
      by (by apply read_rows_Ok).
    congruence.
Qed.

Lemma draw_row_spec room visited pos ri r pre suf line :
  0 ≤ ri →
  Room.grid room !! Z.to_nat ri = Some r →
  r = pre ++ suf →
  Room.draw_row room visited pos ri
    (map Z.of_nat (seq (length pre) (length suf))) line
  = Ok (line ++ row_glyphs visited pos ri (length pre) suf).
Proof.
  intros Hri Hrow. revert pre line.
  induction suf as [|c suf IH]; intros pre line E; simpl.
  - by rewrite app_nil_r.
  - specialize (IH (pre ++ [c])). rewrite length_app in IH. cbn in IH.
    rewrite Nat.add_1_r in IH. unfold glyph.
    destruct (decide (pos = Some (ri, Z.of_nat (length pre)))).
    { rewrite IH by (by rewrite <- app_assoc). by rewrite <- app_assoc. }
    rewrite getitem_nonneg, Hrow by done. rsimpl.
    rewrite getitem_nonneg, Nat2Z.id by lia.
    assert (r !! length pre = Some c) as ->
      by (rewrite E; by apply list_lookup_middle).
    rsimpl. destruct (decide (c = WALL));
      [|destruct (decide ((ri, Z.of_nat (length pre)) ∈ visited))];
      (rewrite IH by (by rewrite <- app_assoc); by rewrite <- app_assoc).
Qed.

Lemma draw_rows_spec room visited pos pre suf lines :
  Forall (λ row, Z.of_nat (length row) = Room.width room) (Room.grid room) →
  Room.grid room = pre ++ suf →
  Room.draw_rows room visited pos
    (map Z.of_nat (seq (length pre) (length suf))) lines
  = Ok (lines ++ grid_glyphs visited pos (length pre) suf).
Proof.
  intros Hw. revert pre lines.
  induction suf as [|row suf IH]; intros pre lines E; simpl.
  - by rewrite app_nil_r.
  - assert (Hrow : Room.grid room !! Z.to_nat (Z.of_nat (length pre))
                   = Some row).
    { rewrite Nat2Z.id, E. by apply list_lookup_middle. }
    assert (Hlen : Z.to_nat (Room.width room) = length row).
    { eapply Forall_lookup in Hw; [|exact Hrow]. cbn in Hw. lia. }
    unfold range. rewrite Hlen.
    rewrite (draw_row_spec room visited pos _ row [] row) by (try done; lia).
    rsimpl. cbn [app].
    specialize (IH (pre ++ [row])). rewrite length_app in IH. cbn in IH.
    rewrite Nat.add_1_r in IH. rewrite IH by (by rewrite <- app_assoc).
    by rewrite <- app_assoc.
Qed.

Lemma to_string_spec room visited pos :
  room_wf room →
  Room.to_string room visited pos
  = Ok (join_nl (grid_glyphs (default ∅ visited) pos 0 (Room.grid room))).
Proof.
  intros [Hh Hw]. unfold Room.to_string, range. rewrite Hh, Nat2Z.id.
  rewrite (draw_rows_spec room _ pos [] (Room.grid room) []) by done.
  by destruct visited.
Qed.

Lemma row_glyphs_lookup visited pos r j row k :
  row_glyphs visited pos r j row !! k
  = glyph visited pos r (Z.of_nat (j + k)) <$> row !! k.
Proof.
  revert j k. induction row as [|c row IH]; intros j [|k]; simpl; try done.
  - by rewrite Nat.add_0_r.
  - rewrite IH. by replace (S j + k)%nat with (j + S k)%nat by lia.
Qed.

Lemma grid_glyphs_lookup visited pos i g k :
  grid_glyphs visited pos i g !! k
  = row_glyphs visited pos (Z.of_nat (i + k)) 0 <$> g !! k.
Proof.
  revert i k. induction g as [|row g IH]; intros i [|k]; simpl; try done.
  - by rewrite Nat.add_0_r.
  - rewrite IH. by replace (S i + k)%nat with (i + S k)%nat by lia.
Qed.

Lemma row_glyphs_length visited pos r j row :
  length (row_glyphs visited pos r j row) = length row.
Proof. revert j. induction row; intros j; simpl; by rewrite ?IHrow. Qed.

Lemma grid_glyphs_length visited pos i g :
  length (grid_glyphs visited pos i g) = length g.
Proof. revert i. induction g; intros i; simpl; by rewrite ?IHg. Qed.

Lemma glyph_solid visited pos r c cell :
  is_space (glyph visited pos r c cell) = false.
Proof. unfold glyph. by repeat case_decide. Qed.

Lemma grid_glyphs_solid visited pos i g :
  Forall (λ row : list Cell, row ≠ []) g →
  Forall solid (grid_glyphs visited pos i g).
Proof.
  intros Hg. revert i. induction Hg as [|row g Hrow Hg IH]; intros i;
    constructor; [|done].
  split; [by destruct row|].
  generalize 0%nat. induction row as [|c row IHr]; intros j; constructor.
  - apply glyph_solid.
  - destruct row; [constructor|]. by apply IHr.
Qed.

Lemma solid_no_nl l : solid l → no_nl l.
Proof.
  intros [_ Hl]. eapply Forall_impl; [exact Hl|]. by intros c Hc ->.
Qed.

(** Without an agent and without visited cells the drawing of a row reads
    back as the row. *)
Lemma row_glyphs_read r j row :
  Forall room_char (row_glyphs ∅ None r j row) ∧
  map cell_of_char (row_glyphs ∅ None r j row) = row.
Proof.
  revert j. induction row as [|c row IH]; intros j; [by split|].
  destruct (IH (S j)) as [H1 H2]. cbn [row_glyphs map]. rewrite H2.
  unfold glyph. rewrite decide_False by done.
  destruct c; cbn; (split; [constructor; [|done]|done]);
    apply (bool_decide_unpack _); by vm_compute.
Qed.

Lemma grid_glyphs_read i g :
  Forall (Forall room_char) (grid_glyphs ∅ None i g) ∧
  map (map cell_of_char) (grid_glyphs ∅ None i g) = g.
Proof.
  revert i. induction g as [|row g IH]; intros i; [by split|].
  destruct (IH (S i)) as [H1 H2].
  destruct (row_glyphs_read (Z.of_nat i) 0 row) as [H3 H4].
  cbn [grid_glyphs map]. rewrite H2, H4. split; [by constructor|done].
Qed.

End RoomText.

Section RoomTextMore.

Lemma filter_all {A} (P : A → Prop) `{∀ x, Decision (P x)} (l : list A) :
  Forall P l → filter P l = l.
Proof.
  induction 1 as [|x l Hx Hl IH]; [done|].
  by rewrite filter_cons_True, IH.
Qed.

Lemma room_rows_nonempty room :
  room_wf room → 0 < Room.width room →
  Forall (λ row : list Cell, row ≠ []) (Room.grid room).
Proof.
  intros [_ Hw] Hpos. eapply Forall_impl; [exact Hw|]. cbn.
  intros row Hrow ->. cbn in Hrow. lia.
Qed.

Lemma room_lines_drawn room :
  room_wf room → 0 < Room.height room → 0 < Room.width room →
  room_lines (join_nl (grid_glyphs ∅ None 0 (Room.grid room)))
  = grid_glyphs ∅ None 0 (Room.grid room).
Proof.
  intros Hwf Hh Hw.
  assert (Hsolid : Forall solid (grid_glyphs ∅ None 0 (Room.grid room)))
    by (by apply grid_glyphs_solid, room_rows_nonempty).
  assert (Hne : grid_glyphs ∅ None 0 (Room.grid room) ≠ []).
  { intros E%(f_equal length). rewrite grid_glyphs_length in E.
    destruct Hwf as [Hht _]. cbn in E. lia. }
  unfold room_lines. rewrite strip_solid by done.
  rewrite split_join_lines.
  - apply filter_all. eapply Forall_impl; [exact Hsolid|]. by intros l [? _].
  - done.
  - eapply Forall_impl; [exact Hsolid|]. apply solid_no_nl.
Qed.

Lemma blank_lines_join ls :
  Forall (λ l : pystr, l = []) ls → Forall (λ c, c = nl) (join_nl ls).
Proof.
  induction 1 as [|l ls -> Hls IH]; [constructor|].
  destruct ls as [|l' ls]; [constructor|].
  change (join_nl ([] :: l' :: ls)) with (nl :: join_nl (l' :: ls)).
  by constructor.
Qed.

Lemma room_lines_nil s : room_lines s = [] ↔ all is_space s.
Proof.
  rewrite <- strip_nil. unfold room_lines. split.
  - intros Hnil.
    assert (Hblank : Forall (λ l : pystr, l = []) (split_nl (strip s))).
    { apply Forall_forall. intros l Hl.
      destruct (decide (l = [])) as [|Hne]; [done|].
      assert (l ∈ filter (λ line : pystr, line ≠ []) (split_nl (strip s)))
        as Hin by (by apply list_elem_of_filter).
      rewrite Hnil in Hin. by apply elem_of_nil in Hin. }
    apply blank_lines_join in Hblank.
    destruct (split_nl_facts (strip s)) as (_ & _ & Hjoin).
    rewrite Hjoin in Hblank.
    destruct (strip_spec s) as (_ & _ & _ & _ & _ & Hstop & _).
    destruct (strip s) as [|c t]; [done|].
    apply Forall_cons in Hblank as [-> _]. cbn in Hstop. by vm_compute in Hstop.
  - by intros ->.
Qed.

End RoomTextMore.

(** X4. Drawing a room built by the constructor, with no agent and no
    visited cells, and reading the text back with [from_string] gives the
    same room. *)
Theorem to_string_from_string (g : list (list Cell)) (room : Room.t) :
  Room.init g = Ok room →
  ∃ s, Room.to_string room None None = Ok s ∧ Room.from_string s = Ok room.
Proof.
  intros Hinit. pose proof Hinit as (Hwf & Hg & Hh & Hw)%init_Ok.
  eexists. split; [by apply to_string_spec|]. cbn [default].
  apply from_string_Ok. rewrite room_lines_drawn by done.
  destruct (grid_glyphs_read 0 (Room.grid room)) as [Hchars Hread].
  pose proof Hwf as [Hht Hwd].
  destruct (Room.grid room) as [|row0 rest] eqn:Eg; [cbn in Hht; lia|].
  exists (row_glyphs ∅ None 0 0 row0). split_and!.
  - done.
  - apply Forall_forall. intros line Hline. split.
    + apply list_elem_of_lookup in Hline as [k Hk].
      rewrite grid_glyphs_lookup in Hk.
      destruct ((row0 :: rest) !! k) as [row|] eqn:Hrow; [|done].
      injection Hk as <-. rewrite !row_glyphs_length.
      eapply Forall_lookup in Hwd as Hk; [|exact Hrow].
      apply Forall_cons in Hwd as [H0 _]. cbn in *. lia.
    + eapply Forall_forall in Hchars; [exact Hchars|done].
  - rewrite Hread, grid_glyphs_length, row_glyphs_length.
    apply Forall_cons in Hwd as [H0 _].
    destruct room as [g' h' w']. cbn in *. subst g'. f_equal; lia.
Qed.

Lemma to_string_from_string_witness :
  Room.init demo_grid = Ok demo_room ∧
  ∃ s, Room.to_string demo_room None None = Ok s ∧
       Room.from_string s = Ok demo_room.
Proof.
  split; [reflexivity|]. apply (to_string_from_string demo_grid). reflexivity.
Defined.

(** X5. On a room built by the constructor [to_string] never raises: it
    returns [height] lines of [width] characters joined by newlines, and
    the character for a cell is 'P' at the agent's position, else '#' on a
    wall, else 'o' when the cell is in the visited set, else '.'.
    [display] is this drawing for the agent's own position and visited
    set, so it shows 'P' where the agent stands. *)
Theorem to_string_layout (g : list (list Cell)) (room : Room.t)
    (visited : option (gset (Z * Z))) (pos : option (Z * Z)) :
  Room.init g = Ok room →
  ∃ lines,
    Room.to_string room visited pos = Ok (join_nl lines) ∧
    split_nl (join_nl lines) = lines ∧
    Z.of_nat (length lines) = Room.height room ∧
    (∀ r c, in_bounds room r c →
       ∃ line cell,
         lines !! Z.to_nat r = Some line ∧
         Z.of_nat (length line) = Room.width room ∧
         stored room r c = Some cell ∧
         line !! Z.to_nat c
         = Some (if decide (pos = Some (r, c)) then "P"%char
                 else if decide (cell = WALL) then "#"%char
                 else if decide ((r, c) ∈ default ∅ visited) then "o"%char
                 else "."%char)) ∧
    (∀ bot, Picobot.room bot = room →
       visited = Some (Picobot.visited bot) →
       pos = Some (Picobot.position bot) →
       Picobot.display bot = Ok (join_nl lines)).
Proof.
  intros Hinit. pose proof Hinit as (Hwf & Hg & Hh & Hw)%init_Ok.
  exists (grid_glyphs (default ∅ visited) pos 0 (Room.grid room)).
  pose proof Hwf as [Hht Hwd].
  assert (Hto : Room.to_string room visited pos
    = Ok (join_nl (grid_glyphs (default ∅ visited) pos 0 (Room.grid room))))
    by (by apply to_string_spec).
  split_and!.
  - done.
  - apply split_join_lines.
    + intros E%(f_equal length). rewrite grid_glyphs_length in E. cbn in E.
      lia.
    + eapply Forall_impl; [by apply grid_glyphs_solid, room_rows_nonempty|].
      apply solid_no_nl.
  - rewrite grid_glyphs_length. lia.
  - intros r c Hb.
    destruct (stored_in_bounds room r c Hwf Hb) as [cell Hcell].
    unfold stored in Hcell.
    destruct (Room.grid room !! Z.to_nat r) as [row|] eqn:Hrow; [|done].
    cbn in Hcell. exists (row_glyphs (default ∅ visited) pos r 0 row), cell.
    destruct Hb as [Hr Hc]. split_and!.
    + rewrite grid_glyphs_lookup, Hrow. cbn. by rewrite Z2Nat.id by lia.
    + rewrite row_glyphs_length.
      eapply Forall_lookup in Hwd; [|exact Hrow]. done.
    + unfold stored. by rewrite Hrow.
    + rewrite row_glyphs_lookup, Hcell. cbn. by rewrite Z2Nat.id by lia.
  - intros bot <- -> ->. done.
Qed.

Lemma to_string_layout_witness :
  Room.init demo_grid = Ok demo_room ∧
  ∃ lines,
    Room.to_string demo_room (Some {[ (1, 1) ]}) (Some (1, 2))
    = Ok (join_nl lines) ∧
    Z.of_nat (length lines) = 5.
Proof.
  split; [reflexivity|].
  destruct (to_string_layout demo_grid demo_room (Some {[ (1, 1) ]})
              (Some (1, 2)) eq_refl) as (lines & Hto & _ & Hlen & _).
  exists lines. split; assumption.
Defined.

(** X6. [from_string] returns a room exactly when the stripped text has a
    non-empty line, all its non-empty lines have the length of the first,
    and every character is '#', 'W', '.' or ' '; the room is then the
    constructor's room for these lines, with '#' and 'W' read as walls.
    Empty lines inside the text are skipped. It raises "Room string cannot
    be empty." exactly when the text is white space only. *)
Theorem from_string_cases (s : pystr) :
  (∀ room,
     Room.from_string s = Ok room ↔
     ∃ line0,
       head (room_lines s) = Some line0 ∧
       Forall (λ line, length line = length line0 ∧ Forall room_char line)
         (room_lines s) ∧
       room = {| Room.grid := map (map cell_of_char) (room_lines s);
                 Room.height := Z.of_nat (length (room_lines s));
                 Room.width := Z.of_nat (length line0) |}) ∧
  (∀ room, Room.from_string s = Ok room →
           Room.init (Room.grid room) = Ok room) ∧
  (Room.from_string s = Raise (ValueError (lit "Room string cannot be empty."))
   ↔ all is_space s).
Proof.
  split_and!.
  - apply from_string_Ok.
  - intros room (line0 & Hhead & Hall & ->)%from_string_Ok. cbn [Room.grid].
    rewrite (init_uniform _ (length line0)).
    + by rewrite length_map.
    + destruct (room_lines s); [done|]. done.
    + assert (line0 ∈ room_lines s) as Hin.
      { destruct (room_lines s); simplify_eq/=. set_solver. }
      unfold room_lines in Hin. apply list_elem_of_filter in Hin as [Hne _].
      destruct line0; [done|cbn; lia].
    + apply Forall_fmap. eapply Forall_impl; [exact Hall|]. cbn.
      intros l [Hl _]. by rewrite length_map.
  - rewrite <- room_lines_nil. split.
    + intros Hraise. destruct (room_lines s) as [|line0 lines] eqn:El; [done|].
      exfalso. unfold Room.from_string in Hraise. fold (room_lines s) in Hraise.
      rewrite El in Hraise.
      destruct (Room.read_rows _ _ _ _) as [grid|e] eqn:Hrows;
        rsimpl_hyp Hraise.
      * assert (Hok : ∃ room, Room.from_string s = Ok room).
        { apply read_rows_Ok in Hrows as [Hall ->]. eexists.
          apply from_string_Ok. exists line0. rewrite El. by split_and!. }
        destruct Hok as [room Hok]. unfold Room.from_string in Hok.
        fold (room_lines s) in Hok. rewrite El, Hrows in Hok.
        rsimpl_hyp Hok. congruence.
      * apply read_rows_Raise in Hrows as [msg ->]. by injection Hraise.
    + intros Hnil. unfold Room.from_string. fold (room_lines s).
      by rewrite Hnil.
Qed.

(** ** Steps that advance, and what runs keep *)

Section StepMore.

(** The agent after a rule has fired towards the open cell [target]. *)
Definition advanced (bot : Picobot.t) (sur : pystr) (rule : Rule.t)
    (target : Z * Z) : Picobot.t :=
  {| Picobot.room := Picobot.room bot;
     Picobot.rules := Picobot.rules bot;
     Picobot.position := target;
     Picobot.state := Rule.new_state rule;
     Picobot.visited := Picobot.visited bot ∪ {[ target ]};
     Picobot.history := Picobot.history bot ++
       [ {| SimulationStep.step_number :=
              Z.of_nat (length (Picobot.history bot));
            SimulationStep.position := Picobot.position bot;
            SimulationStep.state := Picobot.state bot;
            SimulationStep.surroundings := sur;
            SimulationStep.rule_applied := Some rule;
            SimulationStep.new_position := target;
            SimulationStep.new_state := Rule.new_state rule |} ];
     Picobot._halted := false;
     Picobot._halt_reason := Picobot._halt_reason bot |}.

(** The records of a history are numbered from [k], start at position [p]
    in state [s], each start where the one before ended, and end at
    position [p'] in state [s']. *)
Inductive trace : Z → Z * Z → Z → list SimulationStep.t → Z * Z → Z → Prop :=
| trace_nil k p s : trace k p s [] p s
| trace_cons k rec hist p' s' :
    SimulationStep.step_number rec = k →
    trace (k + 1) (SimulationStep.new_position rec)
      (SimulationStep.new_state rec) hist p' s' →
    trace k (SimulationStep.position rec) (SimulationStep.state rec)
      (rec :: hist) p' s'.

(** What a record says of the rule it names: a rule of the list that
    matches the state and surroundings of the record; a record without a
    rule did not move. *)
Definition record_sound (rules : list Rule.t) (rec : SimulationStep.t)
  : Prop :=
  match SimulationStep.rule_applied rec with
  | Some rule =>
      rule ∈ rules ∧
      Rule.matches rule (SimulationStep.state rec)
        (SimulationStep.surroundings rec) = true
  | None =>
      SimulationStep.new_position rec = SimulationStep.position rec ∧
      SimulationStep.new_state rec = SimulationStep.state rec
  end.

Lemma trace_snoc k p s hist p' s' rec :
  trace k p s hist p' s' →
  SimulationStep.step_number rec = k + Z.of_nat (length hist) →
  SimulationStep.position rec = p' →
  SimulationStep.state rec = s' →
  trace k p s (hist ++ [rec]) (SimulationStep.new_position rec)
    (SimulationStep.new_state rec).
Proof.
  induction 1 as [k p s|k rec0 hist p' s' Hk Ht IH]; intros Hn Hp Hs.
  - cbn in Hn. rewrite Z.add_0_r in Hn. subst p s. cbn [app].
    apply trace_cons; [done|]. constructor.
  - cbn [app]. apply trace_cons; [done|]. apply IH; [|done|done].
    cbn [length] in Hn. lia.
Qed.

Lemma trace_log p0 s0 hist p s sur applied np ns :
  trace 0 p0 s0 hist p s →
  trace 0 p0 s0
    (hist ++ [SimulationStep.mk (Z.of_nat (length hist)) p s sur applied np ns])
    np ns.
Proof.
  intros Ht.
  exact (trace_snoc 0 p0 s0 hist p s
           (SimulationStep.mk (Z.of_nat (length hist)) p s sur applied np ns)
           Ht eq_refl eq_refl eq_refl).
Qed.

Lemma first_match_matches rules st sur r :
  Picobot.first_match rules st sur = Some r →
  r ∈ rules ∧ Rule.matches r st sur = true.
Proof.
  intros Hf. split; [by eapply first_match_elem|].
  by apply first_match_Some in Hf as (_ & _ & _ & ? & _).
Qed.

(** The facts about the history, the position and the state that every
    step keeps. *)
Definition logged (p0 : Z * Z) (s0 : Z) (steps : nat) (bot : Picobot.t)
  : Prop :=
  trace 0 p0 s0 (Picobot.history bot) (Picobot.position bot)
    (Picobot.state bot) ∧
  (length (Picobot.history bot) ≤ steps)%nat ∧
  Forall (record_sound (Picobot.rules bot)) (Picobot.history bot) ∧
  Picobot.position bot ∈ Picobot.visited bot ∧
  p0 ∈ Picobot.visited bot ∧
  (Picobot.state bot = s0 ∨
   ∃ r, r ∈ Picobot.rules bot ∧ Picobot.state bot = Rule.new_state r).

Lemma step_logged p0 s0 n bot bot' ok :
  Picobot.step bot = Ok (bot', ok) →
  logged p0 s0 n bot → logged p0 s0 (S n) bot'.
Proof.
  intros Hstep (Ht & Hlen & Hsound & Hpos & Hp0 & Hst).
  destruct (Picobot._halted bot) eqn:Hh.
  { rewrite step_halted_lemma in Hstep by done. injection Hstep as <- <-.
    split_and!; try done. lia. }
  rewrite step_running in Hstep by done.
  destruct (Picobot.get_surroundings bot) as [sur|]; rsimpl_hyp Hstep;
    [|done].
  destruct (Picobot.first_match _ _ _) as [rule|] eqn:Hf.
  2:{ injection Hstep as <- <-. unfold logged. cbn.
      split_and!; try done.
      - by apply trace_log.
      - rewrite length_app. cbn. lia.
      - apply Forall_app. split; [done|]. by repeat constructor. }
  apply first_match_matches in Hf as [Hin Hm].
  destruct (dict_get MOVE_VECTORS (Rule.direction rule)) as [vec|];
    rsimpl_hyp Hstep; [|done].
  destruct (Room.is_wall _ _ _) as [[]|]; rsimpl_hyp Hstep; [| |done];
    injection Hstep as <- <-; unfold logged; cbn.
  - split_and!; try done.
    + by apply trace_log.
    + rewrite length_app. cbn. lia.
    + apply Forall_app. split; [done|]. by repeat constructor.
  - split_and!.
    + by apply trace_log.
    + rewrite length_app. cbn. lia.
    + apply Forall_app. split; [done|]. by repeat constructor.
    + apply elem_of_union. right. by apply elem_of_singleton.
    + apply elem_of_union. by left.
    + right. eauto.
Qed.

Lemma steps_logged p0 s0 n bot bot' k :
  steps_from n bot = Ok bot' →
  logged p0 s0 k bot → logged p0 s0 (n + k) bot'.
Proof.
  revert bot k. induction n as [|n IH]; intros bot k; simpl.
  - by intros [= <-].
  - destruct (Picobot.step bot) as [[b1 ok]|] eqn:Hs; rsimpl; [|done].
    intros Hn Hl. eapply step_logged in Hl; [|done].
    apply (IH _ _ Hn) in Hl. by replace (S (n + k)) with (n + S k)%nat by lia.
Qed.

Lemma fresh_logged room rl p : logged p 0 0 (fresh room rl p).
Proof.
  unfold logged. cbn.
  split_and!; [constructor|done|constructor| | |by left];
    by apply elem_of_singleton.
Qed.

Lemma init_fresh room rules start bot :
  room_wf room → Picobot.init room rules start = Ok bot →
  ∃ rl p, rules_of rules = Ok rl ∧ on_open room p ∧ bot = fresh room rl p.
Proof.
  intros Hwf Hinit. destruct start as [p|].
  - apply init_Some in Hinit as (rl & ? & ? & ->). eauto.
  - apply init_None in Hinit as (rl & p & ? & Hhd & ->); [|done].
    exists rl, p. split_and!; try done. apply grid_cells_open; [done|].
    destruct (grid_cells 0 _); simplify_eq/=. set_solver.
Qed.

End StepMore.

(** X7. [step] returns [True] exactly when the agent is not halted, a rule
    matches the observed surroundings and the cell its direction points at
    is open (the agent's own cell for 'X'); the agent then stands on that
    cell in the rule's new state, the cell is added to the visited set, one
    record with the old and new position and state is appended, and the
    agent is not halted. *)
Theorem step_advances (bot bot' : Picobot.t) :
  Picobot.step bot = Ok (bot', true) ↔
  Picobot._halted bot = false ∧
  ∃ sur rule vec,
    Picobot.get_surroundings bot = Ok sur ∧
    Picobot.find_matching_rule bot (Picobot.state bot) sur = Some rule ∧
    dict_get MOVE_VECTORS (Rule.direction rule) = Ok vec ∧
    Room.is_wall (Picobot.room bot)
      ((Picobot.position bot).1 + vec.1)
      ((Picobot.position bot).2 + vec.2) = Ok false ∧
    bot' = advanced bot sur rule
             ((Picobot.position bot).1 + vec.1,
              (Picobot.position bot).2 + vec.2).
Proof.
  unfold Picobot.find_matching_rule. split.
  - destruct (Picobot._halted bot) eqn:Hh.
    { by rewrite step_halted_lemma by done. }
    rewrite step_running by done.
    destruct (Picobot.get_surroundings bot) as [sur|] eqn:Hs; rsimpl; [|done].
    destruct (Picobot.first_match _ _ _) as [rule|] eqn:Hf; [|done].
    destruct (dict_get MOVE_VECTORS (Rule.direction rule)) as [vec|] eqn:Hv;
      rsimpl; [|done].
    destruct (Room.is_wall _ _ _) as [[]|] eqn:Hw; rsimpl; [done| |done].
    intros [= <-]. split; [done|]. exists sur, rule, vec. by split_and!.
  - intros (Hh & sur & rule & vec & Hs & Hf & Hv & Hw & ->).
    rewrite step_running by done. rewrite Hs. rsimpl. rewrite Hf, Hv. rsimpl.
    by rewrite Hw.
Qed.

(** X8. After any number of steps of an agent built by the constructor,
    the history is a gapless trace: record [i] has [step_number] [i], the
    first record starts at the start position in state 0, each record
    starts where the one before ended, and the last ends at the agent's
    current position and state. There are at most as many records as
    steps, every rule named by a record is a rule of the agent that matches
    the record's state and surroundings, and a record without a rule kept
    its position and state. *)
Theorem history_is_trace (g : list (list Cell)) (room : Room.t)
    (rules : RulesArg) (start : option (Z * Z)) (bot0 bot : Picobot.t)
    (n : nat) :
  Room.init g = Ok room →
  Picobot.init room rules start = Ok bot0 →
  steps_from n bot0 = Ok bot →
  trace 0 (Picobot.position bot0) 0 (Picobot.history bot)
    (Picobot.position bot) (Picobot.state bot) ∧
  (length (Picobot.history bot) ≤ n)%nat ∧
  Forall (record_sound (Picobot.rules bot)) (Picobot.history bot).
Proof.
  intros (Hwf & _)%init_Ok (rl & p & _ & _ & ->)%init_fresh Hsteps; [|done].
  pose proof (steps_logged p 0 n _ _ 0 Hsteps (fresh_logged room rl p))
    as (Ht & Hlen & Hsound & _).
  split_and!; [done|lia|done].
Qed.

Lemma history_is_trace_witness :
  Room.init demo_grid = Ok demo_room ∧
  Picobot.init demo_room (RulesList demo_rules) (Some (2, 2))
  = Ok (fresh demo_room demo_rules (2, 2)) ∧
  ∃ bot,
    steps_from 3 (fresh demo_room demo_rules (2, 2)) = Ok bot ∧
    trace 0 (2, 2) 0 (Picobot.history bot) (Picobot.position bot)
      (Picobot.state bot).
Proof.
  split; [reflexivity|]. split; [by vm_compute|].
  eexists. split; [by vm_compute|].
  eapply (history_is_trace demo_grid demo_room (RulesList demo_rules)
            (Some (2, 2)) (fresh demo_room demo_rules (2, 2)) _ 3);
    by vm_compute.
Defined.

Section RunMore.

Lemma step_running_logs bot bot' ok :
  Picobot._halted bot = false →
  Picobot.step bot = Ok (bot', ok) →
  length (Picobot.history bot') = S (length (Picobot.history bot)) ∧
  (ok = true → Picobot._halted bot' = false).
Proof.
  intros Hh. rewrite step_running by done.
  destruct (Picobot.get_surroundings bot) as [sur|]; rsimpl; [|done].
  destruct (Picobot.first_match _ _ _) as [rule|].
  2:{ intros [= <- <-]. cbn. rewrite length_app. cbn. split; [lia|done]. }
  destruct (dict_get MOVE_VECTORS (Rule.direction rule)) as [vec|]; rsimpl;
    [|done].
  destruct (Room.is_wall _ _ _) as [[]|]; rsimpl; [| |done];
    intros [= <- <-]; cbn; rewrite length_app; cbn; (split; [lia|done]).
Qed.

Lemma run_loop_logs bot total stop k n bot' taken :
  Picobot._halted bot = false →
  Picobot.run_loop bot total stop (map Z.of_nat (seq k n)) (Z.of_nat k)
    = Ok (bot', taken) →
  Z.of_nat (length (Picobot.history bot'))
  = Z.of_nat (length (Picobot.history bot)) + (taken - Z.of_nat k).
Proof.
  revert bot k. induction n as [|n IH]; intros bot k Hh; simpl.
  - intros [= <- <-]. lia.
  - destruct (stop && _); [intros [= <- <-]; lia|].
    destruct (Picobot.step bot) as [[b1 ok]|] eqn:Hs; rsimpl; [|done].
    apply step_running_logs in Hs as [Hlen Hok]; [|done].
    destruct ok; cbn [negb].
    + replace (Z.of_nat k + 1) with (Z.of_nat (S k)) by lia.
      intros Hloop%IH; [|by apply Hok]. lia.
    + intros [= <- <-]. lia.
Qed.

Lemma steps_from_halted n bot :
  Picobot._halted bot = true → steps_from n bot = Ok bot.
Proof.
  intros Hh. induction n as [|n IH]; [done|]. simpl.
  rewrite step_halted_lemma by done. rsimpl. done.
Qed.

Lemma visited_bound room bot :
  room_wf room → Picobot.room bot = room → stands_open bot →
  Picobot.visited bot ⊆ list_to_set (grid_cells 0 (Room.grid room)) ∧
  len_set (Picobot.visited bot) ≤ Room.count_empty_cells room.
Proof.
  intros Hwf <- [_ Hv].
  assert (Hsub : Picobot.visited bot
                 ⊆ list_to_set (grid_cells 0 (Room.grid (Picobot.room bot)))).
  { intros p Hp. apply elem_of_list_to_set. specialize (Hv p Hp).
    apply is_wall_false in Hv as [[Hr Hc] Hs].
    apply elem_of_grid_cells_stored. split_and!; [lia|lia|done]. }
  split; [done|]. rewrite count_empty_cells_length. unfold len_set.
  apply subseteq_size in Hsub.
  rewrite size_list_to_set in Hsub
    by apply sorted_NoDup, grid_cells_sorted.
  lia.
Qed.

End RunMore.

(** X9. After the first [run] of an agent built by the constructor, the
    history has exactly as many records as the result's ['steps']. *)
Theorem run_history_steps (g : list (list Cell)) (room : Room.t)
    (rules : RulesArg) (start : option (Z * Z)) (bot0 bot' : Picobot.t)
    (max_steps : Z) (stop : bool) (res : RunResult.t) :
  Room.init g = Ok room →
  Picobot.init room rules start = Ok bot0 →
  Picobot.run bot0 max_steps stop = Ok (bot', res) →
  Z.of_nat (length (Picobot.history bot')) = RunResult.steps res.
Proof.
  intros (Hwf & _)%init_Ok (rl & p & _ & _ & ->)%init_fresh; [|done].
  unfold Picobot.run, range.
  destruct (Picobot.run_loop _ _ _ _ _) as [[b1 taken]|] eqn:Hloop; rsimpl;
    [|done].
  destruct (truediv _ _) as [q|]; rsimpl; [|done].
  intros [= <- <-]. cbn [RunResult.steps].
  apply (run_loop_logs _ _ _ 0) in Hloop; [|done]. cbn in Hloop. lia.
Qed.

Lemma run_history_steps_witness :
  Room.init demo_grid = Ok demo_room ∧
  Picobot.init demo_room (RulesList demo_rules) (Some (2, 2))
  = Ok (fresh demo_room demo_rules (2, 2)) ∧
  ∃ bot' res,
    Picobot.run (fresh demo_room demo_rules (2, 2)) 100 true
    = Ok (bot', res) ∧
    Z.of_nat (length (Picobot.history bot')) = RunResult.steps res.
Proof.
  split; [reflexivity|]. split; [by vm_compute|].
  destruct (Picobot.run (fresh demo_room demo_rules (2, 2)) 100 true)
    as [[bot' res]|] eqn:Hrun; [|by vm_compute in Hrun].
  exists bot', res. split; [done|].
  apply (run_history_steps demo_grid demo_room (RulesList demo_rules)
           (Some (2, 2)) (fresh demo_room demo_rules (2, 2)) bot' 100 true);
    [reflexivity|by vm_compute|exact Hrun].
Defined.

(** X10. After any number of steps of an agent built by the constructor,
    the start cell and the current cell are visited, every visited cell
    is a cell on which [is_empty] is true, and so the visited count never
    exceeds [count_empty_cells]; [is_complete] holds exactly when every
    empty cell of the room has been visited. *)
Theorem visited_within_empty (g : list (list Cell)) (room : Room.t)
    (rules : RulesArg) (start : option (Z * Z)) (bot0 bot : Picobot.t)
    (n : nat) :
  Room.init g = Ok room →
  Picobot.init room rules start = Ok bot0 →
  steps_from n bot0 = Ok bot →
  Picobot.position bot0 ∈ Picobot.visited bot ∧
  Picobot.position bot ∈ Picobot.visited bot ∧
  (∀ p, p ∈ Picobot.visited bot → Room.is_empty room p.1 p.2 = Ok true) ∧
  len_set (Picobot.visited bot) ≤ Room.count_empty_cells room ∧
  (Picobot.is_complete bot = true ↔
   ∀ row col, Room.is_empty room row col = Ok true →
              (row, col) ∈ Picobot.visited bot).
Proof.
  intros (Hwf & _)%init_Ok Hinit Hsteps.
  pose proof Hinit as (Hroom0 & _ & Hopen0)%init_stands_open; [|done].
  pose proof Hinit as (rl & p & _ & _ & ->)%init_fresh; [|done].
  pose proof (steps_logged p 0 n _ _ 0 Hsteps (fresh_logged room rl p))
    as (_ & _ & _ & Hpos & Hp0 & _).
  apply steps_from_frame in Hsteps as (Hroom & _ & _ & Hkeep).
  specialize (Hkeep Hopen0). cbn in Hroom.
  destruct (visited_bound room bot Hwf Hroom Hkeep) as [Hsub Hle].
  split_and!; try done.
  - intros [r c] Hp. apply is_empty_true; [done|].
    apply Hsub in Hp. by apply elem_of_list_to_set in Hp.
  - unfold Picobot.is_complete. rewrite Hroom, Z.geb_leb, Z.leb_le. split.
    + intros Hge row col Hempty%is_empty_true; [|done].
      assert (Heq : Picobot.visited bot
                    = list_to_set (grid_cells 0 (Room.grid room))).
      { apply set_subseteq_size_eq; [done|].
        rewrite size_list_to_set by apply sorted_NoDup, grid_cells_sorted.
        rewrite count_empty_cells_length in Hge. unfold len_set in Hge. lia. }
      rewrite Heq. by apply elem_of_list_to_set.
    + intros Hall.
      assert (Hsup : list_to_set (grid_cells 0 (Room.grid room))
                     ⊆ Picobot.visited bot).
      { intros [r c] Hin%elem_of_list_to_set. apply Hall.
        by apply is_empty_true. }
      apply subseteq_size in Hsup.
      rewrite size_list_to_set in Hsup
        by apply sorted_NoDup, grid_cells_sorted.
      rewrite count_empty_cells_length. unfold len_set. lia.
Qed.

Lemma visited_within_empty_witness :
  Room.init demo_grid = Ok demo_room ∧
  Picobot.init demo_room (RulesList demo_rules) (Some (2, 2))
  = Ok (fresh demo_room demo_rules (2, 2)) ∧
  ∃ bot,
    steps_from 3 (fresh demo_room demo_rules (2, 2)) = Ok bot ∧
    len_set (Picobot.visited bot) ≤ Room.count_empty_cells demo_room.
Proof.
  split; [reflexivity|]. split; [by vm_compute|].
  eexists. split; [by vm_compute|].
  eapply (visited_within_empty demo_grid demo_room (RulesList demo_rules)
            (Some (2, 2)) (fresh demo_room demo_rules (2, 2)) _ 3);
    by vm_compute.
Defined.

Section AgentMore.

(** An agent halted by its first step: no rule is listed. *)
Definition halted_demo : Picobot.t :=
  match Picobot.step (fresh demo_room [] (1, 1)) with
  | Ok (bot, _) => bot
  | Raise _ => fresh demo_room [] (1, 1)
  end.

Lemma covered_percent (v t : Z) :
  1 ≤ v → v ≤ t →
  let q := (inject_Z (100 * v) / inject_Z t)%Q in
  (0 < q)%Q ∧ (q <= inject_Z 100)%Q ∧ (q == inject_Z 100 ↔ v = t)%Q.
Proof.
  intros Hv Ht. destruct t as [|t|t]; try lia.
  unfold Qdiv, Qinv, Qmult, Qlt, Qle, Qeq, inject_Z. cbn -[Z.mul].
  split_and!; [lia|lia|]. split; lia.
Qed.

Lemma head_least (p : Z * Z) cells :
  StronglySorted row_major_lt cells → head cells = Some p →
  ∀ q, q ∈ cells → q = p ∨ row_major_lt p q.
Proof.
  destruct cells as [|p' cells]; [done|]. intros Hs [= ->] q.
  apply StronglySorted_inv in Hs as [_ Hall].
  intros [->|Hin]%elem_of_cons; [by left|right].
  by eapply Forall_forall in Hall.
Qed.

End AgentMore.

(** X11. [run] on an agent that is already halted leaves the agent as it
    is and still returns a result: its ['steps'] is 1, although no step is
    made, unless [max_steps] is not positive or the coverage stop applies,
    where it is 0; ['halted'] is true and the halt reason is the stored
    one. *)
Theorem run_on_halted (bot : Picobot.t) (max_steps : Z) (stop : bool) :
  Picobot._halted bot = true →
  Room.count_empty_cells (Picobot.room bot) ≠ 0 →
  ∃ res,
    Picobot.run bot max_steps stop = Ok (bot, res) ∧
    RunResult.steps res
    = (if decide (max_steps ≤ 0) then 0
       else if stop && covered bot then 0 else 1) ∧
    RunResult.halted res = true ∧
    RunResult.halt_reason res = Picobot._halt_reason bot ∧
    RunResult.visited res = len_set (Picobot.visited bot) ∧
    RunResult.success res = covered bot.
Proof.
  intros Hh Hne. unfold Picobot.run, range.
  assert (Hloop :
    Picobot.run_loop bot (Room.count_empty_cells (Picobot.room bot)) stop
      (map Z.of_nat (seq 0 (Z.to_nat max_steps))) 0
    = Ok (bot, if decide (max_steps ≤ 0) then 0
               else if stop && covered bot then 0 else 1)).
  { destruct (Z.to_nat max_steps) as [|n] eqn:Hn; simpl.
    - by rewrite decide_True by lia.
    - destruct (decide (max_steps ≤ 0)) as [|_]; [lia|].
      fold (covered bot). destruct (stop && covered bot); [done|].
      rewrite step_halted_lemma by done. by rsimpl. }
  rewrite Hloop. rsimpl. unfold truediv.
  destruct (decide (Room.count_empty_cells (Picobot.room bot) = 0)); [done|].
  rsimpl. eexists. split; [done|]. cbn. by rewrite Hh.
Qed.

Lemma run_on_halted_witness :
  Picobot._halted halted_demo = true ∧
  ∃ res,
    Picobot.run halted_demo 100 true = Ok (halted_demo, res) ∧
    RunResult.steps res = 1.
Proof.
  split; [by vm_compute|].
  destruct (run_on_halted halted_demo 100 true) as (res & Hrun & Hsteps & _);
    [by vm_compute|by vm_compute|].
  exists res. split; [exact Hrun|]. rewrite Hsteps. by vm_compute.
Defined.

(** X12. [reset] called with the start argument the constructor was given
    restores the agent the constructor built, after any number of steps and
    after any run; unlike the constructor, [reset] accepts every given
    position, a wall or a cell outside the room included. *)
Theorem reset_restores (room : Room.t) (rules : RulesArg)
    (start : option (Z * Z)) (bot0 : Picobot.t) :
  Picobot.init room rules start = Ok bot0 →
  (∀ n bot, steps_from n bot0 = Ok bot → Picobot.reset bot start = Ok bot0) ∧
  (∀ max_steps stop bot res,
     Picobot.run bot0 max_steps stop = Ok (bot, res) →
     Picobot.reset bot start = Ok bot0) ∧
  (∀ bot p, ∃ bot',
     Picobot.reset bot (Some p) = Ok bot' ∧ Picobot.position bot' = p ∧
     Picobot.visited bot' = {[ p ]} ∧ Picobot._halted bot' = false).
Proof.
  intros Hinit.
  assert (∃ rl p,
    bot0 = fresh room rl p ∧
    ∀ bot, Picobot.room bot = room → Picobot.rules bot = rl →
           Picobot.reset bot start = Ok bot0) as (rl & p & -> & Hreset).
  { revert Hinit. unfold Picobot.init, Picobot.reset. fold (rules_of rules).
    destruct (rules_of rules) as [rl|]; rsimpl; [|done].
    destruct start as [[row col]|].
    - destruct (Room.is_wall room row col) as [[]|]; rsimpl; try done.
      intros [= <-]. exists rl, (row, col). split; [done|].
      by intros bot -> ->.
    - destruct (Room.get_empty_cells room) as [[|p cells]|] eqn:Hcells;
        rsimpl; try done.
      intros [= <-]. exists rl, p. split; [done|].
      intros bot -> ->. rewrite Hcells. by rsimpl. }
  assert (Hsteps : ∀ n bot, steps_from n (fresh room rl p) = Ok bot →
                            Picobot.reset bot start = Ok (fresh room rl p)).
  { intros n bot (Hroom & Hrules & _)%steps_from_frame. by apply Hreset. }
  split_and!; [done| |].
  - intros max_steps stop bot res (m & _ & Hm & _)%run_Ok. by eapply Hsteps.
  - intros bot q. eexists. by split_and!.
Qed.

Lemma reset_restores_witness :
  Picobot.init demo_room (RulesList demo_rules) None
  = Ok (fresh demo_room demo_rules (1, 1)) ∧
  ∃ bot,
    steps_from 3 (fresh demo_room demo_rules (1, 1)) = Ok bot ∧
    Picobot.reset bot None = Ok (fresh demo_room demo_rules (1, 1)).
Proof.
  split; [by vm_compute|].
  destruct (steps_from 3 (fresh demo_room demo_rules (1, 1)))
    as [bot|] eqn:Hsteps; [|by vm_compute in Hsteps].
  exists bot. split; [done|].
  destruct (reset_restores demo_room (RulesList demo_rules) None
              (fresh demo_room demo_rules (1, 1))) as (Hreset & _);
    [by vm_compute|].
  exact (Hreset 3%nat bot Hsteps).
Defined.

(** X13. The constructor on a room accepted by [Room]: it returns exactly
    the agent in state 0 with empty history, not halted, whose visited set
    is the start cell alone; the start cell is empty, and is the given one,
    or without one the first empty cell in row-major order. It raises the
    rule text's parsing error first; otherwise a [ValueError] naming the
    given position when that is a wall or out of bounds, or saying that
    the room has no empty cells when none is given and the room has
    none. *)
Theorem picobot_init_cases (g : list (list Cell)) (room : Room.t)
    (rules : RulesArg) (start : option (Z * Z)) :
  Room.init g = Ok room →
  match Picobot.init room rules start with
  | Ok bot =>
      ∃ rl p,
        rules_of rules = Ok rl ∧ bot = fresh room rl p ∧
        Room.is_empty room p.1 p.2 = Ok true ∧
        match start with
        | Some q => p = q
        | None => ∀ q, Room.is_empty room q.1 q.2 = Ok true →
                       q = p ∨ row_major_lt p q
        end
  | Raise e =>
      rules_of rules = Raise e ∨
      ∃ rl,
        rules_of rules = Ok rl ∧
        match start with
        | Some (row, col) =>
            Room.is_wall room row col = Ok true ∧
            e = ValueError
                  (lit "Starting position (" ++ str_of_Z row ++ lit ", "
                     ++ str_of_Z col ++ lit ") is a wall or out of bounds.")
        | None =>
            Room.count_empty_cells room = 0 ∧
            e = ValueError (lit "Room has no empty cells!")
        end
  end.
Proof.
  intros (Hwf & _)%init_Ok.
  unfold Picobot.init. fold (rules_of rules).
  destruct (rules_of rules) as [rl|e]; rsimpl; [|by left].
  destruct start as [[row col]|].
  - destruct (is_wall_total room row col Hwf) as [[] Hw]; rewrite Hw; rsimpl.
    + right. by exists rl.
    + exists rl, (row, col). split_and!; try done.
      unfold Room.is_empty. cbn. by rewrite Hw.
  - rewrite get_empty_cells_spec by done. rsimpl.
    destruct (grid_cells 0 (Room.grid room)) as [|p cells] eqn:Hcells.
    + right. exists rl. split; [done|]. split; [|done].
      by rewrite count_empty_cells_length, Hcells.
    + exists rl, p. split_and!; try done.
      * destruct p as [r c]. apply is_empty_true; [done|].
        rewrite Hcells. by left.
      * intros [r c] Hq%is_empty_true; [|done].
        eapply head_least; [apply (grid_cells_sorted 0 (Room.grid room))| |done].
        by rewrite Hcells.
Qed.

Lemma picobot_init_cases_witness :
  Room.init demo_grid = Ok demo_room ∧
  ∃ rl p,
    Picobot.init demo_room (RulesList demo_rules) None
    = Ok (fresh demo_room rl p) ∧
    Room.is_empty demo_room p.1 p.2 = Ok true.
Proof.
  split; [reflexivity|].
  pose proof (picobot_init_cases demo_grid demo_room (RulesList demo_rules)
                None eq_refl) as H.
  destruct (Picobot.init demo_room (RulesList demo_rules) None)
    as [bot|e] eqn:Hinit; [|by vm_compute in Hinit].
  destruct H as (rl & p & _ & -> & Hp & _).
  by exists rl, p.
Defined.

(** X14. The result of a run of an agent built by the constructor agrees
    with the accessors of the agent afterwards: ['success'] is
    [is_complete], ['coverage'] is [coverage_percent], ['visited'] is the
    size of the visited set and ['total'] the number of empty cells. At
    least one and at most ['total'] cells are visited, so the coverage lies
    above 0 and is at most 100, and ['success'] holds exactly when all
    empty cells are visited, that is when the coverage is 100. *)
Theorem run_report (g : list (list Cell)) (room : Room.t)
    (rules : RulesArg) (start : option (Z * Z)) (bot0 bot' : Picobot.t)
    (max_steps : Z) (stop : bool) (res : RunResult.t) :
  Room.init g = Ok room →
  Picobot.init room rules start = Ok bot0 →
  Picobot.run bot0 max_steps stop = Ok (bot', res) →
  RunResult.success res = Picobot.is_complete bot' ∧
  Picobot.coverage_percent bot' = Ok (RunResult.coverage res) ∧
  RunResult.visited res = len_set (Picobot.visited bot') ∧
  RunResult.total res = Room.count_empty_cells room ∧
  1 ≤ RunResult.visited res ≤ RunResult.total res ∧
  (0 < RunResult.coverage res)%Q ∧
  (RunResult.coverage res <= inject_Z 100)%Q ∧
  (RunResult.success res = true ↔
   RunResult.visited res = RunResult.total res) ∧
  (RunResult.success res = true ↔ RunResult.coverage res == inject_Z 100)%Q.
Proof.
  intros (Hwf & _)%init_Ok Hinit Hrun.
  pose proof Hinit as (Hroom0 & _ & Hopen0)%init_stands_open; [|done].
  pose proof Hinit as (rl & p & _ & _ & ->)%init_fresh; [|done].
  apply run_Ok in Hrun as (m & _ & Hsteps & _ & _ & Hne & ->).
  cbn [Picobot.room fresh] in *.
  apply steps_from_frame in Hsteps as (Hroom & _ & Hsub & Hkeep).
  specialize (Hkeep Hopen0). cbn in Hroom, Hsub.
  destruct (visited_bound room bot' Hwf Hroom Hkeep) as [_ Hle].
  assert (Hone : 1 ≤ len_set (Picobot.visited bot')).
  { apply subseteq_size in Hsub. rewrite size_singleton in Hsub.
    unfold len_set. lia. }
  destruct (covered_percent _ _ Hone Hle) as (Hpos & Hmax & Hfull).
  cbn [RunResult.success RunResult.coverage RunResult.visited RunResult.total].
  unfold Picobot.is_complete, Picobot.coverage_percent. rewrite Hroom.
  split_and!; try done.
  - destruct (decide (Room.count_empty_cells room = 0)); [done|].
    unfold truediv. by destruct (decide (Room.count_empty_cells room = 0)).
  - rewrite Z.geb_leb, Z.leb_le. lia.
  - rewrite Hfull, Z.geb_leb, Z.leb_le. lia.
Qed.

Lemma run_report_witness :
  Room.init demo_grid = Ok demo_room ∧
  Picobot.init demo_room (RulesList demo_rules) (Some (2, 2))
  = Ok (fresh demo_room demo_rules (2, 2)) ∧
  ∃ bot' res,
    Picobot.run (fresh demo_room demo_rules (2, 2)) 100 true
    = Ok (bot', res) ∧
    RunResult.success res = Picobot.is_complete bot'.
Proof.
  split; [reflexivity|]. split; [by vm_compute|].
  destruct (Picobot.run (fresh demo_room demo_rules (2, 2)) 100 true)
    as [[bot' res]|] eqn:Hrun; [|by vm_compute in Hrun].
  exists bot', res. split; [done|].
  apply (run_report demo_grid demo_room (RulesList demo_rules)
           (Some (2, 2)) (fresh demo_room demo_rules (2, 2)) bot' 100 true);
    [reflexivity|by vm_compute|exact Hrun].
Defined.

(** ** More on rules and their text *)

Section ParserMore.

Lemma parse_line_clean n l1 l2 :
  clean l1 = clean l2 → Parser.parse_line n l1 = Parser.parse_line n l2.
Proof.
  intros H. unfold Parser.parse_line. cbv zeta.
  fold (clean l1). fold (clean l2). by rewrite H.
Qed.

Lemma parse_lines_clean ls1 ls2 n acc :
  map clean ls1 = map clean ls2 →
  Parser.parse_lines ls1 n acc = Parser.parse_lines ls2 n acc.
Proof.
  revert ls2 n acc. induction ls1 as [|l1 ls1 IH]; intros [|l2 ls2] n acc;
    try done.
  intros [= Hl Hls]. simpl. rewrite (parse_line_clean n l1 l2 Hl).
  destruct (Parser.parse_line n l2) as [o|]; rsimpl; [|done]. by apply IH.
Qed.

Lemma str_index_None c s : c ∉ s → str_index c s = None.
Proof.
  induction s as [|d s IH]; [done|]. intros Hc. simpl.
  destruct (decide (d = c)) as [->|Hne].
  - exfalso. apply Hc. by left.
  - rewrite IH; [done|]. intros Hin. apply Hc. by right.
Qed.

Lemma str_index_None_inv c s : str_index c s = None → c ∉ s.
Proof.
  induction s as [|d s IH]; [intros _; apply not_elem_of_nil|].
  cbn [str_index]. destruct (decide (d = c)) as [->|Hne]; [done|].
  destruct (str_index c s); [done|]. intros _.
  intros [->|Hin]%elem_of_cons; [done|]. by apply IH.
Qed.

Lemma str_index_Some c s i :
  str_index c s = Some i → (c ∉ take i s) ∧ (i ≤ length s)%nat.
Proof.
  revert i. induction s as [|d s IH]; intros i; [done|]. simpl.
  destruct (decide (d = c)) as [->|Hne].
  - intros [= <-]. cbn. split; [apply not_elem_of_nil|lia].
  - destruct (str_index c s) as [j|]; [|done]. intros [= <-].
    destruct (IH j eq_refl) as [Hnot Hle]. cbn. split; [|lia].
    intros [->|Hin]%elem_of_cons; [done|]. by apply Hnot.
Qed.

Lemma remove_comment_prefix l :
  ("#"%char ∉ Parser.remove_comment l) ∧
  ∃ rest, l = Parser.remove_comment l ++ rest.
Proof.
  unfold Parser.remove_comment.
  destruct (str_index "#"%char l) as [i|] eqn:Hi.
  - apply str_index_Some in Hi as [Hnot _]. split; [done|].
    exists (drop i l). by rewrite take_drop.
  - split; [by apply str_index_None_inv|exists []; by rewrite app_nil_r].
Qed.

Lemma clean_part l :
  ("#"%char ∉ clean l) ∧ ∃ a b, l = a ++ clean l ++ b.
Proof.
  unfold clean.
  destruct (remove_comment_prefix l) as [Hnot [rest Hl]].
  destruct (strip_spec (Parser.remove_comment l)) as (a & b & Hs & _).
  split.
  - intros Hin. apply Hnot. rewrite Hs.
    apply elem_of_app. right. apply elem_of_app. by left.
  - exists a, (b ++ rest). rewrite Hl at 1. rewrite Hs at 1.
    by rewrite <- !app_assoc.
Qed.

Lemma clean_idem l : clean (clean l) = clean l.
Proof.
  destruct (clean_part l) as [Hnot _]. unfold clean at 1.
  unfold Parser.remove_comment. rewrite str_index_None by done.
  unfold clean. apply strip_idem.
Qed.

Lemma clean_no_nl l : no_nl l → no_nl (clean l).
Proof.
  intros Hl. destruct (clean_part l) as [_ (a & b & Heq)].
  unfold no_nl in *. rewrite Heq in Hl.
  apply Forall_app in Hl as [_ Hl]. by apply Forall_app in Hl as [Hl _].
Qed.

Lemma parses_numbers n lines rules :
  parses n lines rules →
  Forall (λ r, ∃ k line,
            Rule.line_number r = n + Z.of_nat k ∧ lines !! k = Some line ∧
            clean line ≠ [] ∧ parses 1 [line] [at_line r 1]) rules ∧
  StronglySorted Z.lt (map Rule.line_number rules) ∧
  length rules = length (filter (λ l, clean l ≠ []) lines).
Proof.
  induction 1 as [n|n line lines rules Hblank _ (IHn & IHs & IHl)
                 |n line lines rules g1 g2 g3 g4 Hg S1 S4 Hr1 Hr4 _
                    (IHn & IHs & IHl)].
  - by split_and!; constructor.
  - apply blank_clean in Hblank. split_and!; [|done|].
    + eapply Forall_impl; [exact IHn|]. cbn.
      intros r (k & l & Hk & Hl & Hc & Hp). exists (S k), l.
      split_and!; [lia|done|done|done].
    + rewrite filter_cons_False; [done|]. by intros ?.
  - assert (Hne : clean line ≠ []).
    { rewrite <- blank_clean. by eapply reads_as_not_blank. }
    assert (Hshift : Forall (λ r, ∃ k l,
              Rule.line_number r = n + Z.of_nat k ∧
              (line :: lines) !! k = Some l ∧ clean l ≠ [] ∧
              parses 1 [l] [at_line r 1]) rules).
    { eapply Forall_impl; [exact IHn|]. cbn.
      intros r (k & l & Hk & Hl & Hc & Hp). exists (S k), l.
      split_and!; [lia|done|done|done]. }
    split_and!.
    + constructor; [|done]. exists 0%nat, line.
      split_and!; [cbn; lia|done|done|].
      change (at_line (rule_of_groups g1 g2 g3 g4 n) 1)
        with (rule_of_groups g1 g2 g3 g4 1).
      apply parses_rule; try done. constructor.
    + cbn [map]. constructor; [done|].
      apply Forall_map. eapply Forall_impl; [exact IHn|]. cbn.
      intros r (k & _ & Hk & _). lia.
    + rewrite filter_cons_True by done. cbn [length]. by rewrite IHl.
Qed.

(** Two lines with the same text before their comments, up to white space
    at both ends. *)
Definition same_content (l1 l2 : pystr) : Prop :=
  ∃ c a1 b1 a2 b2,
    before_comment l1 = a1 ++ c ++ b1 ∧ before_comment l2 = a2 ++ c ++ b2 ∧
    all is_space a1 ∧ all is_space b1 ∧ all is_space a2 ∧ all is_space b2.

Lemma strip_surround a c b :
  all is_space a → all is_space b → strip (a ++ c ++ b) = strip c.
Proof.
  intros Ha Hb.
  destruct (strip_spec c) as (a' & b' & E & Ha' & Hb' & Hstop & Hrstop).
  destruct (decide (strip c = [])) as [E0|Hne].
  - rewrite E0. apply strip_nil. apply strip_nil in E0.
    apply Forall_app. split; [done|]. by apply Forall_app.
  - rewrite E at 1.
    replace (a ++ (a' ++ strip c ++ b') ++ b)
      with ((a ++ a') ++ strip c ++ (b' ++ b)) by by rewrite <- !app_assoc.
    apply strip_between; try done; by apply Forall_app.
Qed.

Lemma same_content_clean l1 l2 : same_content l1 l2 → clean l1 = clean l2.
Proof.
  intros (c & a1 & b1 & a2 & b2 & E1 & E2 & ? & ? & ? & ?).
  unfold clean. rewrite !remove_comment_before, E1, E2.
  by rewrite !strip_surround.
Qed.

Lemma before_comment_part l :
  ("#"%char ∉ before_comment l) ∧ ∃ rest, l = before_comment l ++ rest.
Proof. rewrite <- remove_comment_before. apply remove_comment_prefix. Qed.

Lemma before_comment_free l : "#"%char ∉ l → before_comment l = l.
Proof.
  induction l as [|c l IH]; [done|]. intros Hc. cbn [before_comment].
  destruct (decide (c = "#"%char)) as [->|_].
  - exfalso. apply Hc. by left.
  - rewrite IH; [done|]. intros Hin. apply Hc. by right.
Qed.

Definition rule_states (rl : list Rule.t) : gset Z :=
  list_to_set (map Rule.state rl ++ map Rule.new_state rl).

Lemma fold_states rl (acc : gset Z) :
  fold_left
    (λ (states : gset Z) rule,
       states ∪ {[ Rule.state rule ]} ∪ {[ Rule.new_state rule ]}) rl acc
  = acc ∪ rule_states rl.
Proof.
  revert acc. induction rl as [|r rl IH]; intros acc; cbn [fold_left].
  - unfold rule_states. cbn. by rewrite (right_id_L ∅ (∪)).
  - rewrite IH. apply set_eq. intros x. unfold rule_states. cbn [map app].
    rewrite !elem_of_union, !elem_of_list_to_set, !elem_of_singleton.
    rewrite elem_of_cons, !elem_of_app, elem_of_cons. tauto.
Qed.

Lemma size_list_to_set_le (l : list Z) :
  (size (list_to_set l : gset Z) ≤ length l)%nat.
Proof.
  induction l as [|x l IH]; cbn [list_to_set length].
  - by rewrite size_empty.
  - rewrite size_union_alt, size_singleton.
    assert (size (list_to_set l ∖ {[x]} : gset Z)
            ≤ size (list_to_set l : gset Z))%nat; [|lia].
    apply subseteq_size. intros y Hy. by apply elem_of_difference in Hy as [? _].
Qed.

Lemma size_in_range (X : gset Z) :
  (∀ x, x ∈ X → in_range x) → (size X ≤ 100)%nat.
Proof.
  intros HX.
  assert (Hsub : X ⊆ list_to_set (map Z.of_nat (seq 0 100))).
  { intros x Hx. apply elem_of_list_to_set. apply HX in Hx as [? ?].
    apply list_elem_of_fmap. exists (Z.to_nat x). split; [lia|].
    apply elem_of_seq. lia. }
  apply subseteq_size in Hsub. rewrite size_list_to_set in Hsub.
  - by rewrite length_map, length_seq in Hsub.
  - apply NoDup_fmap_2; [apply Nat2Z.inj'|apply NoDup_seq].
Qed.

End ParserMore.

(** X15. Every rule returned by [parse_rules] carries the number of the
    line it was read from: that line of the text, taken alone, parses to
    the same rule at line 1. The line numbers lie between 1 and the number
    of lines and increase strictly along the list, and there are as many
    rules as lines that are not blank once comment and surrounding white
    space are removed. *)
Theorem parse_rules_line_numbers (text : pystr) (rules : list Rule.t) :
  parse_rules text = Ok rules →
  Forall (λ r,
    1 ≤ Rule.line_number r ≤ Z.of_nat (length (split_nl text)) ∧
    ∃ line,
      split_nl text !! Z.to_nat (Rule.line_number r - 1) = Some line ∧
      parse_rules line = Ok [at_line r 1]) rules ∧
  StronglySorted Z.lt (map Rule.line_number rules) ∧
  length rules = length (filter (λ l, clean l ≠ []) (split_nl text)).
Proof.
  unfold parse_rules at 1. intros (rs & Hp & ->)%parse_lines_Ok.
  cbn [app]. apply parses_numbers in Hp as (Hn & Hs & Hl).
  split_and!; [|done|done].
  eapply Forall_impl; [exact Hn|]. cbn.
  intros r (k & line & Hk & Hline & _ & Hp).
  pose proof (lookup_lt_Some _ _ _ Hline) as Hlt.
  split; [lia|]. exists line.
  replace (Z.to_nat (Rule.line_number r - 1)) with k by lia.
  split; [done|].
  destruct (split_nl_facts text) as (_ & Hnl & _).
  unfold parse_rules.
  rewrite (split_nl_line line) by by eapply Forall_lookup_1 in Hnl.
  apply parse_lines_Ok. by exists [at_line r 1].
Qed.

Lemma parse_rules_line_numbers_witness :
  parse_rules commented_text = Ok [north_rule 2] ∧
  StronglySorted Z.lt (map Rule.line_number [north_rule 2]).
Proof.
  split; [by vm_compute|].
  destruct (parse_rules_line_numbers commented_text [north_rule 2])
    as (_ & Hs & _); [by vm_compute|].
  exact Hs.
Defined.

(** X16. [parse_rules] reads of each line only the text before its first
    ['#'], without the white space at both ends: two texts whose lines
    agree on that text, in order, parse alike, to the same rules with the
    same line numbers or to the same error. So do, in particular, a text
    and the text with all its comments removed. *)
Theorem parse_rules_ignores_comments (text : pystr) :
  (∀ text',
     Forall2 same_content (split_nl text') (split_nl text) →
     parse_rules text' = parse_rules text) ∧
  parse_rules (join_nl (map before_comment (split_nl text)))
  = parse_rules text.
Proof.
  assert (Hsame : ∀ text',
    Forall2 same_content (split_nl text') (split_nl text) →
    parse_rules text' = parse_rules text).
  { intros text' H. unfold parse_rules. apply parse_lines_clean.
    induction H as [|l1 l2 ls1 ls2 Hl _ IH]; [done|].
    cbn [map]. by rewrite (same_content_clean l1 l2 Hl), IH. }
  split; [exact Hsame|]. apply Hsame.
  destruct (split_nl_facts text) as (Hne & Hnl & _).
  rewrite split_join_lines.
  - apply Forall2_fmap_l, Forall_Forall2_diag, Forall_forall. intros l _.
    destruct (before_comment_part l) as [Hfree _].
    exists (before_comment l), [], [], [], [].
    rewrite before_comment_free by done. rewrite app_nil_r.
    by split_and!; try constructor.
  - by destruct (split_nl text).
  - apply Forall_map. eapply Forall_impl; [exact Hnl|]. cbn.
    intros l Hl. destruct (before_comment_part l) as [_ [rest E]].
    unfold no_nl in *. rewrite E in Hl. by apply Forall_app in Hl as [? _].
Qed.

(** X17. [count_rules] and [count_states] raise exactly the parsing error
    of a rule text and otherwise return the length of the list and the
    number of distinct integers among the states and new states of its
    rules: at most twice the number of rules, 0 only for no rule, and at
    most 100 for a rule text. *)
Theorem count_states_bounds (rules : RulesArg) :
  match rules_of rules with
  | Ok rl =>
      count_rules rules = Ok (Z.of_nat (length rl)) ∧
      ∃ n,
        count_states rules = Ok n ∧
        n = Z.of_nat (size (rule_states rl)) ∧
        n ≤ 2 * Z.of_nat (length rl) ∧
        (n = 0 ↔ rl = []) ∧
        (∀ r, r ∈ rl → Rule.state r ∈ rule_states rl ∧
                       Rule.new_state r ∈ rule_states rl) ∧
        (∀ text, rules = RulesText text → n ≤ 100)
  | Raise e => count_rules rules = Raise e ∧ count_states rules = Raise e
  end.
Proof.
  unfold count_rules, count_states. fold (rules_of rules).
  destruct (rules_of rules) as [rl|e] eqn:Hrl; rsimpl; [|done].
  split; [done|]. eexists. split; [done|].
  rewrite fold_states, (left_id_L ∅ (∪)).
  assert (Hin : ∀ r, r ∈ rl → Rule.state r ∈ rule_states rl ∧
                               Rule.new_state r ∈ rule_states rl).
  { intros r Hr. unfold rule_states.
    rewrite !elem_of_list_to_set, !elem_of_app.
    split; [left|right]; by apply list_elem_of_fmap_2. }
  split_and!; [done| | |done|].
  - pose proof (size_list_to_set_le
                  (map Rule.state rl ++ map Rule.new_state rl)) as Hle.
    rewrite length_app, !length_map in Hle. unfold rule_states. lia.
  - split.
    + intros H0. destruct rl as [|r rl]; [done|exfalso].
      destruct (Hin r) as [Hs _]; [by left|].
      assert ({[ Rule.state r ]} ⊆ rule_states (r :: rl)) as Hsub.
      { intros x ->%elem_of_singleton. done. }
      apply subseteq_size in Hsub. rewrite size_singleton in Hsub. lia.
    + intros ->. done.
  - intros text ->. cbn in Hrl.
    unfold parse_rules in Hrl. apply parse_lines_Ok in Hrl as (rs & Hp & ->).
    cbn [app]. apply parses_shape in Hp.
    assert (size (rule_states rs) ≤ 100)%nat; [|lia].
    apply size_in_range. intros x. unfold rule_states.
    rewrite elem_of_list_to_set, elem_of_app.
    intros [(r & -> & Hr)%list_elem_of_fmap|(r & -> & Hr)%list_elem_of_fmap];
      eapply Forall_forall in Hp as (? & _ & _ & _ & ?); done.
Qed.

(** X18. [Rule.matches] compares the state and then only the slots that
    the pattern and the surroundings both have: it holds exactly when the
    states agree and every such slot of the pattern is the wildcard or the
    observed character. A rule built with an empty pattern, or with a
    pattern of wildcards of any length, therefore matches every
    surroundings in its state. *)
Theorem rule_matches_common_slots (r : Rule.t) (st : Z) (sur : pystr) :
  (Rule.matches r st sur = true ↔
   st = Rule.state r ∧
   ∀ i p s, Rule.surroundings_pattern r !! i = Some p → sur !! i = Some s →
            p = "*"%char ∨ p = s) ∧
  (Forall (λ p, p = "*"%char) (Rule.surroundings_pattern r) →
   Rule.matches r (Rule.state r) sur = true) ∧
  Rule.matches r st sur
  = Rule.matches r st (take (length (Rule.surroundings_pattern r)) sur).
Proof.
  assert (Hiff : ∀ sur',
    Rule.matches r st sur' = true ↔
    st = Rule.state r ∧
    ∀ i p s, Rule.surroundings_pattern r !! i = Some p → sur' !! i = Some s →
             p = "*"%char ∨ p = s).
  { intros sur'. unfold Rule.matches.
    destruct (decide (st ≠ Rule.state r)) as [Hne|Heq%dec_stable].
    - split; [done|]. by intros [? _].
    - rewrite zip_matches_lookup. split; [by intros ?|by intros [_ ?]]. }
  split_and!; [apply Hiff| |].
  - intros Hall. unfold Rule.matches.
    destruct (decide (Rule.state r ≠ Rule.state r)) as [|_]; [done|].
    apply zip_matches_lookup. intros i p s Hp _. left.
    by eapply Forall_lookup_1 in Hall.
  - destruct (Rule.matches r st sur) eqn:Hm; symmetry.
    + apply Hiff in Hm as [Hst Hslots]. apply Hiff. split; [done|].
      intros i p s Hp Hs. apply lookup_take_Some in Hs as [Hs _]. eauto.
    + apply not_true_iff_false. intros [Hst Hslots]%Hiff.
      apply not_true_iff_false in Hm. apply Hm, Hiff. split; [done|].
      intros i p s Hp Hs. apply (Hslots i p s Hp).
      apply lookup_take_Some. split; [done|]. by apply lookup_lt_Some in Hp.
Qed.

(** X19. [get_surroundings] returns four characters in the order north,
    east, west, south: the direction's own letter where [is_wall] holds for
    that neighbour and 'x' where it does not. A rule with four slots that
    has, in some slot, a character other than that slot's letter, 'x' or
    the wildcard (for instance a pattern written in another order of the
    directions) matches no surroundings the agent ever observes. *)
Theorem surroundings_letters (bot : Picobot.t) (sur : pystr) :
  Picobot.get_surroundings bot = Ok sur →
  let '(row, col) := Picobot.position bot in
  ∃ a b c d,
    sur = [a; b; c; d] ∧
    (a = "N"%char ∨ a = "x"%char) ∧ (b = "E"%char ∨ b = "x"%char) ∧
    (c = "W"%char ∨ c = "x"%char) ∧ (d = "S"%char ∨ d = "x"%char) ∧
    (a = "N"%char ↔ Room.is_wall (Picobot.room bot) (row + -1) (col + 0)
                    = Ok true) ∧
    (b = "E"%char ↔ Room.is_wall (Picobot.room bot) (row + 0) (col + 1)
                    = Ok true) ∧
    (c = "W"%char ↔ Room.is_wall (Picobot.room bot) (row + 0) (col + -1)
                    = Ok true) ∧
    (d = "S"%char ↔ Room.is_wall (Picobot.room bot) (row + 1) (col + 0)
                    = Ok true) ∧
    ∀ r p1 p2 p3 p4 st,
      Rule.surroundings_pattern r = [p1; p2; p3; p4] →
      (p1 ∉ lit "Nx*") ∨ (p2 ∉ lit "Ex*") ∨ (p3 ∉ lit "Wx*")
      ∨ (p4 ∉ lit "Sx*") →
      Rule.matches r st sur = false.
Proof.
  intros (wn & we & ww & ws & Hn & He & Hw & Hs & ->)%get_surroundings_Ok.
  destruct (Picobot.position bot) as [row col]. cbn [fst snd] in *.
  assert (slot "N" wn ++ slot "E" we ++ slot "W" ww ++ slot "S" ws
          = [if wn then "N" else "x"; if we then "E" else "x";
             if ww then "W" else "x"; if ws then "S" else "x"]%char) as ->
    by (by destruct wn, we, ww, ws).
  exists (if wn then "N" else "x")%char, (if we then "E" else "x")%char,
         (if ww then "W" else "x")%char, (if ws then "S" else "x")%char.
  split_and!.
  - done.
  - destruct wn; auto.
  - destruct we; auto.
  - destruct ww; auto.
  - destruct ws; auto.
  - rewrite Hn. by destruct wn.
  - rewrite He. by destruct we.
  - rewrite Hw. by destruct ww.
  - rewrite Hs. by destruct ws.
  - intros r p1 p2 p3 p4 st Hpat Hbad.
    apply not_true_iff_false. unfold Rule.matches.
    destruct (decide (st ≠ Rule.state r)); [done|].
    rewrite Hpat, zip_matches_lookup. intros Hslots.
    pose proof (Hslots 0%nat p1 _ eq_refl eq_refl) as H1.
    pose proof (Hslots 1%nat p2 _ eq_refl eq_refl) as H2.
    pose proof (Hslots 2%nat p3 _ eq_refl eq_refl) as H3.
    pose proof (Hslots 3%nat p4 _ eq_refl eq_refl) as H4.
    clear Hslots Hn He Hw Hs.
    change (lit "Nx*") with ["N"; "x"; "*"]%char in Hbad.
    change (lit "Ex*") with ["E"; "x"; "*"]%char in Hbad.
    change (lit "Wx*") with ["W"; "x"; "*"]%char in Hbad.
    change (lit "Sx*") with ["S"; "x"; "*"]%char in Hbad.
    rewrite !elem_of_cons, !elem_of_nil in Hbad.
    destruct Hbad as [Hb|[Hb|[Hb|Hb]]]; apply Hb.
    + destruct H1 as [-> | ->]; [tauto|]. destruct wn; tauto.
    + destruct H2 as [-> | ->]; [tauto|]. destruct we; tauto.
    + destruct H3 as [-> | ->]; [tauto|]. destruct ww; tauto.
    + destruct H4 as [-> | ->]; [tauto|]. destruct ws; tauto.
Qed.

Lemma surroundings_letters_witness :
  Picobot.get_surroundings (fresh demo_room demo_rules (1, 1))
  = Ok (lit "NxWx") ∧
  Rule.matches (Rule.mk 0 (lit "**S*") (lit "N") 0 1) 0 (lit "NxWx") = false.
Proof.
  split; [by vm_compute|].
  destruct (surroundings_letters (fresh demo_room demo_rules (1, 1))
              (lit "NxWx")) as (a & b & c & d & _ & _ & _ & _ & _ & _ & _ & _
                                & _ & Hdead); [by vm_compute|].
  apply (Hdead (Rule.mk 0 (lit "**S*") (lit "N") 0 1) "*" "*" "S" "*"
           0 eq_refl)%char.
  right. right. left. apply (bool_decide_unpack _). by vm_compute.
Defined.

Section StateMore.

Lemma init_fresh_any room rules start bot :
  Picobot.init room rules start = Ok bot →
  ∃ rl p, rules_of rules = Ok rl ∧ bot = fresh room rl p.
Proof.
  unfold Picobot.init. fold (rules_of rules).
  destruct (rules_of rules) as [rl|]; rsimpl; [|done].
  destruct start as [[row col]|].
  - destruct (Room.is_wall room row col) as [[]|]; rsimpl; try done.
    intros [= <-]. by exists rl, (row, col).
  - destruct (Room.get_empty_cells room) as [[|p cells]|]; rsimpl; try done.
    intros [= <-]. by exists rl, p.
Qed.

End StateMore.

(** X20. After any number of steps of an agent built by the constructor,
    the room and the rule list are the constructor's, and the state is 0
    or the new state of one of the rules; for rules given as text it
    therefore stays within 0..99. *)
Theorem state_stays_listed (room : Room.t) (rules : RulesArg)
    (start : option (Z * Z)) (bot0 bot : Picobot.t) (n : nat) :
  Picobot.init room rules start = Ok bot0 →
  steps_from n bot0 = Ok bot →
  Picobot.room bot = room ∧
  rules_of rules = Ok (Picobot.rules bot) ∧
  (Picobot.state bot = 0 ∨
   ∃ r, r ∈ Picobot.rules bot ∧ Picobot.state bot = Rule.new_state r) ∧
  (∀ text, rules = RulesText text → 0 ≤ Picobot.state bot ≤ 99).
Proof.
  intros (rl & p & Hrl & ->)%init_fresh_any Hsteps.
  pose proof (steps_logged p 0 n _ _ 0 Hsteps (fresh_logged room rl p))
    as (_ & _ & _ & _ & _ & Hst).
  apply steps_from_frame in Hsteps as (Hroom & Hrules & _).
  cbn in Hroom, Hrules. rewrite Hrules.
  split_and!; [done|done|by rewrite Hrules in Hst|].
  intros text ->. cbn in Hrl. unfold parse_rules in Hrl.
  apply parse_lines_Ok in Hrl as (rs & Hp%parses_shape & ->). cbn [app] in *.
  destruct Hst as [->|(r & Hr & ->)]; [lia|].
  rewrite Hrules in Hr.
  by eapply Forall_forall in Hp as (_ & _ & _ & _ & ?).
Qed.

Lemma state_stays_listed_witness :
  Picobot.init demo_room (RulesList demo_rules) (Some (1, 1))
  = Ok (fresh demo_room demo_rules (1, 1)) ∧
  ∃ bot,
    steps_from 2 (fresh demo_room demo_rules (1, 1)) = Ok bot ∧
    Picobot.room bot = demo_room.
Proof.
  split; [by vm_compute|].
  destruct (steps_from 2 (fresh demo_room demo_rules (1, 1)))
    as [bot|] eqn:Hsteps; [|by vm_compute in Hsteps].
  exists bot. split; [done|].
  apply (state_stays_listed demo_room (RulesList demo_rules) (Some (1, 1))
           (fresh demo_room demo_rules (1, 1)) bot 2); [by vm_compute|done].
Defined.

(** ** More on the exhaustive tester and the room statistics *)

#[local] Existing Instance passed_dec | 0.

Section TesterMore.

Lemma fold_max_spec l x :
  x ≤ fold_left Z.max l x ∧
  Forall (λ y, y ≤ fold_left Z.max l x) l ∧
  (fold_left Z.max l x = x ∨ fold_left Z.max l x ∈ l).
Proof.
  revert x. induction l as [|y l IH]; intros x; cbn [fold_left].
  - split_and!; [lia|constructor|by left].
  - destruct (IH (Z.max x y)) as (Hle & Hall & Hin). split_and!; [lia| |].
    + constructor; [lia|done].
    + destruct Hin as [->|Hin]; [|right; by right].
      destruct (Z.max_spec x y) as [[_ ->]|[_ ->]]; [right; by left|by left].
Qed.

Lemma list_max_spec l lo hi :
  l ≠ [] → Forall (λ y, lo ≤ y ≤ hi) l →
  lo ≤ Tester.list_max l ≤ hi ∧ Forall (λ y, y ≤ Tester.list_max l) l.
Proof.
  destruct l as [|x l]; [done|]. intros _ [Hx Hl]%Forall_cons.
  unfold Tester.list_max. destruct (fold_max_spec l x) as (Hle & Hall & Hin).
  split.
  - destruct Hin as [->|Hin]; [done|]. by eapply Forall_forall in Hl.
  - by constructor.
Qed.

Lemma fold_sum_spec l acc hi :
  Forall (λ y, 0 ≤ y ≤ hi) l →
  acc ≤ fold_left Z.add l acc ≤ acc + hi * Z.of_nat (length l).
Proof.
  revert acc. induction l as [|y l IH]; intros acc Hl; cbn [fold_left length].
  - lia.
  - apply Forall_cons in Hl as [Hy Hl]. specialize (IH (acc + y) Hl). lia.
Qed.

Lemma average_bounds (total len hi : Z) :
  0 < len → 0 ≤ total ≤ hi * len →
  (0 <= inject_Z total / inject_Z len)%Q ∧
  (inject_Z total / inject_Z len <= inject_Z hi)%Q.
Proof.
  intros Hlen Ht. destruct len as [|len|len]; try lia.
  unfold Qdiv, Qinv, Qmult, Qle, inject_Z. cbn -[Z.mul]. split; lia.
Qed.

Lemma filter_passed_split (R : Z * Z → RunResult.t → Prop) cells runs :
  Forall2 R cells runs →
  (length (filter (λ pr : (Z * Z) * RunResult.t, ¬ passed pr.2)
             (zip cells runs))
   + length (filter passed runs) = length cells)%nat.
Proof.
  induction 1 as [|c r cells runs _ _ IH]; [done|]. cbn [zip zip_with].
  destruct (decide (passed r)) as [Hp|Hp].
  - rewrite filter_cons_False by (cbn; auto).
    rewrite (filter_cons_True passed) by done. cbn [length]. lia.
  - rewrite filter_cons_True by done.
    rewrite (filter_cons_False passed) by done. cbn [length]. lia.
Qed.

(** The dictionary [test_rules_all_positions] returns, from the runs it
    made. *)
Definition tally (cells : list (Z * Z)) (runs : list RunResult.t)
  : TestResult.t :=
  let failures := filter (λ pr : (Z * Z) * RunResult.t, ¬ passed pr.2)
                    (zip cells runs) in
  let steps_list := map RunResult.steps (filter passed runs) in
  {| TestResult.success := bool_decide (length failures = 0%nat);
     TestResult.positions_tested := Z.of_nat (length cells);
     TestResult.positions_passed := Z.of_nat (length (filter passed runs));
     TestResult.failures := failures;
     TestResult.max_steps_used :=
       match steps_list with [] => 0 | _ => Tester.list_max steps_list end;
     TestResult.avg_steps :=
       match steps_list with
       | [] => inject_Z 0
       | _ => (inject_Z (Tester.list_sum steps_list)
               / inject_Z (Z.of_nat (length steps_list)))%Q
       end |}.

Lemma tester_tally room rules max_steps res :
  room_wf room →
  test_rules_all_positions room rules max_steps = Ok res →
  ∃ runs,
    Forall2 (run_from room rules max_steps)
      (grid_cells 0 (Room.grid room)) runs ∧
    res = tally (grid_cells 0 (Room.grid room)) runs.
Proof.
  intros Hwf. unfold test_rules_all_positions.
  rewrite get_empty_cells_spec by done. rsimpl.
  destruct (Tester.loop _ _ _ _ _ _ _) as [out|] eqn:Hloop; rsimpl; [|done].
  apply tester_loop_spec in Hloop as (runs & Hruns & ->).
  cbn [app]. rewrite Z.add_0_l. unfold tally.
  destruct (map RunResult.steps (filter passed runs)) as [|x sl] eqn:Hsl;
    [|unfold truediv; rewrite decide_False by (cbn [length]; lia)];
    rsimpl; intros [= <-]; exists runs; (split; [done|]); cbv zeta;
    by rewrite Hsl.
Qed.

Lemma run_from_steps room rules max_steps pos res :
  run_from room rules max_steps pos res →
  0 ≤ RunResult.steps res ≤ Z.max 0 max_steps.
Proof.
  intros (rl & bot' & _ & _ & (m & Hm & _ & _ & _ & _ & ->)%run_Ok).
  cbn [RunResult.steps]. lia.
Qed.

End TesterMore.

(** X21. The result of [test_rules_all_positions] on a room accepted by
    [Room] adds up: ['positions_tested'] is the number of empty cells, the
    passed positions and the failures together make up the tested ones,
    and ['success'] says that all passed. Every failure names an empty
    cell and the run made from it, which lacks full coverage.
    ['max_steps_used'] lies between 0 and [max_steps], ['avg_steps']
    between 0 and ['max_steps_used'], and both are 0 when no run
    passed. *)
Theorem tester_accounting (g : list (list Cell)) (room : Room.t)
    (rules : RulesArg) (max_steps : Z) (res : TestResult.t) :
  Room.init g = Ok room →
  test_rules_all_positions room rules max_steps = Ok res →
  TestResult.positions_tested res = Room.count_empty_cells room ∧
  TestResult.positions_passed res
  + Z.of_nat (length (TestResult.failures res))
  = TestResult.positions_tested res ∧
  (TestResult.success res = true ↔
   TestResult.positions_passed res = TestResult.positions_tested res) ∧
  Forall (λ pr : (Z * Z) * RunResult.t,
            Room.is_empty room pr.1.1 pr.1.2 = Ok true ∧
            RunResult.success pr.2 = false ∧
            run_from room rules max_steps pr.1 pr.2)
    (TestResult.failures res) ∧
  0 ≤ TestResult.max_steps_used res ≤ Z.max 0 max_steps ∧
  (0 <= TestResult.avg_steps res)%Q ∧
  (TestResult.avg_steps res <= inject_Z (TestResult.max_steps_used res))%Q ∧
  (TestResult.positions_passed res = 0 →
   TestResult.max_steps_used res = 0 ∧
   TestResult.avg_steps res = inject_Z 0).
Proof.
  intros (Hwf & _)%init_Ok (runs & Hruns & ->)%tester_tally; [|done].
  pose proof (filter_passed_split _ _ _ Hruns) as Hsplit.
  unfold tally.
  cbn [TestResult.success TestResult.positions_tested
       TestResult.positions_passed TestResult.failures
       TestResult.max_steps_used TestResult.avg_steps].
  set (cells := grid_cells 0 (Room.grid room)) in *.
  set (failures := filter _ (zip cells runs)) in *.
  assert (Hsteps : Forall (λ y, 0 ≤ y ≤ Z.max 0 max_steps)
                     (map RunResult.steps (filter passed runs))).
  { apply Forall_map, Forall_forall. intros r [_ Hr]%list_elem_of_filter.
    apply list_elem_of_lookup in Hr as [i Hi].
    destruct (Forall2_lookup_r _ _ _ _ _ Hruns Hi) as (c & _ & Hrun).
    by eapply run_from_steps. }
  assert (Hmax :
    0 ≤ match map RunResult.steps (filter passed runs) with
        | [] => 0
        | _ :: _ => Tester.list_max (map RunResult.steps (filter passed runs))
        end ≤ Z.max 0 max_steps).
  { destruct (map RunResult.steps (filter passed runs)) as [|x sl]; [lia|].
    by destruct (list_max_spec (x :: sl) 0 (Z.max 0 max_steps)) as [? _]. }
  split; [by rewrite count_empty_cells_length|].
  split; [lia|].
  split; [rewrite bool_decide_eq_true; lia|].
  split; [|split; [exact Hmax|split; [|split]]].
  - apply Forall_forall. intros [c r] [Hfail Hin]%list_elem_of_filter.
    cbn [fst snd] in *.
    apply list_elem_of_lookup in Hin as [i Hi].
    apply lookup_zip_with_Some in Hi as (c' & r' & [= <- <-] & Hc & Hr).
    split_and!.
    + destruct c as [row col]. apply is_empty_true; [done|].
      by eapply list_elem_of_lookup_2.
    + unfold passed in Hfail. by destruct (RunResult.success r).
    + destruct (Forall2_lookup_l _ _ _ _ _ Hruns Hc) as (r'' & Hr'' & Hrun).
      congruence.
  - destruct (map RunResult.steps (filter passed runs)) as [|x sl];
      [done|].
    pose proof (fold_sum_spec (x :: sl) 0 _ Hsteps) as Hsum.
    fold (Tester.list_sum (x :: sl)) in Hsum.
    eapply average_bounds; [cbn [length]; lia|].
    split; [lia|exact (proj2 Hsum)].
  - destruct (map RunResult.steps (filter passed runs)) as [|x sl];
      [done|].
    destruct (list_max_spec (x :: sl) 0 (Z.max 0 max_steps))
      as [[Hlo _] Hall]; [done|done|].
    assert (Hbound : Forall (λ y, 0 ≤ y ≤ Tester.list_max (x :: sl))
                       (x :: sl)).
    { apply Forall_forall. intros y Hy. split.
      - by eapply Forall_forall in Hsteps as [? _].
      - by eapply Forall_forall in Hall. }
    pose proof (fold_sum_spec (x :: sl) 0 _ Hbound) as Hsum.
    fold (Tester.list_sum (x :: sl)) in Hsum.
    eapply average_bounds; [cbn [length]; lia|].
    split; [lia|exact (proj2 Hsum)].
  - intros H0.
    assert (filter passed runs = []) as ->
      by (apply length_zero_iff_nil; lia).
    done.
Qed.

Lemma tester_accounting_witness :
  Room.init cell_grid = Ok cell_room ∧
  ∃ res,
    test_rules_all_positions cell_room (RulesList []) 10 = Ok res ∧
    TestResult.positions_tested res = Room.count_empty_cells cell_room.
Proof.
  split; [reflexivity|].
  destruct (test_rules_all_positions cell_room (RulesList []) 10)
    as [res|] eqn:Htest; [|by vm_compute in Htest].
  exists res. split; [done|].
  by destruct (tester_accounting cell_grid cell_room (RulesList []) 10 res
                 eq_refl Htest) as [? _].
Defined.

(** X22. On a room without an empty cell [test_rules_all_positions]
    builds no agent: whatever the rules, a text that does not parse
    included, it returns success with no position tested, none passed, no
    failure, and 0 for both step figures. *)
Theorem tester_without_empty_cells (g : list (list Cell)) (room : Room.t)
    (rules : RulesArg) (max_steps : Z) :
  Room.init g = Ok room →
  Room.count_empty_cells room = 0 →
  test_rules_all_positions room rules max_steps
  = Ok {| TestResult.success := true;
          TestResult.positions_tested := 0;
          TestResult.positions_passed := 0;
          TestResult.failures := [];
          TestResult.max_steps_used := 0;
          TestResult.avg_steps := inject_Z 0 |}.
Proof.
  intros (Hwf & _)%init_Ok H0. unfold test_rules_all_positions.
  rewrite get_empty_cells_spec by done. rsimpl.
  rewrite count_empty_cells_length in H0.
  assert (grid_cells 0 (Room.grid room) = []) as ->
    by (apply length_zero_iff_nil; lia).
  done.
Qed.

Lemma tester_without_empty_cells_witness :
  Room.init [[WALL]] = Ok walled_room ∧
  (∃ e, parse_rules (lit "go north") = Raise e) ∧
  ∃ res,
    test_rules_all_positions walled_room (RulesText (lit "go north")) 100
    = Ok res ∧
    TestResult.success res = true.
Proof.
  split; [reflexivity|]. split; [eexists; by vm_compute|].
  eexists. split.
  - exact (tester_without_empty_cells [[WALL]] walled_room
             (RulesText (lit "go north")) 100 eq_refl eq_refl).
  - reflexivity.
Defined.

Section StatisticsMore.

Lemma row_cells_length i j row :
  (length (row_cells i j row) ≤ length row)%nat ∧
  (length (row_cells i j row) = length row ↔ Forall (λ c, c = EMPTY) row).
Proof.
  revert j. induction row as [|c row IH]; intros j; cbn [row_cells].
  - split; [done|]. split; [constructor|done].
  - destruct (IH (S j)) as [Hle Heq]. rewrite length_app. cbn [length].
    destruct (decide (c = EMPTY)) as [->|Hc]; cbn [length].
    + split; [lia|]. rewrite Forall_cons, <- Heq. split; [intros; split; [done|lia]|lia].
    + split; [lia|]. split; [lia|]. by intros [? _]%Forall_cons.
Qed.

Lemma grid_cells_length i g (w : nat) :
  Forall (λ row, length row = w) g →
  (length (grid_cells i g) ≤ length g * w)%nat ∧
  (length (grid_cells i g) = (length g * w)%nat ↔
   Forall (Forall (λ c, c = EMPTY)) g).
Proof.
  revert i. induction g as [|row g IH]; intros i Hw; cbn [grid_cells].
  - split; [done|]. split; [constructor|done].
  - apply Forall_cons in Hw as [Hrow Hw].
    destruct (IH (S i) Hw) as [Hle Heq].
    destruct (row_cells_length (Z.of_nat i) 0 row) as [Hrle Hreq].
    rewrite length_app. cbn [length]. split; [lia|].
    rewrite Forall_cons, <- Heq, <- Hreq. lia.
Qed.

Lemma all_empty_open room :
  room_wf room →
  Forall (Forall (λ c, c = EMPTY)) (Room.grid room) ↔
  ∀ row col, in_bounds room row col → Room.is_wall room row col = Ok false.
Proof.
  intros Hwf. split.
  - intros Hall row col Hin. rewrite is_wall_in_bounds by done.
    destruct (stored_in_bounds room row col Hwf Hin) as [c Hc]. rewrite Hc.
    unfold stored in Hc.
    destruct (Room.grid room !! Z.to_nat row) as [r|] eqn:Hr; [|done].
    cbn in Hc. eapply Forall_lookup_1 in Hall; [|exact Hr].
    eapply Forall_lookup_1 in Hall; [|exact Hc]. by subst c.
  - intros Hopen. destruct Hwf as [Hh Hw].
    apply Forall_lookup. intros i r Hr. apply Forall_lookup. intros j c Hc.
    assert (Hin : in_bounds room (Z.of_nat i) (Z.of_nat j)).
    { apply lookup_lt_Some in Hc.
      pose proof (lookup_lt_Some _ _ _ Hr).
      eapply Forall_lookup_1 in Hw; [|exact Hr]. cbn in Hw.
      unfold in_bounds. lia. }
    apply Hopen, is_wall_false in Hin as [_ Hs]. unfold stored in Hs.
    rewrite !Nat2Z.id, Hr in Hs. cbn in Hs. congruence.
Qed.

End StatisticsMore.

(** X23. The statistics of a room accepted by [Room]: the total is height
    times width and positive, the empty cells are those [count_empty_cells]
    counts, empty and wall cells add up to the total, there is no wall cell
    exactly when [is_wall] is false on every cell of the grid, and the
    percentage is 100 times the empty cells over the total, between 0 and
    100. *)
Theorem room_statistics_spec (g : list (list Cell)) (room : Room.t) :
  Room.init g = Ok room →
  let stats := Rooms.room_statistics room in
  RoomStats.total_cells stats = Room.height room * Room.width room ∧
  0 < RoomStats.total_cells stats ∧
  RoomStats.empty_cells stats = Room.count_empty_cells room ∧
  0 ≤ RoomStats.empty_cells stats ≤ RoomStats.total_cells stats ∧
  RoomStats.empty_cells stats + RoomStats.wall_cells stats
  = RoomStats.total_cells stats ∧
  (RoomStats.wall_cells stats = 0 ↔
   ∀ row col, in_bounds room row col →
              Room.is_wall room row col = Ok false) ∧
  RoomStats.empty_percent stats
  = (inject_Z (100 * RoomStats.empty_cells stats)
     / inject_Z (RoomStats.total_cells stats))%Q ∧
  (0 <= RoomStats.empty_percent stats)%Q ∧
  (RoomStats.empty_percent stats <= inject_Z 100)%Q.
Proof.
  intros (Hwf & _ & Hh & Hw)%init_Ok.
  pose proof Hwf as [Hheight Hwidth].
  assert (Hrows : Forall (λ row, length row = Z.to_nat (Room.width room))
                    (Room.grid room)).
  { eapply Forall_impl; [exact Hwidth|]. cbn. lia. }
  destruct (grid_cells_length 0 _ _ Hrows) as [Hle Hfull].
  pose proof (count_empty_cells_length room) as Hcount.
  assert (Htotal : Room.height room * Room.width room
                   = Z.of_nat (length (Room.grid room)
                                * Z.to_nat (Room.width room))) by lia.
  unfold Rooms.room_statistics.
  cbn [RoomStats.total_cells RoomStats.empty_cells RoomStats.wall_cells
       RoomStats.empty_percent].
  assert (Hpos : 0 < Room.height room * Room.width room) by lia.
  assert (Hgt : (Room.height room * Room.width room >? 0) = true)
    by (apply Z.gtb_lt; lia).
  rewrite Hgt.
  destruct (average_bounds (100 * Room.count_empty_cells room)
              (Room.height room * Room.width room) 100) as [Hq0 Hq100];
    [done|lia|].
  split; [done|]. split; [done|]. split; [done|]. split; [lia|].
  split; [lia|]. split; [|by split_and!].
  rewrite <- all_empty_open, <- Hfull by done. lia.
Qed.

Lemma room_statistics_spec_witness :
  Room.init demo_grid = Ok demo_room ∧
  RoomStats.empty_cells (Rooms.room_statistics demo_room)
  + RoomStats.wall_cells (Rooms.room_statistics demo_room)
  = RoomStats.total_cells (Rooms.room_statistics demo_room).
Proof.
  split; [reflexivity|].
  by destruct (room_statistics_spec demo_grid demo_room eq_refl)
    as (_ & _ & _ & _ & ? & _).
Defined.
